(** * Petra Bridge: a shallow embedding of the HTTP bridge and its link graph

    The development follows the TypeScript sources of the plugin:
    [server.ts] (dispatch, authentication, body ingestion, timeout),
    [utils.ts] (path helpers, frontmatter parsing, batched processing),
    [settings.ts] (the token helpers), and the route files
    [routes/graph.ts], [routes/links.ts], [routes/search.ts],
    [routes/tags.ts] and [routes/notes.ts].  JavaScript strings are modelled as Rocq strings
    (sequences of code units), numbers that the code only uses as integers
    as [Z], a number that comes from the request body and is compared and
    sliced with as [Num] (a rational, an infinity or NaN), arrays as lists, [Map] and [Set] keyed by strings as stdpp's
    [gmap] and [gset] (or as insertion-ordered lists where the code
    depends on the iteration order). *)

From Stdlib Require Import ZArith String Ascii Strings.Byte List Bool Lia.
From Stdlib Require Import Sorting.Sorted.
From Stdlib Require Import QArith Qround.
From stdpp Require Import base option gmap strings list.

Import ListNotations.
Local Open Scope string_scope.
Local Open Scope Z_scope.
Local Open Scope list_scope.

Set Warnings "-register-all".

(** ** JavaScript values and string primitives *)

Module Js.

(** A JSON value, as produced by [JSON.parse] and consumed by
    [JSON.stringify]. *)
Inductive json : Type :=
| JNull
| JBool (b : bool)
| JNum (n : Z)
| JStr (s : string)
| JArr (items : list json)
| JObj (fields : list (string * json)).

(** [s.endsWith(suffix)] *)
Definition endsWith (s suffix : string) : bool :=
  let n := String.length s in
  let k := String.length suffix in
  (k <=? n)%nat && String.eqb (substring (n - k) k s) suffix.

(** [s.startsWith(p)] *)
Definition startsWith (s p : string) : bool := String.prefix p s.

(** [s.replace(/\.md$/, "")]: drop one trailing [.md]. *)
Definition replace_md_ext (s : string) : string :=
  if endsWith s ".md" then substring 0 (String.length s - 3) s else s.

(** [s.slice(k)] for a non-negative [k]. *)
Definition slice_from (k : nat) (s : string) : string :=
  substring k (String.length s - k) s.

(** [s.indexOf(pat, from)]; [-1] when there is no occurrence. *)
Definition indexOf (s pat : string) (from : nat) : Z :=
  match String.index from pat s with
  | Some k => Z.of_nat k
  | None => -1
  end.

(** [s.includes(pat)] *)
Definition includes (s pat : string) : bool :=
  match String.index 0 pat s with Some _ => true | None => false end.

(** [s.split(sep)] for a one-character separator: the pieces between
    consecutive separators, empty pieces included. *)
Fixpoint split_aux (sep : ascii) (s : string) (cur : string) : list string :=
  match s with
  | EmptyString => [cur]
  | String c rest =>
      if Ascii.eqb c sep then cur :: split_aux sep rest EmptyString
      else split_aux sep rest (cur ++ String c EmptyString)%string
  end.

Definition split (sep : ascii) (s : string) : list string :=
  split_aux sep s EmptyString.

(** [a.slice(0, k)] on an array. *)
Definition array_slice0 {A} (l : list A) (k : Z) : list A :=
  if k <? 0 then firstn (length l - Z.to_nat (- k)) l
  else firstn (Z.to_nat k) l.

(** A JavaScript number that need not be an integer. *)
Inductive Num : Type :=
| Finite (q : Q)
| PosInf
| NegInf
| NaN.

(** [n >= x] and [n < x] for an array length [n]; both are false on
    [NaN]. *)
Definition len_ge (n : nat) (x : Num) : bool :=
  match x with
  | Finite q => Qle_bool q (inject_Z (Z.of_nat n))
  | PosInf => false
  | NegInf => true
  | NaN => false
  end.

Definition len_lt (n : nat) (x : Num) : bool :=
  match x with
  | Finite q => negb (Qle_bool q (inject_Z (Z.of_nat n)))
  | PosInf => true
  | NegInf => false
  | NaN => false
  end.

(** [ToIntegerOrInfinity] on a finite number: truncation towards zero. *)
Definition to_integer (q : Q) : Z :=
  if Qle_bool 0 q then Qfloor q else Qceiling q.

(** [a.slice(0, x)] on an array, for any number [x]: [NaN] counts as
    [0], and the infinities clamp to the ends. *)
Definition slice_upto {A} (l : list A) (x : Num) : list A :=
  match x with
  | Finite q => array_slice0 l (to_integer q)
  | PosInf => l
  | NegInf => []
  | NaN => []
  end.

(** [a.slice(i, j)] on an array, for indices in range of naturals. *)
Definition array_slice {A} (l : list A) (i j : nat) : list A :=
  firstn (j - i) (skipn i l).

(** A stable insertion sort: [Array.prototype.sort] is stable, so for a
    comparator that is a total preorder its result is determined. *)
Fixpoint insert_sorted {A} (le : A -> A -> bool) (x : A) (l : list A) : list A :=
  match l with
  | [] => [x]
  | y :: l' => if le x y then x :: l else y :: insert_sorted le x l'
  end.

Definition stable_sort {A} (le : A -> A -> bool) (l : list A) : list A :=
  fold_right (insert_sorted le) [] l.

End Js.

(** ** The Obsidian API surface the routes consume *)

Module Obsidian.

Record TFile : Type := {
  path : string;
  basename : string;
  extension : string;
  parent : option string   (* [file.parent?.path] *)
}.

Inductive TAbstractFile : Type :=
| AFile (f : TFile)
| AFolder (p : string).

Record LinkCache : Type := { link : string; original : string }.
Record TagCache : Type := { tag : string }.

(** The typed part of a note's frontmatter ([NoteFrontmatter]). *)
Record Frontmatter : Type := {
  fm_title : option string;
  fm_tags : option (list string);
  fm_created : option string;
  fm_modified : option string
}.

Record CachedMetadata : Type := {
  links : option (list LinkCache);
  embeds : option (list LinkCache);
  tags : option (list TagCache);
  frontmatter : option Frontmatter
}.

(** [app.vault] and [app.metadataCache].  [vault_read] is the only I/O
    operation that can fail: [None] stands for a rejected read. *)
Record App : Type := {
  getMarkdownFiles : list TFile;
  getAbstractFileByPath : string -> option TAbstractFile;
  vault_read : TFile -> option string;
  getName : string;
  getFileCache : TFile -> option CachedMetadata;
  getFirstLinkpathDest : string -> string -> option TFile
}.

(** The same vault with another list of markdown files, or with another
    read operation. *)
Definition with_files (app : App) (files : list TFile) : App :=
  {| getMarkdownFiles := files;
     getAbstractFileByPath := getAbstractFileByPath app;
     vault_read := vault_read app;
     getName := getName app;
     getFileCache := getFileCache app;
     getFirstLinkpathDest := getFirstLinkpathDest app |}.

Definition with_read (app : App) (read : TFile -> option string) : App :=
  {| getMarkdownFiles := getMarkdownFiles app;
     getAbstractFileByPath := getAbstractFileByPath app;
     vault_read := read;
     getName := getName app;
     getFileCache := getFileCache app;
     getFirstLinkpathDest := getFirstLinkpathDest app |}.

Definition readable (app : App) (f : TFile) : bool :=
  match vault_read app f with Some _ => true | None => false end.

End Obsidian.

(** ** Platform functions the sources call but do not define *)

Module Platform.
Import Js Obsidian.

(** The JavaScript built-ins whose exact behaviour the development does
    not depend on.  [None] stands for a thrown exception
    ([decodeURIComponent] on a malformed escape, [new RegExp] on a
    malformed pattern) or for [JSON.parse] failing.  [link_regexp b] is
    [new RegExp("\\[\\[" + b + "(\\|[^\\]]+)?\\]\\]", "i")]; applied to a
    text it gives the first match, if any. *)
Record Runtime : Type := {
  JSON_parse : string -> option json;
  JSON_stringify : Frontmatter -> string;
  decodeURIComponent : string -> option string;
  toLowerCase : string -> string;
  trim : string -> string;
  link_regexp : string -> option (string -> option string)
}.

End Platform.

(** ** utils.ts *)

Module Utils.
Import Js Obsidian Platform.

Record NoteInfo : Type := {
  ni_path : string;
  ni_title : string;
  ni_tags : list string;
  ni_created : option string;
  ni_modified : option string
}.

(** The result of an awaited computation: a value, or a thrown error
    with its message. *)
Inductive Outcome (A : Type) : Type :=
| Ok (a : A)
| Throw (msg : string).
Arguments Ok {A} a.
Arguments Throw {A} msg.

Definition string_in (x : string) (l : list string) : bool :=
  existsb (String.eqb x) l.

(** [tag.startsWith("#") ? tag.slice(1) : tag] *)
Definition tag_name (t : string) : string :=
  if startsWith t "#" then slice_from 1 t else t.

Definition push_new_tag (acc : list string) (t : TagCache) : list string :=
  let tagName := tag_name (tag t) in
  if string_in tagName acc then acc else acc ++ [tagName].

Definition fileToNoteInfo (app : App) (file : TFile)
    (cache : option CachedMetadata) : NoteInfo :=
  let metadata := match cache with Some c => Some c | None => getFileCache app file end in
  let fm := match metadata with Some m => frontmatter m | None => None end in
  let tags0 := match fm with
               | Some f => match fm_tags f with Some ts => ts | None => [] end
               | None => []
               end in
  let tags1 := match metadata with
               | Some m => match tags m with
                           | Some ts => fold_left push_new_tag ts tags0
                           | None => tags0
                           end
               | None => tags0
               end in
  {| ni_path := replace_md_ext (path file);
     ni_title := match fm with
                 | Some f => match fm_title f with
                             | Some (String c t) => String c t
                             | _ => basename file
                             end
                 | None => basename file
                 end;
     ni_tags := tags1;
     ni_created := match fm with Some f => fm_created f | None => None end;
     ni_modified := match fm with Some f => fm_modified f | None => None end |}.

Definition normalizePath (p : string) : string :=
  let p := if startsWith p "/" then slice_from 1 p else p in
  if endsWith p ".md" then p else (p ++ ".md")%string.

Definition newline : ascii := "010"%char.

(** [s.replace(/\n/g, " ")] *)
Fixpoint newlines_to_spaces (s : string) : string :=
  match s with
  | EmptyString => EmptyString
  | String c rest =>
      String (if Ascii.eqb c newline then " "%char else c) (newlines_to_spaces rest)
  end.

Definition getContext (rt : Runtime) (content searchText : string) : string :=
  match String.index 0 searchText content with
  | None => ""
  | Some idx =>
      let start := (idx - 30)%nat in
      let stop := Nat.min (String.length content)
                          (idx + String.length searchText + 30) in
      let context := trim rt (newlines_to_spaces (substring start (stop - start) content)) in
      let context := if (0 <? start)%nat then ("..." ++ context)%string else context in
      if (stop <? String.length content)%nat then (context ++ "...")%string else context
  end.

Section ProcessBatch.
Context {T R St : Type}.

(** An item processor: it may update the caller's state (the closure's
    captured variables) and then yields a result, [null], or throws. *)
Variable processor : T -> St -> St * Outcome (option R).

(** [Promise.all(batch.map(async item => try .. catch { return null }))],
    with the awaits of a batch completing in submission order. *)
Fixpoint run_batch (batch : list T) (s : St) : list (option R) * St :=
  match batch with
  | [] => ([], s)
  | item :: rest =>
      let '(s1, o) := processor item s in
      let r := match o with Ok r => r | Throw _ => None end in
      let '(rs, s2) := run_batch rest s1 in
      (r :: rs, s2)
  end.

Definition non_null (rs : list (option R)) : list R :=
  flat_map (fun r => match r with Some x => [x] | None => [] end) rs.

(** The [for (let i = 0; i < items.length; i += batchSize)] loop.  With
    [batchSize = 0] the source loops forever; here the fuel runs out. *)
Fixpoint processBatch_loop (fuel : nat) (items : list T) (batchSize i : nat)
    (results : list R) (s : St) : option (list R * St) :=
  if (length items <=? i)%nat then Some (results, s)
  else
    match fuel with
    | O => None
    | S fuel' =>
        let batch := array_slice items i (i + batchSize) in
        let '(batchResults, s') := run_batch batch s in
        processBatch_loop fuel' items batchSize (i + batchSize)
                          (results ++ non_null batchResults) s'
    end.

Definition processBatch (items : list T) (batchSize : nat) (s : St)
    : option (list R * St) :=
  processBatch_loop (length items) items batchSize 0 [] s.

End ProcessBatch.
End Utils.

(** ** server.ts *)

Module Server.
Import Js Obsidian Platform Utils.

Definition MAX_BODY_SIZE : Z := 10 * 1024 * 1024.
Definition ROUTE_TIMEOUT : Z := 30000.
Definition VERSION : string := "0.1.2".

Record Response : Type := { status : Z; payload : json }.

(** [http.ServerResponse] with the socket it shares with the request:
    whether [end()] was called, what went out on the wire, and whether
    the socket has been destroyed.  [dropped] is a ghost record of the
    responses that were written after the socket was destroyed: they
    reach no one, and no code path reads it. *)
Record Res : Type := {
  writableEnded : bool;
  wire : list Response;
  destroyed : bool;
  dropped : list Response
}.

Definition fresh_res : Res :=
  {| writableEnded := false; wire := []; destroyed := false; dropped := [] |}.

(** [setHeader; writeHead; end]: on a response that has ended,
    [setHeader] throws and nothing is written; on a destroyed socket
    the calls succeed and the bytes are discarded. *)
Definition write (r : Response) (res : Res) : Outcome Res :=
  if writableEnded res then Throw "ERR_HTTP_HEADERS_SENT"
  else if destroyed res
       then Ok {| writableEnded := true; wire := wire res;
                  destroyed := true; dropped := dropped res ++ [r] |}
       else Ok {| writableEnded := true; wire := wire res ++ [r];
                  destroyed := false; dropped := dropped res |}.

(** The effect of [req.destroy()] on the response: the socket is gone. *)
Definition destroy (res : Res) : Res :=
  {| writableEnded := writableEnded res; wire := wire res;
     destroyed := true; dropped := dropped res |}.

Definition sendJson (res : Res) (data : json) : Outcome Res :=
  write {| status := 200; payload := data |} res.

Definition error_body (code message : string) : json :=
  JObj [("ok", JBool false);
        ("error", JObj [("code", JStr code); ("message", JStr message)])].

Definition sendError (res : Res) (status : Z) (code message : string) : Outcome Res :=
  write {| status := status; payload := error_body code message |} res.

(** *** checkAuth *)

Fixpoint bytes_eqb (a b : list byte) : bool :=
  match a, b with
  | [], [] => true
  | x :: a', y :: b' => Byte.eqb x y && bytes_eqb a' b'
  | _, _ => false
  end.

(** [crypto.timingSafeEqual]: throws on buffers of different length. *)
Definition timingSafeEqual (a b : list byte) : Outcome bool :=
  if (length a =? length b)%nat then Ok (bytes_eqb a b)
  else Throw "ERR_CRYPTO_TIMING_SAFE_EQUAL_LENGTH".

(** [Buffer.from(s, "utf8")] *)
Definition Buffer_from (s : string) : list byte := list_byte_of_string s.

(** [checkAuth], with the byte comparison it calls as a parameter. *)
Definition checkAuthWith (compare : list byte -> list byte -> Outcome bool)
    (authToken : option string) (authorization : option string) : bool :=
  match authToken with
  | None | Some EmptyString => true
  | Some secret =>
      match authorization with
      | None | Some EmptyString => false
      | Some authHeader =>
          match split " "%char authHeader with
          | type :: token :: _ =>
              if negb (String.eqb type "Bearer") || String.eqb token "" then false
              else
                let tokenBuf := Buffer_from token in
                let authBuf := Buffer_from secret in
                if negb (length tokenBuf =? length authBuf)%nat then false
                else match compare tokenBuf authBuf with
                     | Ok b => b
                     | Throw _ => false
                     end
          | _ => false
          end
      end
  end.

Definition checkAuth : option string -> option string -> bool :=
  checkAuthWith timingSafeEqual.

(** *** parseBody *)

Inductive StreamEnd : Type :=
| EndOfStream
| StreamError (msg : string).

(** The request body as the ["data"] chunks followed by ["end"] or
    ["error"]. *)
Record BodyStream : Type := { chunks : list string; ending : StreamEnd }.

(** How the ["data"] listener leaves the request: with the chunks
    collected, or aborted -- [req.destroy()] followed by
    [reject(new Error(msg))]. *)
Inductive Ingest : Type :=
| Collected (acc : list string)
| Aborted (msg : string).

(** The ["data"] listener, over the chunks in arrival order.  After an
    abort the request is destroyed and delivers no further chunk. *)
Fixpoint read_chunks (cs : list string) (size : Z) (acc : list string) : Ingest :=
  match cs with
  | [] => Collected acc
  | chunk :: rest =>
      let size := size + Z.of_nat (String.length chunk) in
      if size >? MAX_BODY_SIZE then Aborted "Request body too large"
      else read_chunks rest size (acc ++ [chunk])
  end.

(** Whether reading the body calls [req.destroy()], which destroys the
    socket that the response writes to. *)
Definition destroys (b : BodyStream) : bool :=
  match read_chunks (chunks b) 0 [] with
  | Aborted _ => true
  | Collected _ => false
  end.

(** The parsed body: [None] is [undefined]; text that is not JSON is
    passed through as a string. *)
Definition parseBody (rt : Runtime) (b : BodyStream) : Outcome (option json) :=
  match read_chunks (chunks b) 0 [] with
  | Aborted m => Throw m
  | Collected acc =>
      match ending b with
      | StreamError m => Throw m
      | EndOfStream =>
          match String.concat "" acc with
          | EmptyString => Ok None
          | body =>
              match JSON_parse rt body with
              | Some v => Ok (Some v)
              | None => Ok (Some (JStr body))
              end
          end
      end
  end.

(** The parts of [http.IncomingMessage] that the server reads. *)
Record Request : Type := {
  req_method : string;
  pathname : string;
  authorization : option string;
  body : BodyStream
}.

(** *** withTimeout and handler runs *)

Inductive Settlement : Type :=
| Resolves
| Rejects (msg : string).

(** What a running handler does, on a clock that starts when it is
    invoked: the responses it sends ([server.sendJson] or
    [server.sendError]) with their times in milliseconds, in order, and
    when and how its promise settles ([None]: never). *)
Record HandlerRun : Type := {
  sends : list (Z * Response);
  settle : option (Z * Settlement)
}.

(** [(req, res, params, body) => Promise<void>]; the effect on [res] is
    in the run. *)
Definition RouteHandler : Type :=
  Request -> gmap string string -> option json -> HandlerRun.

Record Route : Type := {
  method : string;
  pattern : string -> option (list string);   (* the capture groups of a match *)
  paramNames : list string;
  handler : RouteHandler
}.

(** [withTimeout(promise, ms)]: the time at which the wrapped promise
    settles, and how. *)
Definition withTimeout (run : HandlerRun) (ms : Z) : Z * Settlement :=
  match settle run with
  | Some (t, s) => if t <? ms then (t, s) else (ms, Rejects "Request timeout")
  | None => (ms, Rejects "Request timeout")
  end.

(** A send by the handler; a second send throws inside the handler and
    leaves the response as it was. *)
Definition handler_send (res : Res) (r : Response) : Res :=
  match write r res with
  | Ok res' => res'
  | Throw _ => res
  end.

(** The response object after the handler's sends up to time [t]. *)
Definition res_at (run : HandlerRun) (t : Z) (res : Res) : Res :=
  fold_left handler_send
            (map snd (List.filter (fun s => fst s <=? t) (sends run))) res.

(** *** handleRequest *)

Record PetraServer : Type := {
  app : App;
  routes : list Route;
  authToken : option string
}.

(** How [handleRequest] ends: it returns, or its promise rejects. *)
Inductive Completion : Type :=
| Returned (res : Res)
| Failed (res : Res) (msg : string).

Definition finish (o : Outcome Res) (res : Res) : Completion :=
  match o with
  | Ok res' => Returned res'
  | Throw m => Failed res m
  end.

Definition health_basic : json :=
  JObj [("ok", JBool true); ("data", JObj [("status", JStr "healthy")])].

Definition health_full (a : App) : json :=
  JObj [("ok", JBool true);
        ("data", JObj [("status", JStr "healthy");
                       ("version", JStr VERSION);
                       ("vault", JStr (getName a));
                       ("fileCount", JNum (Z.of_nat (length (getMarkdownFiles a))))])].

(** [params[name] = decodeURIComponent(match[i + 1])] for each name. *)
Fixpoint extract_params (rt : Runtime) (names : list string) (groups : list string)
    (params : gmap string string) : Outcome (gmap string string) :=
  match names with
  | [] => Ok params
  | name :: names' =>
      match decodeURIComponent rt (hd "undefined" groups) with
      | None => Throw "URIError"
      | Some v => extract_params rt names' (tl groups) (<[ name := v ]> params)
      end
  end.

(** [await this.withTimeout(route.handler(..), ROUTE_TIMEOUT)] and its
    [catch]. *)
Definition execute (run : HandlerRun) (res : Res) : Completion :=
  let '(t, s) := withTimeout run ROUTE_TIMEOUT in
  let res := res_at run t res in
  match s with
  | Resolves => Returned res
  | Rejects m =>
      if String.eqb m "Request timeout" then
        if negb (writableEnded res)
        then finish (sendError res 504 "INTERNAL_ERROR" "Request timeout") res
        else Returned res
      else Failed res m
  end.

(** The body of the loop over the routes once a route has matched.
    When [parseBody] has destroyed the request, what is written to the
    response afterwards goes to a destroyed socket. *)
Definition run_route (rt : Runtime) (route : Route) (groups : list string)
    (req : Request) (res : Res) : Completion :=
  match extract_params rt (paramNames route) groups ∅ with
  | Throw m => Failed res m
  | Ok params =>
      let res := if destroys (body req) then destroy res else res in
      match parseBody rt (body req) with
      | Throw m =>
          if String.eqb m "Request body too large"
          then finish (sendError res 413 "INTERNAL_ERROR"
                                 "Request body too large (max 10MB)") res
          else finish (sendError res 400 "INTERNAL_ERROR"
                                 "Failed to parse request body") res
      | Ok parsed => execute (handler route req params parsed) res
      end
  end.

Fixpoint find_route (rs : list Route) (method_ path_ : string)
    : option (Route * list string) :=
  match rs with
  | [] => None
  | route :: rest =>
      if negb (String.eqb (method route) method_) then find_route rest method_ path_
      else match pattern route path_ with
           | None => find_route rest method_ path_
           | Some groups => Some (route, groups)
           end
  end.

(** [req.method || "GET"] *)
Definition method_of (req : Request) : string :=
  match req_method req with EmptyString => "GET" | m => m end.

(** [handleRequest] from its second statement on: [req] carries the
    pathname that [new URL(req.url || "/", base)] has produced.  That
    first statement, which throws on a target that is not a URL, is in
    [Dispatch.handle] below. *)
Definition handleRequest (rt : Runtime) (srv : PetraServer) (req : Request)
    (res : Res) : Completion :=
  let path_ := pathname req in
  let method_ := method_of req in
  if String.eqb path_ "/health" && String.eqb method_ "GET" then
    if negb (checkAuth (authToken srv) (authorization req))
    then finish (sendJson res health_basic) res
    else finish (sendJson res (health_full (app srv))) res
  else if negb (checkAuth (authToken srv) (authorization req))
  then finish (sendError res 401 "AUTH_REQUIRED" "Authorization required") res
  else
    match find_route (routes srv) method_ path_ with
    | Some (route, groups) => run_route rt route groups req res
    | None =>
        finish (sendError res 404 "NOT_FOUND"
                  ("Route not found: " ++ method_ ++ " " ++ path_)%string) res
    end.

(** *** Vocabulary for the statements about the dispatcher *)

(** [type] and [token] of [const [type, token] = authHeader.split(" ")]. *)
Definition auth_scheme (authHeader : string) : string :=
  hd "" (split " "%char authHeader).

Definition presented_token (authHeader : string) : option string :=
  nth_error (split " "%char authHeader) 1.

(** A response object on which exactly [r] was sent. *)
Definition sent (r : Response) : Res :=
  {| writableEnded := true; wire := [r]; destroyed := false; dropped := [] |}.

(** A response object that was ended with [r] on a destroyed socket:
    [r] was written and reached no one. *)
Definition lost (r : Response) : Res :=
  {| writableEnded := true; wire := []; destroyed := true; dropped := [r] |}.

(** The socket is in place and nothing was ever discarded. *)
Definition intact (res : Res) : Prop := destroyed res = false /\ dropped res = [].

(** The number of bytes of a body. *)
Definition total_size (cs : list string) : Z :=
  fold_right (fun c n => Z.of_nat (String.length c) + n) 0 cs.

(** A request that is not the health probe, passes authentication and
    matches [route], with the parameters decoded to [params]. *)
Definition routed (rt : Runtime) (srv : PetraServer) (req : Request)
    (route : Route) (params : gmap string string) : Prop :=
  String.eqb (pathname req) "/health" && String.eqb (method_of req) "GET" = false /\
  checkAuth (authToken srv) (authorization req) = true /\
  exists groups,
    find_route (routes srv) (method_of req) (pathname req) = Some (route, groups) /\
    extract_params rt (paramNames route) groups ∅ = Ok params.

Definition with_body (req : Request) (b : BodyStream) : Request :=
  {| req_method := req_method req; pathname := pathname req;
     authorization := authorization req; body := b |}.

Definition too_large_response : Response :=
  {| status := 413;
     payload := error_body "INTERNAL_ERROR" "Request body too large (max 10MB)" |}.

Definition parse_failure_response : Response :=
  {| status := 400;
     payload := error_body "INTERNAL_ERROR" "Failed to parse request body" |}.

Definition timeout_response : Response :=
  {| status := 504; payload := error_body "INTERNAL_ERROR" "Request timeout" |}.

(** The handler has not settled when the deadline fires. *)
Definition overruns (run : HandlerRun) : Prop :=
  match settle run with
  | Some (t, _) => ROUTE_TIMEOUT <= t
  | None => True
  end.

(** A response object is either untouched or ended with one response. *)
Definition single (res : Res) : Prop :=
  (writableEnded res = false /\ wire res = []) \/
  (writableEnded res = true /\ length (wire res) = 1%nat).

End Server.

(** ** Route replies *)

Module Routes.
Import Utils.

(** What a route handler does with the response: [server.sendJson] with
    the data, [server.sendError], or a rejected promise. *)
Inductive Reply (A : Type) : Type :=
| ReplyJson (data : A)
| ReplyError (status : Z) (code message : string)
| ReplyThrow (msg : string).
Arguments ReplyJson {A} data.
Arguments ReplyError {A} status code message.
Arguments ReplyThrow {A} msg.

End Routes.

(** ** routes/links.ts *)

Module Links.
Import Js Obsidian Platform Utils Routes.

Record LinkInfo : Type := {
  li_path : string;
  li_title : string;
  li_exists : bool;
  li_context : string
}.

Record BacklinkInfo : Type := {
  bl_info : NoteInfo;
  bl_context : string
}.

Section Handlers.
Variable rt : Runtime.
Variable app : App.

(** [resolved?.path === targetPath] for one link of [file]. *)
Definition resolves_to (file : TFile) (targetPath : string) (l : LinkCache) : bool :=
  match getFirstLinkpathDest app (link l) (path file) with
  | Some resolved => String.eqb (path resolved) targetPath
  | None => false
  end.

(** One iteration of the scan in [GET /notes/:path/backlinks]: the
    entries it pushes (none when the iteration continues or its
    [try] block throws). *)
Definition backlink_entry (targetFile : TFile) (targetPath : string)
    (file : TFile) : list BacklinkInfo :=
  if String.eqb (path file) targetPath then []
  else
    match getFileCache app file with
    | None => []
    | Some cache =>
        match links cache, embeds cache with
        | None, None => []
        | ls, es =>
            let allLinks := ((match ls with Some l => l | None => [] end)
                             ++ (match es with Some l => l | None => [] end))%list in
            if existsb (resolves_to file targetPath) allLinks then
              match vault_read app file with
              | None => []                       (* the read rejects *)
              | Some content =>
                  match link_regexp rt (basename targetFile) with
                  | None => []                   (* [new RegExp] throws *)
                  | Some re =>
                      [ {| bl_info := fileToNoteInfo app file (Some cache);
                           bl_context := match re content with
                                         | Some m => getContext rt content m
                                         | None => ""
                                         end |} ]
                  end
              end
            else []
        end
    end.

Definition backlinks (params_path : string) : Reply (list BacklinkInfo) :=
  let targetPath := normalizePath params_path in
  match getAbstractFileByPath app targetPath with
  | Some (AFile targetFile) =>
      ReplyJson (flat_map (backlink_entry targetFile targetPath)
                          (getMarkdownFiles app))
  | _ => ReplyError 404 "NOT_FOUND" ("Note not found: " ++ params_path)%string
  end.

(** The loop over [cache.links]; the state is [(outlinks, seen)]. *)
Definition outlink_of_link (sourcePath content : string)
    (st : list LinkInfo * gset string) (l : LinkCache)
    : list LinkInfo * gset string :=
  let '(outlinks, seen) := st in
  if bool_decide (link l ∈ seen) then st
  else
    let seen := {[ link l ]} ∪ seen in
    let resolved := getFirstLinkpathDest app (link l) sourcePath in
    (outlinks ++ [ {| li_path := match resolved with
                                 | Some r => replace_md_ext (path r)
                                 | None => link l
                                 end;
                      li_title := match resolved with
                                  | Some r => basename r
                                  | None => link l
                                  end;
                      li_exists := match resolved with Some _ => true | None => false end;
                      li_context := getContext rt content (original l) |} ],
     seen).

(** The loop over [cache.embeds], sharing [seen]. *)
Definition outlink_of_embed (sourcePath content : string)
    (st : list LinkInfo * gset string) (embed : LinkCache)
    : list LinkInfo * gset string :=
  let '(outlinks, seen) := st in
  if bool_decide (link embed ∈ seen) then st
  else
    let seen := {[ link embed ]} ∪ seen in
    match getFirstLinkpathDest app (link embed) sourcePath with
    | Some resolved =>
        if String.eqb (extension resolved) "md" then
          (outlinks ++ [ {| li_path := replace_md_ext (path resolved);
                            li_title := basename resolved;
                            li_exists := true;
                            li_context := getContext rt content (original embed) |} ],
           seen)
        else (outlinks, seen)
    | None => (outlinks, seen)
    end.

Definition outlinks (params_path : string) : Reply (list LinkInfo) :=
  let sourcePath := normalizePath params_path in
  match getAbstractFileByPath app sourcePath with
  | Some (AFile sourceFile) =>
      let cache := getFileCache app sourceFile in
      match vault_read app sourceFile with
      | None => ReplyThrow "read failed"
      | Some content =>
          let st := ([], ∅) in
          let st := match cache with
                    | Some c => match links c with
                                | Some ls => fold_left (outlink_of_link sourcePath content) ls st
                                | None => st
                                end
                    | None => st
                    end in
          let st := match cache with
                    | Some c => match embeds c with
                                | Some es => fold_left (outlink_of_embed sourcePath content) es st
                                | None => st
                                end
                    | None => st
                    end in
          ReplyJson (fst st)
      end
  | _ => ReplyError 404 "NOT_FOUND" ("Note not found: " ++ params_path)%string
  end.

End Handlers.

(** *** Vocabulary for the statements about the link routes *)

(** The vault's path index and its list of markdown files agree: a file
    is found under its own path, and a file found under a path ending in
    [.md] is one of the markdown files. *)
Definition vault_ok (app : App) : Prop :=
  forall p f, getAbstractFileByPath app p = Some (AFile f) ->
    path f = p /\ (endsWith p ".md" = true -> In f (getMarkdownFiles app)).

(** [[...(cache.links || []), ...(cache.embeds || [])]] *)
Definition all_links (c : option CachedMetadata) : list LinkCache :=
  match c with
  | Some c => (match links c with Some l => l | None => [] end)
              ++ (match embeds c with Some l => l | None => [] end)
  | None => []
  end.

(** The entry [e] shows the path of a file that one of the references
    [ls] resolves to from [sourcePath]. *)
Definition from_resolved (app : App) (sourcePath : string) (ls : list LinkCache)
    (e : LinkInfo) : Prop :=
  exists l r, In l ls /\
    getFirstLinkpathDest app (link l) sourcePath = Some r /\
    li_path e = replace_md_ext (path r).

(** The backlink [b] describes a note of the vault whose read succeeded. *)
Definition backlink_from_readable (app : App) (b : BacklinkInfo) : Prop :=
  exists file content,
    In file (getMarkdownFiles app) /\
    vault_read app file = Some content /\
    bl_info b = fileToNoteInfo app file (getFileCache app file).

End Links.

(** ** routes/search.ts *)

Module Search.
Import Js Obsidian Platform Utils Routes.

Record SearchMatch : Type := { line : Z; text : string }.
Record SearchResult : Type := { note : NoteInfo; matches : list SearchMatch }.

(** The request body when it can be destructured (any value but
    [undefined] and [null]), with the fields of the handler's type
    annotation; [None] is a field that is absent.  [limit] is the number
    that the comparisons and [slice] make of the field ([ToNumber]): it
    need not be whole. *)
Record SearchBody : Type := {
  query : option string;
  folder : option string;
  limit : option Num;
  caseSensitive : option bool
}.

Definition frontmatter_fence : string := String "-" (String "-" (String "-" (String newline ""))).

Section Handler.
Variable rt : Runtime.
Variable app : App.

(** The [for] loop over the lines of the body, from index [i]. *)
Fixpoint line_matches (caseSensitive : bool) (searchQuery : string)
    (lines : list string) (i : Z) : list SearchMatch :=
  match lines with
  | [] => []
  | line :: rest =>
      let searchLine := if caseSensitive then line else toLowerCase rt line in
      (if includes searchLine searchQuery
       then [ {| line := i + 1; text := trim rt line |} ]
       else [])
      ++ line_matches caseSensitive searchQuery rest (i + 1)
  end.

(** The matches of one note, from its content and its cached metadata. *)
Definition note_matches (caseSensitive : bool) (searchQuery : string)
    (content : string) (cache : option CachedMetadata) : list SearchMatch :=
  let bodyStart := indexOf content frontmatter_fence 4 in
  let body := if bodyStart >? 0 then slice_from (Z.to_nat (bodyStart + 4)) content
              else content in
  let lines := split newline body in
  let matches := line_matches caseSensitive searchQuery lines 0 in
  match cache with
  | Some c =>
      match frontmatter c with
      | Some fm =>
          let fmStr := JSON_stringify rt fm in
          let searchFm := if caseSensitive then fmStr else toLowerCase rt fmStr in
          if includes searchFm searchQuery
          then matches ++ [ {| line := 0;
                               text := ("[frontmatter] " ++ substring 0 100 fmStr)%string |} ]
          else matches
      | None => matches
      end
  | None => matches
  end.

(** The processor passed to [processBatch]; its state is [results].  It
    catches a failed read itself and always yields [null].  The early
    exit is evaluated when the item's turn comes; with the reads of a
    batch completing in submission order this leaves [results] as
    evaluating it when the batch starts does, since the push is guarded
    by the same bound. *)
Definition search_processor (limit : Num) (caseSensitive : bool) (searchQuery : string)
    (file : TFile) (results : list SearchResult)
    : list SearchResult * Outcome (option unit) :=
  if len_ge (length results) limit then (results, Ok None)
  else
    match vault_read app file with
    | None => (results, Ok None)
    | Some content =>
        let cache := getFileCache app file in
        let matches := note_matches caseSensitive searchQuery content cache in
        if (0 <? length matches)%nat && len_lt (length results) limit
        then (results ++ [ {| note := fileToNoteInfo app file cache;
                              matches := matches |} ],
              Ok None)
        else (results, Ok None)
    end.

(** [(a, b) => b.matches.length - a.matches.length] as an order. *)
Definition more_matches (a b : SearchResult) : bool :=
  (length (matches b) <=? length (matches a))%nat.

(** [POST /search].  [None] only if [processBatch] runs out of fuel. *)
Definition search (body : SearchBody) : option (Reply (list SearchResult)) :=
  let limit := match limit body with Some l => l | None => Finite (inject_Z 20) end in
  let caseSensitive := match caseSensitive body with Some b => b | None => false end in
  match query body with
  | Some (String c q) =>
      let query := String c q in
      let searchQuery := if caseSensitive then query else toLowerCase rt query in
      let files := getMarkdownFiles app in
      let files := match folder body with
                   | Some (String c' f) =>
                       List.filter (fun file => startsWith (path file) (String c' f)) files
                   | _ => files
                   end in
      match processBatch (search_processor limit caseSensitive searchQuery) files 50 [] with
      | None => None
      | Some (_, results) =>
          Some (ReplyJson (slice_upto (stable_sort more_matches results) limit))
      end
  | _ => Some (ReplyError 400 "INVALID_PATH" "Query is required")
  end.

(** The route handler on the body that the dispatcher passes.  [None] is
    a request without a body, or whose body is [null]: destructuring it
    throws a [TypeError] before anything else is done. *)
Definition handle_search (body : option SearchBody)
    : option (Reply (list SearchResult)) :=
  match body with
  | None => Some (ReplyThrow "TypeError: Cannot destructure property 'query'")
  | Some b => search b
  end.

End Handler.

(** *** Vocabulary for the statements about the search route *)

(** The result [r] is what the search computes from a note of the vault
    whose read succeeded. *)
Definition from_readable (rt : Runtime) (app : App) (body : SearchBody)
    (r : SearchResult) : Prop :=
  exists file content q,
    In file (getMarkdownFiles app) /\
    vault_read app file = Some content /\
    query body = Some q /\
    let cs := match caseSensitive body with Some b => b | None => false end in
    note r = fileToNoteInfo app file (getFileCache app file) /\
    matches r = note_matches rt cs (if cs then q else toLowerCase rt q)
                             content (getFileCache app file).

End Search.

(** ** routes/tags.ts *)

Module Tags.
Import Js Obsidian Platform Utils Routes.

Record TagCount : Type := { tc_tag : string; tc_count : Z }.

(** [tagCounts.set(t, (tagCounts.get(t) || 0) + 1)] on the
    insertion-ordered [Map]: an existing key keeps its position. *)
Fixpoint bump (t : string) (m : list (string * Z)) : list (string * Z) :=
  match m with
  | [] => [(t, 1)]
  | (k, n) :: m' => if String.eqb k t then (k, n + 1) :: m' else (k, n) :: bump t m'
  end.

Section Handler.
Variable app : App.

(** One iteration of the loop over the files of [GET /tags].  The [try]
    block reads no note, and on cached metadata of these types nothing
    in it throws: its [catch] has no case here. *)
Definition count_file (tagCounts : list (string * Z)) (file : TFile)
    : list (string * Z) :=
  match getFileCache app file with
  | None => tagCounts
  | Some cache =>
      let tagCounts :=
        match frontmatter cache with
        | Some fm => match fm_tags fm with
                     | Some fmTags => fold_left (fun m t => bump t m) fmTags tagCounts
                     | None => tagCounts
                     end
        | None => tagCounts
        end in
      match tags cache with
      | Some ts => fold_left (fun m t => bump (tag_name (tag t)) m) ts tagCounts
      | None => tagCounts
      end
  end.

(** [(a, b) => b.count - a.count] as an order. *)
Definition higher_count (a b : TagCount) : bool := tc_count b <=? tc_count a.

Definition list_tags : Reply (list TagCount) :=
  let tagCounts := fold_left count_file (getMarkdownFiles app) [] in
  ReplyJson (stable_sort higher_count
               (map (fun e => {| tc_tag := fst e; tc_count := snd e |}) tagCounts)).

End Handler.
End Tags.

(** ** routes/graph.ts *)

Module Graph.
Import Js Obsidian Routes.

Inductive EdgeType : Type := wiki | markdown.

Record GraphNode : Type := { id : string; title : string; group : string }.
Record GraphEdge : Type := { source : string; target : string; type : EdgeType }.
Record GraphResult : Type := { r_nodes : list GraphNode; r_edges : list GraphEdge }.

(** The request body of [POST /graph/query] when it can be destructured
    (any value but [undefined] and [null]); [None] is an absent field. *)
Record QueryBody : Type := {
  from : option string;
  depth : option Z;
  direction : option string
}.

(** One mutation of the result under construction. *)
Inductive Event : Type :=
| EvNode (n : GraphNode)
| EvEdge (e : GraphEdge).

(** The handler's mutable locals.  [nodes] is the insertion-ordered
    [Map] (its values in insertion order), [edges] the array, [visited]
    the [Set].  [journal] is a ghost history of the mutations of [nodes]
    and [edges] in program order; no code path reads it. *)
Record Store : Type := {
  nodes : list GraphNode;
  edges : list GraphEdge;
  visited : gset string;
  journal : list Event
}.

Definition empty_store : Store :=
  {| nodes := []; edges := []; visited := ∅; journal := [] |}.

Definition nodes_has (i : string) (ns : list GraphNode) : bool :=
  existsb (fun n => String.eqb (id n) i) ns.

Definition file_node (file : TFile) : GraphNode :=
  {| id := replace_md_ext (path file);
     title := basename file;
     group := match parent file with Some p => p | None => "" end |}.

Definition addNode (file : TFile) (st : Store) : Store :=
  let i := replace_md_ext (path file) in
  if nodes_has i (nodes st) then st
  else {| nodes := nodes st ++ [file_node file];
          edges := edges st;
          visited := visited st;
          journal := journal st ++ [EvNode (file_node file)] |}.

Definition pushEdge (e : GraphEdge) (st : Store) : Store :=
  {| nodes := nodes st;
     edges := edges st ++ [e];
     visited := visited st;
     journal := journal st ++ [EvEdge e] |}.

Definition visit (p : string) (st : Store) : Store :=
  {| nodes := nodes st;
     edges := edges st;
     visited := {[ p ]} ∪ visited st;
     journal := journal st |}.

(** Left-to-right iteration of a loop body that may run out of fuel. *)
Fixpoint for_each {A S} (body : A -> S -> option S) (l : list A) (s : S) : option S :=
  match l with
  | [] => Some s
  | x :: l' =>
      match body x s with
      | Some s' => for_each body l' s'
      | None => None
      end
  end.

Section Handler.
Variable app : App.

(** [fileMap]: every file under its path, its basename and its path
    without the extension; later files overwrite earlier ones. *)
Definition fileMap_add (m : gmap string TFile) (file : TFile) : gmap string TFile :=
  <[ replace_md_ext (path file) := file ]>
    (<[ basename file := file ]> (<[ path file := file ]> m)).

Definition fileMap : gmap string TFile :=
  fold_left fileMap_add (getMarkdownFiles app) ∅.

(** [fileMap.get(startPath) || fileMap.get(startPath + ".md")] *)
Definition fileMap_find (startPath : string) : option TFile :=
  match fileMap !! startPath with
  | Some f => Some f
  | None => fileMap !! (startPath ++ ".md")%string
  end.

Definition getOutlinks (file : TFile) : list (TFile * EdgeType) :=
  match getFileCache app file with
  | Some cache =>
      match links cache with
      | Some ls =>
          flat_map (fun l =>
            match getFirstLinkpathDest app (link l) (path file) with
            | Some resolved => [(resolved, wiki)]
            | None => []
            end) ls
      | None => []
      end
  | None => []
  end.

(** Whether some link of [otherFile] resolves to [file]: the inner
    loop of the incoming scan acts on the first such link and breaks. *)
Definition links_to (otherFile file : TFile) : bool :=
  match getFileCache app otherFile with
  | Some cache =>
      match links cache with
      | Some ls =>
          existsb (fun l =>
            match getFirstLinkpathDest app (link l) (path otherFile) with
            | Some resolved => String.eqb (path resolved) (path file)
            | None => false
            end) ls
      | None => false
      end
  | None => false
  end.

Section Traverse.
Variable max_depth : Z.        (* [depth] *)
Variable dir : string.         (* [direction] *)

Definition wants_out : bool := String.eqb dir "out" || String.eqb dir "both".
Definition wants_in : bool := String.eqb dir "in" || String.eqb dir "both".

(** The body of the outgoing loop, with the recursive call abstracted. *)
Definition out_step (rec : string -> Z -> Store -> option Store)
    (fileId : string) (currentDepth : Z)
    (o : TFile * EdgeType) (st : Store) : option Store :=
  let st := addNode (fst o) st in
  let targetId := replace_md_ext (path (fst o)) in
  let st := pushEdge {| source := fileId; target := targetId; type := snd o |} st in
  rec (path (fst o)) (currentDepth + 1) st.

(** The body of the incoming loop. *)
Definition in_step (rec : string -> Z -> Store -> option Store)
    (file : TFile) (fileId : string) (currentDepth : Z)
    (otherFile : TFile) (st : Store) : option Store :=
  if String.eqb (path otherFile) (path file) then Some st
  else if links_to otherFile file then
    let st := addNode otherFile st in
    let sourceId := replace_md_ext (path otherFile) in
    let st := pushEdge {| source := sourceId; target := fileId; type := wiki |} st in
    rec (path otherFile) (currentDepth + 1) st
  else Some st.

(** [traverse(startPath, currentDepth)].  The recursion is on a fuel
    argument; [None] means the fuel ran out. *)
Fixpoint traverse (fuel : nat) (startPath : string) (currentDepth : Z)
    (st : Store) : option Store :=
  if max_depth <? currentDepth then Some st
  else if bool_decide (startPath ∈ visited st) then Some st
  else
    match fuel with
    | O => None
    | S fuel' =>
        let st := visit startPath st in
        match fileMap_find startPath with
        | None => Some st
        | Some file =>
            let st := addNode file st in
            let fileId := replace_md_ext (path file) in
            match
              (if wants_out
               then for_each (out_step (traverse fuel') fileId currentDepth)
                             (getOutlinks file) st
               else Some st)
            with
            | None => None
            | Some st =>
                if wants_in
                then for_each (in_step (traverse fuel') file fileId currentDepth)
                              (getMarkdownFiles app) st
                else Some st
            end
        end
    end.
End Traverse.

(** The whole-graph branch: the first 100 files, their outgoing edges. *)
Definition snapshot_step (file : TFile) (st : Store) : Store :=
  let st := addNode file st in
  let fileId := replace_md_ext (path file) in
  fold_left (fun st (o : TFile * EdgeType) =>
               let st := addNode (fst o) st in
               let targetId := replace_md_ext (path (fst o)) in
               pushEdge {| source := fileId; target := targetId; type := snd o |} st)
            (getOutlinks file) st.

Definition snapshot : Store :=
  fold_left (fun st file => snapshot_step file st)
            (firstn 100 (getMarkdownFiles app)) empty_store.

(** The handler of [POST /graph/query], up to the final store. *)
Definition query_store (fuel : nat) (body : QueryBody) : option Store :=
  let depth := match depth body with Some d => d | None => 1 end in
  let direction := match direction body with Some d => d | None => "both" end in
  match from body with
  | Some (String c s) => traverse depth direction fuel (String c s) 0 empty_store
  | _ => Some snapshot
  end.

Definition result_of (st : Store) : GraphResult :=
  {| r_nodes := nodes st; r_edges := edges st |}.

Definition graph_query (fuel : nat) (body : QueryBody) : option GraphResult :=
  option_map result_of (query_store fuel body).

(** The recursion is at most [depth + 1] calls deep, so this much fuel
    always suffices. *)
Definition enough_fuel (body : QueryBody) : nat :=
  Z.to_nat (match depth body with Some d => d | None => 1 end + 1).

Definition run_query (body : QueryBody) : option GraphResult :=
  graph_query (enough_fuel body) body.

(** The route handler on the body that the dispatcher passes.  [None] is
    a request without a body, or whose body is [null]: destructuring it
    throws a [TypeError] before anything else is done, so the handler's
    promise rejects and nothing is sent by the handler. *)
Definition handle_query (body : option QueryBody) : option (Reply GraphResult) :=
  match body with
  | None => Some (ReplyThrow "TypeError: Cannot destructure property 'from'")
  | Some q => option_map ReplyJson (run_query q)
  end.

End Handler.

(** *** Vocabulary for the statements about the traversal *)

(** The calls still possible below [currentDepth]. *)
Definition fuel_for (max_depth currentDepth : Z) : nat :=
  Z.to_nat (max_depth - currentDepth + 1).

(** The node list and the edge list that a history of mutations builds. *)
Definition nodes_of (j : list Event) : list GraphNode :=
  flat_map (fun ev => match ev with EvNode n => [n] | EvEdge _ => [] end) j.

Definition edges_of (j : list Event) : list GraphEdge :=
  flat_map (fun ev => match ev with EvNode _ => [] | EvEdge e => [e] end) j.

(** Every edge has both endpoints among the nodes. *)
Definition endpoints_present (ns : list GraphNode) (es : list GraphEdge) : Prop :=
  forall e, In e es ->
    nodes_has (source e) ns = true /\ nodes_has (target e) ns = true.

(** Every edge of the history finds both endpoints among the nodes added
    strictly before it. *)
Definition journal_ok (j : list Event) : Prop :=
  forall pre e post, j = pre ++ EvEdge e :: post ->
    nodes_has (source e) (nodes_of pre) = true /\
    nodes_has (target e) (nodes_of pre) = true.

Definition wf (st : Store) : Prop :=
  nodes st = nodes_of (journal st) /\
  edges st = edges_of (journal st) /\
  journal_ok (journal st).

Definition grows (st st' : Store) : Prop :=
  exists k, journal st' = journal st ++ k.

Definition file_id (f : TFile) : string := replace_md_ext (path f).

(** The edge pushed for an outgoing link of [file], and the one pushed
    for a note [other] that links to [file]. *)
Definition out_edge (file : TFile) (o : TFile * EdgeType) : GraphEdge :=
  {| source := file_id file; target := file_id (fst o); type := snd o |}.

Definition in_edge (file other : TFile) : GraphEdge :=
  {| source := file_id other; target := file_id file; type := wiki |}.

(** The notes the incoming scan of [file] acts on. *)
Definition in_sources (app : App) (file : TFile) : list TFile :=
  List.filter (fun o => negb (String.eqb (path o) (path file)) && links_to app o file)
              (getMarkdownFiles app).

Definition has_id (i : string) (fs : list TFile) : bool :=
  existsb (fun f => String.eqb (file_id f) i) fs.

(** A loop that adds a node and pushes an edge per element. *)
Definition link_all {A} (nf : A -> TFile) (mk : A -> GraphEdge) (l : list A)
    (st : Store) : Store :=
  fold_left (fun st x => pushEdge (mk x) (addNode (nf x) st)) l st.

End Graph.

(** ** Example vaults, runtimes and servers *)

Module Fixtures.
Import Js Obsidian Platform Utils Server.

(** A runtime for running the model on examples: identity case folding
    and trimming, no JSON, and a link pattern that compiles but finds no
    match (so backlink contexts are empty). *)
Definition plain_runtime : Runtime :=
  {| JSON_parse := fun _ => None;
     JSON_stringify := fun _ => "{}";
     decodeURIComponent := fun s => Some s;
     toLowerCase := fun s => s;
     trim := fun s => s;
     link_regexp := fun _ => Some (fun _ => None) |}.

Definition note (name : string) : TFile :=
  {| path := (name ++ ".md")%string; basename := name; extension := "md";
     parent := None |}.

Definition wikilink (name : string) : LinkCache :=
  {| link := name; original := ("[[" ++ name ++ "]]")%string |}.

Definition links_only (ls : list LinkCache) : CachedMetadata :=
  {| links := Some ls; embeds := None; tags := None; frontmatter := None |}.

(** A vault given by its notes and, per note name, the names it links
    to; link text resolves by note name. *)
Definition vault_of (names : list string) (out : string -> list string) : App :=
  {| getMarkdownFiles := map note names;
     getAbstractFileByPath := fun p =>
       if existsb (fun n => String.eqb (n ++ ".md")%string p) names
       then Some (AFile (note (replace_md_ext p))) else None;
     vault_read := fun f =>
       Some (String.concat " " (map original (map wikilink (out (basename f)))));
     getName := "vault";
     getFileCache := fun f =>
       if existsb (String.eqb (basename f)) names
       then Some (links_only (map wikilink (out (basename f)))) else None;
     getFirstLinkpathDest := fun l _ =>
       if existsb (String.eqb l) names then Some (note l) else None |}.

(** The two-note cycle A -> B -> A. *)
Definition cycle_vault : App :=
  vault_of ["A"; "B"]
           (fun n => if String.eqb n "A" then ["B"]
                     else if String.eqb n "B" then ["A"] else []).

(** Three notes that all link to [A]. *)
Definition trio_vault : App := vault_of ["A"; "B"; "C"] (fun _ => ["A"]).

(** One note that links to itself. *)
Definition self_vault : App :=
  vault_of ["S"] (fun n => if String.eqb n "S" then ["S"] else []).

(** Two notes that link to each other and carry inline tags; reading
    [B] fails. *)
Definition patchy_vault : App :=
  {| getMarkdownFiles := [note "A"; note "B"];
     getAbstractFileByPath := getAbstractFileByPath cycle_vault;
     vault_read := fun f =>
       if String.eqb (path f) "A.md" then Some "[[B]] #work #home" else None;
     getName := "vault";
     getFileCache := fun f =>
       if String.eqb (path f) "A.md"
       then Some {| links := Some [wikilink "B"]; embeds := None;
                    tags := Some [ {| tag := "#work" |}; {| tag := "#home" |} ];
                    frontmatter := None |}
       else if String.eqb (path f) "B.md"
       then Some {| links := Some [wikilink "A"]; embeds := None;
                    tags := Some [ {| tag := "#work" |} ];
                    frontmatter := None |}
       else None;
     getFirstLinkpathDest := getFirstLinkpathDest cycle_vault |}.

(** The same notes as [cycle_vault], but reading [B] fails. *)
Definition flaky_vault : App :=
  {| getMarkdownFiles := getMarkdownFiles cycle_vault;
     getAbstractFileByPath := getAbstractFileByPath cycle_vault;
     vault_read := fun f => if String.eqb (path f) "B.md" then None
                            else vault_read cycle_vault f;
     getName := getName cycle_vault;
     getFileCache := getFileCache cycle_vault;
     getFirstLinkpathDest := getFirstLinkpathDest cycle_vault |}.

Definition ok_response : Response :=
  {| status := 200; payload := JObj [("ok", JBool true); ("data", JNull)] |}.

(** Three routes: one that answers at once, one that never answers, and
    one that answers after a second but never settles. *)
Definition exact_route (m p : string) (h : RouteHandler) : Route :=
  {| method := m;
     pattern := fun q => if String.eqb q p then Some [] else None;
     paramNames := [];
     handler := h |}.

Definition quick : RouteHandler :=
  fun _ _ _ => {| sends := [(5, ok_response)]; settle := Some (6, Resolves) |}.

Definition stuck : RouteHandler :=
  fun _ _ _ => {| sends := []; settle := None |}.

Definition lingering : RouteHandler :=
  fun _ _ _ => {| sends := [(1000, ok_response)]; settle := None |}.

Definition demo_server : PetraServer :=
  {| app := cycle_vault;
     routes := [exact_route "POST" "/quick" quick;
                exact_route "POST" "/stuck" stuck;
                exact_route "POST" "/lingering" lingering];
     authToken := Some "s3cret" |}.

Definition request (m p : string) (auth : option string) (cs : list string) : Request :=
  {| req_method := m; pathname := p; authorization := auth;
     body := {| chunks := cs; ending := EndOfStream |} |}.

(** A chunk of [n] bytes. *)
Fixpoint filler (n : nat) : string :=
  match n with
  | O => EmptyString
  | S n' => String "a" (filler n')
  end.

(** A chunk of exactly [MAX_BODY_SIZE] bytes. *)
Definition ten_MiB : string := filler (Z.to_nat MAX_BODY_SIZE).

(** The nodes and edges of [cycle_vault]. *)
Definition node_A : Graph.GraphNode :=
  {| Graph.id := "A"; Graph.title := "A"; Graph.group := "" |}.
Definition node_B : Graph.GraphNode :=
  {| Graph.id := "B"; Graph.title := "B"; Graph.group := "" |}.
Definition edge_AB : Graph.GraphEdge :=
  {| Graph.source := "A"; Graph.target := "B"; Graph.type := Graph.wiki |}.
Definition edge_BA : Graph.GraphEdge :=
  {| Graph.source := "B"; Graph.target := "A"; Graph.type := Graph.wiki |}.

End Fixtures.

(** ** server.ts: the connection callback *)

Module Dispatch.
Import Js Obsidian Platform Utils Server.

Definition allowedOrigins : list string :=
  ["app://obsidian.md"; "http://localhost"; "http://127.0.0.1"].

(** The value of [Access-Control-Allow-Origin], if the callback sets the
    CORS headers: [origin && allowedOrigins.some(a => origin.startsWith(a))]. *)
Definition cors_origin (origin : option string) : option string :=
  match origin with
  | Some (String c o) =>
      if existsb (fun allowed => startsWith (String c o) allowed) allowedOrigins
      then Some (String c o) else None
  | _ => None
  end.

(** What the callback of [http.createServer] does with a request: the
    preflight answer ([writeHead(204); end()]), or the response object
    after [handleRequest] and its [catch]. *)
Inductive Exchange : Type :=
| Preflight (allowOrigin : option string)
| Dispatched (allowOrigin : option string) (res : Res).

(** An [http.IncomingMessage] as it arrives, its target not yet
    parsed. *)
Record Incoming : Type := {
  inc_method : string;
  inc_url : string;
  inc_origin : option string;
  inc_authorization : option string;
  inc_body : BodyStream
}.

(** [req.url || "/"] *)
Definition target (inc : Incoming) : string :=
  match inc_url inc with
  | EmptyString => "/"
  | u => u
  end.

(** The request as [handleRequest] sees it once the target has been
    parsed to the pathname [p]. *)
Definition parsed_request (inc : Incoming) (p : string) : Request :=
  {| req_method := inc_method inc;
     pathname := p;
     authorization := inc_authorization inc;
     body := inc_body inc |}.

Section Callback.

(** [String(err)] for the error that a message stands for. *)
Variable describe : string -> string.

(** [new URL(target, base).pathname] for the server's base; [None] when
    the constructor throws, as it does for the target [//]. *)
Variable URL_pathname : string -> option string.

Variable rt : Runtime.
Variable srv : PetraServer.

(** [handleRequest] as a whole: its first statement parses the target
    and throws, before anything else is looked at, when that fails. *)
Definition handle (inc : Incoming) (res : Res) : Completion :=
  match URL_pathname (target inc) with
  | None => Failed res "Invalid URL"
  | Some p => handleRequest rt srv (parsed_request inc p) res
  end.

(** The callback of [http.createServer].  A [sendError] that throws
    inside the [catch] leaves the response as it is. *)
Definition on_request (inc : Incoming) : Exchange :=
  let allow := cors_origin (inc_origin inc) in
  if String.eqb (inc_method inc) "OPTIONS" then Preflight allow
  else
    match handle inc fresh_res with
    | Returned res => Dispatched allow res
    | Failed res msg =>
        Dispatched allow
          match sendError res 500 "INTERNAL_ERROR" (describe msg) with
          | Ok res' => res'
          | Throw _ => res
          end
    end.

End Callback.

(** *** Vocabulary *)

Definition unauthorized_response : Response :=
  {| status := 401; payload := error_body "AUTH_REQUIRED" "Authorization required" |}.

Definition not_found_response (method_ path_ : string) : Response :=
  {| status := 404;
     payload := error_body "NOT_FOUND"
                  ("Route not found: " ++ method_ ++ " " ++ path_)%string |}.

(** The route answers to the method and the path. *)
Definition route_matches (r : Route) (method_ path_ : string) : bool :=
  String.eqb (method r) method_ &&
  match pattern r path_ with Some _ => true | None => false end.

Definition has_space (s : string) : Prop := In " "%char (list_ascii_of_string s).

(** The handler resolved before the deadline and had sent nothing by
    then. *)
Definition silent_success (run : HandlerRun) : Prop :=
  exists t, settle run = Some (t, Resolves) /\ t < ROUTE_TIMEOUT /\
            forall s, In s (sends run) -> t < fst s.

Definition internal_error_response (message : string) : Response :=
  {| status := 500; payload := error_body "INTERNAL_ERROR" message |}.

(** A pathname function for examples: the target itself, except that
    [//] does not parse. *)
Definition sample_pathname (t : string) : option string :=
  if String.eqb t "//" then None else Some t.

Definition incoming (m u : string) (auth : option string) (cs : list string) : Incoming :=
  {| inc_method := m; inc_url := u; inc_origin := None; inc_authorization := auth;
     inc_body := {| chunks := cs; ending := EndOfStream |} |}.

End Dispatch.

(** ** Vocabulary for the statements about utils.ts *)

Module UtilsFacts.
Import Js Obsidian Platform Utils.

(** The metadata [fileToNoteInfo] works from:
    [cache ?? app.metadataCache.getFileCache(file)]. *)
Definition metadata_of (app : App) (file : TFile) (cache : option CachedMetadata)
    : option CachedMetadata :=
  match cache with Some c => Some c | None => getFileCache app file end.

(** The tags declared in the frontmatter, and the names of the inline
    tags (without their [#]), in document order. *)
Definition declared_tags (m : option CachedMetadata) : list string :=
  match m with
  | Some c => match frontmatter c with
              | Some f => match fm_tags f with Some ts => ts | None => [] end
              | None => []
              end
  | None => []
  end.

Definition inline_tags (m : option CachedMetadata) : list string :=
  match m with
  | Some c => match tags c with
              | Some ts => map (fun t => tag_name (tag t)) ts
              | None => []
              end
  | None => []
  end.

End UtilsFacts.

(** ** routes/tags.ts: the notes of a tag *)

Module TagNotes.
Import Js Obsidian Platform Utils Routes.

Section Handler.
Variable rt : Runtime.
Variable app : App.

(** The [tags] array built for one file: the frontmatter tags, then the
    inline tags not yet listed. *)
Definition collect_tags (cache : option CachedMetadata) : list string :=
  let tags0 := match cache with
               | Some c => match frontmatter c with
                           | Some f => match fm_tags f with Some ts => ts | None => [] end
                           | None => []
                           end
               | None => []
               end in
  match cache with
  | Some c => match tags c with
              | Some ts => fold_left push_new_tag ts tags0
              | None => tags0
              end
  | None => tags0
  end.

Definition hasMatch (exact : bool) (searchTag : string) (tags : list string) : bool :=
  existsb (fun t => let normalized := toLowerCase rt t in
                    if exact then String.eqb normalized searchTag
                    else includes normalized searchTag) tags.

(** The loop over the files; [limit] is the result of [parseInt], [None]
    for [NaN] (every comparison with it is false). *)
Fixpoint notes_loop (limit : option Z) (exact : bool) (searchTag : string)
    (files : list TFile) (notes : list NoteInfo) : list NoteInfo :=
  match files with
  | [] => notes
  | file :: rest =>
      if match limit with Some l => Z.of_nat (length notes) >=? l | None => false end
      then notes
      else
        let cache := getFileCache app file in
        if hasMatch exact searchTag (collect_tags cache)
        then notes_loop limit exact searchTag rest
                        (notes ++ [fileToNoteInfo app file cache])
        else notes_loop limit exact searchTag rest notes
  end.

(** [GET /tags/:tag/notes], from the decoded parameter and the parsed
    query string ([exact] and [limit]). *)
Definition notes_with_tag (tag_param : string) (exact : bool) (limit : option Z)
    : Reply (list NoteInfo) :=
  ReplyJson (notes_loop limit exact (toLowerCase rt tag_param) (getMarkdownFiles app) []).

(** *** Vocabulary *)

(** The note as the routes report it. *)
Definition info_of (file : TFile) : NoteInfo :=
  fileToNoteInfo app file (getFileCache app file).

(** One of the tags the note is reported with matches the request. *)
Definition tagged (exact : bool) (tag_param : string) (file : TFile) : bool :=
  hasMatch exact (toLowerCase rt tag_param) (ni_tags (info_of file)).

Definition capped {A} (limit : option Z) (l : list A) : list A :=
  match limit with
  | Some k => firstn (Z.to_nat k) l
  | None => l
  end.

End Handler.

(** Every mention of a tag in the vault: per file, the frontmatter tags
    and then the inline tags, repetitions included. *)
Definition tag_mentions (app : App) : list string :=
  flat_map (fun file =>
              match getFileCache app file with
              | None => []
              | Some c => UtilsFacts.declared_tags (Some c) ++ UtilsFacts.inline_tags (Some c)
              end)
           (getMarkdownFiles app).

Definition occurrences (t : string) (l : list string) : Z :=
  Z.of_nat (count_occ string_dec l t).

End TagNotes.

(** ** Vocabulary for the statements about search.ts *)

Module SearchFacts.
Import Js Obsidian Platform Utils Routes Search.

Definition limit_of (body : SearchBody) : Num :=
  match limit body with Some l => l | None => Finite (inject_Z 20) end.

Definition sensitive (body : SearchBody) : bool :=
  match caseSensitive body with Some b => b | None => false end.

(** The text that is looked for: the query, lower-cased unless the
    search is case sensitive. *)
Definition needle (rt : Runtime) (body : SearchBody) : string :=
  match query body with
  | Some q => if sensitive body then q else toLowerCase rt q
  | None => ""
  end.

(** The files the search looks at: all of them, or those under the
    folder. *)
Definition in_scope (body : SearchBody) (file : TFile) : bool :=
  match folder body with
  | Some (String c f) => startsWith (path file) (String c f)
  | _ => true
  end.

Definition match_count (r : SearchResult) : nat := length (matches r).

(** What one file contributes: its result if it can be read and has a
    match, nothing otherwise. *)
Definition candidate (rt : Runtime) (app : App) (body : SearchBody) (file : TFile)
    : list SearchResult :=
  match vault_read app file with
  | None => []
  | Some content =>
      match note_matches rt (sensitive body) (needle rt body) content
                         (getFileCache app file) with
      | [] => []
      | ms => [ {| note := fileToNoteInfo app file (getFileCache app file);
                   matches := ms |} ]
      end
  end.

(** The results that [files] hold for the search, in the order of the
    files. *)
Definition found (rt : Runtime) (app : App) (body : SearchBody) (files : list TFile)
    : list SearchResult :=
  flat_map (candidate rt app body) (List.filter (in_scope body) files).

(** The number of results at which the scan stops collecting: the least
    whole number that is not below the limit; no number for a limit of
    infinity, and [0] for one that nothing is below. *)
Definition cap_of (x : Num) : option nat :=
  match x with
  | Finite q => Some (Z.to_nat (Qceiling q))
  | PosInf => None
  | NegInf => Some 0%nat
  | NaN => Some 0%nat
  end.

Definition take_cap {A} (x : Num) (l : list A) : list A :=
  match cap_of x with
  | Some k => firstn k l
  | None => l
  end.

(** [n] results are within the limit, cut to a whole number. *)
Definition within (x : Num) (n : nat) : Prop :=
  match x with
  | Finite q => Z.of_nat n <= Z.max 0 (to_integer q)
  | PosInf => True
  | NegInf => n = 0%nat
  | NaN => n = 0%nat
  end.

(** The limit is not a fraction. *)
Definition whole (x : Num) : Prop :=
  match x with
  | Finite q => Qeq (inject_Z (Qfloor q)) q
  | _ => True
  end.

(** The limit leaves room for [n] results. *)
Definition fits (n : nat) (x : Num) : Prop :=
  match x with
  | Finite q => Z.of_nat n <= to_integer q
  | PosInf => True
  | NegInf => False
  | NaN => False
  end.

(** The result has a match and is what the search computes from a file
    of the vault that is in scope and could be read. *)
Definition well_found (rt : Runtime) (app : App) (body : SearchBody) (r : SearchResult)
    : Prop :=
  matches r <> [] /\
  exists file content,
    In file (getMarkdownFiles app) /\ in_scope body file = true /\
    vault_read app file = Some content /\
    note r = fileToNoteInfo app file (getFileCache app file) /\
    matches r = note_matches rt (sensitive body) (needle rt body) content
                             (getFileCache app file).

End SearchFacts.

(** ** Vocabulary for further statements about the graph routes *)

Module GraphFacts.
Import Js Obsidian Graph.

(** Some link of the note [f] resolves to the file [resolved]. *)
Definition resolves (app : App) (f resolved : TFile) : Prop :=
  exists cache ls l,
    getFileCache app f = Some cache /\ links cache = Some ls /\ In l ls /\
    getFirstLinkpathDest app (link l) (path f) = Some resolved.

Definition link_from (f resolved : TFile) : GraphEdge :=
  {| source := file_id f; target := file_id resolved; type := wiki |}.

(** The edges for the links of [file] that resolve, in the order of the
    links. *)
Definition link_edges (app : App) (file : TFile) : list GraphEdge :=
  match getFileCache app file with
  | Some cache =>
      match links cache with
      | Some ls =>
          flat_map (fun l =>
            match getFirstLinkpathDest app (link l) (path file) with
            | Some resolved => [link_from file resolved]
            | None => []
            end) ls
      | None => []
      end
  | None => []
  end.

(** The edge stands for a link that resolves: a note [f] of the vault
    has a link that resolves to [resolved], and the edge goes from the
    one to the other. *)
Definition link_edge (app : App) (e : GraphEdge) : Prop :=
  exists f resolved,
    In f (getMarkdownFiles app) /\ resolves app f resolved /\ e = link_from f resolved.

(** The node describes a note of the vault, or a file that a link of a
    note of the vault resolves to. *)
Definition known_node (app : App) (n : GraphNode) : Prop :=
  exists file,
    n = file_node file /\
    (In file (getMarkdownFiles app) \/
     exists f, In f (getMarkdownFiles app) /\ resolves app f file).

Definition sound (app : App) (st : Store) : Prop :=
  List.NoDup (map id (nodes st)) /\
  (forall n, In n (nodes st) -> known_node app n) /\
  (forall e, In e (edges st) -> link_edge app e).

Definition empty_result : GraphResult := {| r_nodes := []; r_edges := [] |}.

Definition known_direction (dir : string) : bool :=
  String.eqb dir "in" || String.eqb dir "out" || String.eqb dir "both".

End GraphFacts.

(** ** graph.ts: the neighbours of a note *)

Module Neighbors.
Import Js Obsidian Routes Graph.

Inductive Side : Type := side_in | side_out.

Record Neighbor : Type := { nb_path : string; nb_title : string; nb_direction : Side }.

Definition neighbor_of (file : TFile) (side : Side) : Neighbor :=
  {| nb_path := replace_md_ext (path file);
     nb_title := basename file;
     nb_direction := side |}.

Section Handler.
Variable app : App.

(** The handler's locals: the [neighbors] array and the [seen] set. *)
Definition Acc : Type := (list Neighbor * gset string)%type.

(** The body of the loop over the links of the centre. *)
Definition out_link (centerFile : TFile) (st : Acc) (l : LinkCache) : Acc :=
  match getFirstLinkpathDest app (link l) (path centerFile) with
  | Some resolved =>
      if bool_decide (path resolved ∈ snd st) then st
      else (fst st ++ [neighbor_of resolved side_out], {[ path resolved ]} ∪ snd st)
  | None => st
  end.

(** The body of the loop over the files; the inner loop acts on the
    first link that resolves to the centre and breaks. *)
Definition in_file (centerFile : TFile) (st : Acc) (file : TFile) : Acc :=
  if String.eqb (path file) (path centerFile) || bool_decide (path file ∈ snd st) then st
  else if links_to app file centerFile
       then (fst st ++ [neighbor_of file side_in], {[ path file ]} ∪ snd st)
       else st.

(** [GET /graph/neighbors/:path], from the decoded parameter and the
    [direction] of the query string ([None] when absent). *)
Definition neighbors (params_path : string) (direction : option string)
    : Reply (list Neighbor) :=
  let direction := match direction with
                   | Some (String c d) => String c d
                   | _ => "both"
                   end in
  let normalizedPath := if endsWith params_path ".md" then params_path
                        else (params_path ++ ".md")%string in
  match getAbstractFileByPath app normalizedPath with
  | Some (AFile centerFile) =>
      let st : Acc := ([], ∅) in
      let st := if wants_out direction
                then match getFileCache app centerFile with
                     | Some cache =>
                         match links cache with
                         | Some ls => fold_left (out_link centerFile) ls st
                         | None => st
                         end
                     | None => st
                     end
                else st in
      let st := if wants_in direction
                then fold_left (in_file centerFile) (getMarkdownFiles app) st
                else st in
      ReplyJson (fst st)
  | _ => ReplyError 404 "NOT_FOUND" ("Note not found: " ++ params_path)%string
  end.

(** *** Vocabulary *)

Definition direction_of (direction : option string) : string :=
  match direction with
  | Some (String c d) => String c d
  | _ => "both"
  end.

Definition center_path (params_path : string) : string :=
  if endsWith params_path ".md" then params_path else (params_path ++ ".md")%string.

(** The files behind a list of neighbours, with their sides. *)
Definition listed (fs : list (TFile * Side)) : list Neighbor :=
  map (fun x => neighbor_of (fst x) (snd x)) fs.

Definition paths_of (fs : list (TFile * Side)) : list string :=
  map (fun x => path (fst x)) fs.

(** Why a file is listed on a side. *)
Definition justified (centerFile : TFile) (x : TFile * Side) : Prop :=
  match snd x with
  | side_out => In (fst x, wiki) (getOutlinks app centerFile)
  | side_in => In (fst x) (getMarkdownFiles app) /\
               path (fst x) <> path centerFile /\
               links_to app (fst x) centerFile = true
  end.

(** The accumulator holds the neighbours of [fs], and has seen exactly
    their paths. *)
Definition tracks (st : Acc) (fs : list (TFile * Side)) : Prop :=
  fst st = listed fs /\
  List.NoDup (paths_of fs) /\
  forall p, p ∈ snd st <-> In p (paths_of fs).

End Handler.
End Neighbors.

(** ** Vocabulary for further statements about the link routes *)

Module LinksFacts.
Import Js Obsidian Platform Utils Routes Links.

(** [file] is another note than the target, one of its links or embeds
    resolves to the target, and it can be read. *)
Definition refers (app : App) (targetPath : string) (file : TFile) : bool :=
  negb (String.eqb (path file) targetPath) &&
  existsb (resolves_to app file targetPath) (all_links (getFileCache app file)) &&
  readable app file.

(** The links (not the embeds) of a note. *)
Definition links_of (c : option CachedMetadata) : list LinkCache :=
  match c with
  | Some c => match links c with Some ls => ls | None => [] end
  | None => []
  end.

(** The entry reports the link text [t] as a missing note. *)
Definition missing (t : string) (e : LinkInfo) : Prop :=
  li_path e = t /\ li_title e = t /\ li_exists e = false.

(** Every link text seen so far that does not resolve has its entry. *)
Definition reported (app : App) (sourcePath : string)
    (st : list LinkInfo * gset string) : Prop :=
  forall t, t ∈ snd st -> getFirstLinkpathDest app t sourcePath = None ->
            exists e, In e (fst st) /\ missing t e.

(** An entry that reports a missing note stems from an unresolved link
    among [srcs]. *)
Definition missing_from (app : App) (sourcePath : string) (srcs : list LinkCache)
    (e : LinkInfo) : Prop :=
  exists l, In l srcs /\ getFirstLinkpathDest app (link l) sourcePath = None /\
            missing (link l) e.

End LinksFacts.

(** ** utils.ts (parseFrontmatter) and routes/notes.ts *)

Module Notes.
Import Js Obsidian Platform Utils Routes.

(** A frontmatter value as far as the routes produce and render it: a
    string, or an array of strings. *)
Inductive FmValue : Type :=
| FmStr (s : string)
| FmList (items : list string).

(** A frontmatter object, as its entries in [Object.entries] order
    (keys that are not array indices keep their insertion order). *)
Definition Fm : Type := list (string * FmValue).

(** [fm[k] = v]: an existing key keeps its place. *)
Fixpoint fm_set (k : string) (v : FmValue) (fm : Fm) : Fm :=
  match fm with
  | [] => [(k, v)]
  | (k', v') :: rest =>
      if String.eqb k' k then (k', v) :: rest else (k', v') :: fm_set k v rest
  end.

Fixpoint fm_get (k : string) (fm : Fm) : option FmValue :=
  match fm with
  | [] => None
  | (k', v) :: rest => if String.eqb k' k then Some v else fm_get k rest
  end.

(** [{ ...base, ...extra }] *)
Definition spread (base extra : Fm) : Fm :=
  fold_left (fun fm e => fm_set (fst e) (snd e) fm) extra base.

(** The text ["\n---\n"] that closes the frontmatter. *)
Definition fm_close : string := String newline Search.frontmatter_fence.

(** [value.slice(1, -1)] *)
Definition slice_inner (s : string) : string := substring 1 (String.length s - 2) s.

Section Parse.
Variable rt : Runtime.

(** The body of the loop over the lines of the YAML block. *)
Definition parse_line (fm : Fm) (line : string) : Fm :=
  match String.index 0 ":" line with
  | None => fm
  | Some colonIdx =>
      let key := trim rt (substring 0 colonIdx line) in
      let value := trim rt (slice_from (colonIdx + 1) line) in
      if startsWith value "[" && endsWith value "]"
      then fm_set key (FmList (map (trim rt) (split ","%char (slice_inner value)))) fm
      else match value with
           | EmptyString => fm
           | _ => fm_set key (FmStr value) fm
           end
  end.

(** The match of the frontmatter pattern: the text starts with the
    fence; the first, lazy group ends at the first closing text after
    it; the second group is all that follows. *)
Definition parseFrontmatter (content : string) : Fm * string :=
  if startsWith content Search.frontmatter_fence then
    let rest := slice_from 4 content in
    match String.index 0 fm_close rest with
    | Some k =>
        (fold_left parse_line (split newline (substring 0 k rest)) [],
         slice_from (k + 5) rest)
    | None => ([], content)
    end
  else ([], content).

Record Note : Type := {
  n_path : string;
  n_title : FmValue;
  n_content : string;
  n_frontmatter : Fm;
  n_raw : string
}.

(** [fileToNote], from the file and the text read from it. *)
Definition fileToNote (file : TFile) (raw : string) : Note :=
  let parsed := parseFrontmatter raw in
  {| n_path := replace_md_ext (path file);
     n_title := match fm_get "title" (fst parsed) with
                | Some (FmStr (String c s)) => FmStr (String c s)
                | Some (FmList items) => FmList items
                | _ => FmStr (basename file)
                end;
     n_content := snd parsed;
     n_frontmatter := fst parsed;
     n_raw := raw |}.

End Parse.

(** [`${k}: [${v.join(", ")}]`] or [`${k}: ${String(v)}`] *)
Definition yaml_line (e : string * FmValue) : string :=
  match snd e with
  | FmList items => (fst e ++ ": [" ++ String.concat ", " items ++ "]")%string
  | FmStr s => (fst e ++ ": " ++ s)%string
  end.

(** [`---\n${yamlLines.join("\n")}\n---\n${content}`] *)
Definition render (fm : Fm) (content : string) : string :=
  (Search.frontmatter_fence
     ++ String.concat (String newline "") (map yaml_line fm)
     ++ fm_close ++ content)%string.

Record CreateBody : Type := {
  cb_path : option string;
  cb_content : option string;
  cb_frontmatter : option Fm
}.

Record UpdateBody : Type := {
  ub_content : option string;
  ub_append : option string;
  ub_frontmatter : option Fm
}.

(** What a writing handler asks of the vault, or the error it sends. *)
Inductive Write : Type :=
| WriteError (status : Z) (code message : string)
| WriteThrow (msg : string)
| WriteFile (target : string) (text : string).

Section Handlers.
Variable rt : Runtime.
Variable app : App.
Variable now : string.     (* [new Date().toISOString()] *)

(** [POST /notes] for a body that is an object, up to the call of
    [app.vault.create]; the creation of the parent folder, which comes
    before it and does not change what is written, is left out. *)
Definition create_note (body : CreateBody) : Write :=
  match cb_path body with
  | Some (String c p) =>
      let normalizedPath := normalizePath (String c p) in
      match getAbstractFileByPath app normalizedPath with
      | Some _ =>
          WriteError 409 "ALREADY_EXISTS" ("Note already exists: " ++ String c p)%string
      | None =>
          let content := match cb_content body with Some s => s | None => "" end in
          let frontmatter := match cb_frontmatter body with Some f => f | None => [] end in
          let fm := spread [("created", FmStr now)] frontmatter in
          WriteFile normalizedPath (render fm content)
      end
  | _ => WriteError 400 "INVALID_PATH" "Path is required"
  end.

(** [PUT /notes/:path] for a body that is an object, up to the call
    of [app.vault.modify]. *)
Definition update_note (params_path : string) (body : UpdateBody) : Write :=
  match getAbstractFileByPath app (normalizePath params_path) with
  | Some (AFile file) =>
      match vault_read app file with
      | None => WriteThrow "read failed"
      | Some existing =>
          let parsed := parseFrontmatter rt existing in
          let newBody := match ub_content body, ub_append body with
                         | Some content, _ => content
                         | None, Some append =>
                             (snd parsed ++ String newline "" ++ append)%string
                         | None, None => snd parsed
                         end in
          let newFm := fm_set "modified" (FmStr now)
                         (spread (fst parsed)
                                 (match ub_frontmatter body with
                                  | Some f => f
                                  | None => []
                                  end)) in
          WriteFile (path file) (render newFm newBody)
      end
  | _ => WriteError 404 "NOT_FOUND" ("Note not found: " ++ params_path)%string
  end.

(** The loop of [GET /notes]; [limit] is the result of [parseInt]. *)
Fixpoint list_loop (limit : option Z) (tag : option string) (files : list TFile)
    (notes : list NoteInfo) : list NoteInfo :=
  match files with
  | [] => notes
  | file :: rest =>
      if match limit with Some l => Z.of_nat (length notes) >=? l | None => false end
      then notes
      else
        let info := fileToNoteInfo app file None in
        match tag with
        | Some (String c t) =>
            if negb (string_in (String c t) (ni_tags info))
            then list_loop limit tag rest notes
            else list_loop limit tag rest (notes ++ [info])
        | _ => list_loop limit tag rest (notes ++ [info])
        end
  end.

(** [GET /notes], from the parsed query string. *)
Definition list_notes (folder : option string) (limit : option Z) (tag : option string)
    : Reply (list NoteInfo) :=
  let filtered := match folder with
                  | Some (String c f) =>
                      List.filter (fun file => startsWith (path file) (String c f))
                                  (getMarkdownFiles app)
                  | _ => getMarkdownFiles app
                  end in
  ReplyJson (list_loop limit tag filtered []).

End Handlers.

(** *** Vocabulary *)

Definition no_newline (s : string) : Prop := ~ In newline (list_ascii_of_string s).

Definition plain_value (v : FmValue) : Prop :=
  match v with
  | FmStr s => no_newline s
  | FmList items => forall i, In i items -> no_newline i
  end.

(** No key and no value of the frontmatter contains a line break. *)
Definition plain (fm : Fm) : Prop :=
  forall k v, In (k, v) fm -> no_newline k /\ plain_value v.

(** A line with a colon and without a line break. *)
Definition entry_line (l : string) : Prop :=
  no_newline l /\ In ":"%char (list_ascii_of_string l).

(** The body that [PUT /notes/:path] writes, from the body it found. *)
Definition updated_body (body : UpdateBody) (old : string) : string :=
  match ub_content body, ub_append body with
  | Some content, _ => content
  | None, Some append => (old ++ String newline "" ++ append)%string
  | None, None => old
  end.

(** The files [GET /notes] looks at, and the tag test it applies. *)
Definition in_folder (folder : option string) (file : TFile) : bool :=
  match folder with
  | Some (String c f) => startsWith (path file) (String c f)
  | _ => true
  end.

Definition has_tag (tag : option string) (info : NoteInfo) : bool :=
  match tag with
  | Some (String c t) => string_in (String c t) (ni_tags info)
  | _ => true
  end.

End Notes.

(** ** settings.ts: the token shown and generated by the settings tab *)

Module Settings.
Import Js.

(** [token.slice(-4)] *)
Definition slice_last (k : nat) (s : string) : string :=
  substring (String.length s - k) k s.

Definition maskToken (token : string) : string :=
  if (String.length token <=? 8)%nat then "****"
  else (substring 0 4 token ++ "..." ++ slice_last 4 token)%string.

(** A character of the class [[A-Za-z0-9_-]]. *)
Definition safe_char (c : ascii) : bool :=
  let n := nat_of_ascii c in
  ((65 <=? n) && (n <=? 90) || (97 <=? n) && (n <=? 122) || (48 <=? n) && (n <=? 57)
   || (n =? 95) || (n =? 45))%nat.

(** [/^[A-Za-z0-9_-]+$/.test(token)] *)
Definition safeChars (token : string) : bool :=
  match token with
  | EmptyString => false
  | _ => forallb safe_char (list_ascii_of_string token)
  end.

Record Validation : Type := { valid : bool; message : string }.

Section Validate.
Variable show : nat -> string.      (* a number inside a template literal *)

Definition validateTokenFormat (token : string) : Validation :=
  if (String.length token <? 20)%nat then
    {| valid := false;
       message := ("Token too short (" ++ show (String.length token)
                   ++ " chars, minimum 20)")%string |}
  else if negb (safeChars token) then
    {| valid := false; message := "Invalid characters detected" |}
  else
    {| valid := true;
       message := ("Valid (" ++ show (String.length token) ++ " characters)")%string |}.

End Validate.

(** [Buffer.prototype.toString("base64url")]: the URL-safe alphabet,
    six bits per character, no padding. *)
Definition base64url_alphabet : list ascii :=
  list_ascii_of_string
    "ABCDEFGHIJKLMNOPQRSTUVWXYZabcdefghijklmnopqrstuvwxyz0123456789-_".

Definition sextet (n : N) (shift : N) : ascii :=
  nth (N.to_nat (N.land (N.shiftr n shift) 63)) base64url_alphabet "A"%char.

Fixpoint base64url (bytes : list byte) : string :=
  match bytes with
  | [] => ""
  | [a] =>
      let n := N.shiftl (Byte.to_N a) 16 in
      String (sextet n 18) (String (sextet n 12) "")
  | [a; b] =>
      let n := N.lor (N.shiftl (Byte.to_N a) 16) (N.shiftl (Byte.to_N b) 8) in
      String (sextet n 18) (String (sextet n 12) (String (sextet n 6) ""))
  | a :: b :: c :: rest =>
      let n := N.lor (N.lor (N.shiftl (Byte.to_N a) 16) (N.shiftl (Byte.to_N b) 8))
                     (Byte.to_N c) in
      String (sextet n 18) (String (sextet n 12) (String (sextet n 6)
        (String (sextet n 0) (base64url rest))))
  end.

(** [regenerateToken], from the 32 bytes that [randomBytes(32)] draws. *)
Definition regenerateToken (random : list byte) : string := base64url random.

(** The header a client sends for a token. *)
Definition bearer (token : string) : string := ("Bearer " ++ token)%string.

End Settings.

(** ** server.ts: registering a route *)

Module Routing.
Import Js Obsidian Platform Utils Server.

(** A compiled path pattern: literal characters and parameter groups
    (each group is the pattern text for one or more characters other
    than a slash). *)
Inductive Token : Type :=
| Lit (c : ascii)
| Param.

(** A character of the class [\w]. *)
Definition word_char (c : ascii) : bool :=
  let n := nat_of_ascii c in
  ((65 <=? n) && (n <=? 90) || (97 <=? n) && (n <=? 122) || (48 <=? n) && (n <=? 57)
   || (n =? 95))%nat.

(** What is emitted for a colon and the word characters after it: a
    colon without a name stays a literal colon. *)
Definition flush (name : string) : list Token * list string :=
  match name with
  | EmptyString => ([Lit ":"%char], [])
  | _ => ([Param], [name])
  end.

Definition emit (a b : list Token * list string) : list Token * list string :=
  (fst a ++ fst b, snd a ++ snd b).

(** The replacement of every colon-and-name in the path, left to right;
    [cur] is the name being read after a colon, if any. *)
Fixpoint scan (path : string) (cur : option string) : list Token * list string :=
  match path with
  | EmptyString => match cur with Some name => flush name | None => ([], []) end
  | String c rest =>
      match cur with
      | Some name =>
          if word_char c then scan rest (Some (name ++ String c "")%string)
          else if Ascii.eqb c ":" then emit (flush name) (scan rest (Some ""))
          else emit (flush name) (emit ([Lit c], []) (scan rest None))
      | None =>
          if Ascii.eqb c ":" then scan rest (Some "")
          else emit ([Lit c], []) (scan rest None)
      end
  end.

(** The characters with a meaning of their own in a regular
    expression.  A path with one of them among its literals is outside
    what [matches] below describes; no route of the plugin has one. *)
Definition special (c : ascii) : bool :=
  existsb (Ascii.eqb c) (list_ascii_of_string ".*+?()[]{}\^$|").

Definition literal_path (path : string) : Prop :=
  forall c, In (Lit c) (fst (scan path None)) -> special c = false.

Definition is_empty (s : string) : bool :=
  match s with EmptyString => true | _ => false end.

(** One parameter group followed by the rest of the pattern [k].  The
    group is greedy: it takes as many characters as it can and gives
    back one at a time while the rest does not match. *)
Definition group_loop (k : string -> option (list string))
    : string -> string -> option (list string) :=
  fix group (taken s : string) {struct s} : option (list string) :=
    match s with
    | EmptyString =>
        if is_empty taken then None else option_map (cons taken) (k s)
    | String d s' =>
        if Ascii.eqb d "/"
        then if is_empty taken then None else option_map (cons taken) (k s)
        else match group (taken ++ String d "")%string s' with
             | Some r => Some r
             | None => if is_empty taken then None else option_map (cons taken) (k s)
             end
    end.

(** [path.match(new RegExp("^" + pattern + "$"))]: the capture groups
    of the match. *)
Fixpoint matches (ts : list Token) : string -> option (list string) :=
  match ts with
  | [] => fun s => if is_empty s then Some [] else None
  | Lit c :: ts' =>
      fun s =>
        match s with
        | String d s' => if Ascii.eqb c d then matches ts' s' else None
        | EmptyString => None
        end
  | Param :: ts' => group_loop (matches ts') EmptyString
  end.

(** [route(method, path, handler)]: the route that is pushed. *)
Definition compile (toUpperCase : string -> string) (method_ path_ : string)
    (h : RouteHandler) : Route :=
  let compiled := scan path_ None in
  {| method := toUpperCase method_;
     pattern := matches (fst compiled);
     paramNames := snd compiled;
     handler := h |}.

Definition route (toUpperCase : string -> string) (srv : PetraServer)
    (method_ path_ : string) (h : RouteHandler) : PetraServer :=
  {| app := app srv;
     routes := routes srv ++ [compile toUpperCase method_ path_ h];
     authToken := authToken srv |}.

(** *** Vocabulary *)

(** A value a parameter can take: not empty, no slash. *)
Definition segment (g : string) : Prop :=
  g <> "" /\ ~ In "/"%char (list_ascii_of_string g).

(** The path obtained by putting values in the place of the
    parameters. *)
Fixpoint fill (ts : list Token) (gs : list string) : string :=
  match ts with
  | [] => ""
  | Lit c :: ts' => String c (fill ts' gs)
  | Param :: ts' =>
      match gs with
      | g :: gs' => (g ++ fill ts' gs')%string
      | [] => fill ts' []
      end
  end.

Definition arity (ts : list Token) : nat :=
  length (List.filter (fun t => match t with Param => true | Lit _ => false end) ts).

End Routing.

(** * Properties *)

(** ** The link graph *)

Module GraphProofs.
Import Js Obsidian Routes Graph GraphFacts Fixtures.

(** *** Iteration helpers *)

Lemma for_each_pure {A S} (g : A -> S -> S) (l : list A) (s : S) :
  for_each (fun x s => Some (g x s)) l s = Some (fold_left (fun s x => g x s) l s).
Proof. revert s. induction l as [|x l IH]; intros s; simpl; [reflexivity | apply IH]. Qed.

Lemma for_each_ext {A S} (f g : A -> S -> option S) (l : list A) (s : S) :
  (forall x s, f x s = g x s) -> for_each f l s = for_each g l s.
Proof.
  intros E. revert s. induction l as [|x l IH]; intros s; simpl; [reflexivity|].
  rewrite E. destruct (g x s); [apply IH | reflexivity].
Qed.

Lemma for_each_inv {A S} (P : S -> Prop) (f : A -> S -> option S) (l : list A) :
  (forall x s s', f x s = Some s' -> P s -> P s') ->
  forall s s', for_each f l s = Some s' -> P s -> P s'.
Proof.
  intros Hf. induction l as [|x l IH]; intros s s' H Hs; simpl in H.
  - congruence.
  - destruct (f x s) as [s1|] eqn:E; [|discriminate]. eauto.
Qed.

Lemma for_each_total {A S} (f : A -> S -> option S) (l : list A) :
  (forall x s, exists s', f x s = Some s') ->
  forall s, exists s', for_each f l s = Some s'.
Proof.
  intros Hf. induction l as [|x l IH]; intros s; simpl; [eauto|].
  destruct (Hf x s) as [s1 ->]. apply IH.
Qed.

Section Facts.
Variable app : App.

(** *** Termination: the depth bound is a measure *)

Lemma traverse_total max_depth dir :
  forall fuel startPath currentDepth st,
    (fuel_for max_depth currentDepth <= fuel)%nat ->
    exists st', traverse app max_depth dir fuel startPath currentDepth st = Some st'.
Proof.
  induction fuel as [|fuel IH]; intros p d st Hf.
  - simpl. destruct (max_depth <? d) eqn:E; [eauto|].
    apply Z.ltb_ge in E. unfold fuel_for in Hf. lia.
  - simpl. destruct (max_depth <? d) eqn:E; [eauto|].
    destruct (bool_decide _); [eauto|].
    destruct (fileMap_find app p) as [file|]; [|eauto].
    assert (Hrec : forall q s, exists s',
               traverse app max_depth dir fuel q (d + 1) s = Some s').
    { intros q s. apply IH. unfold fuel_for in *. apply Z.ltb_ge in E. lia. }
    assert (Hout : exists s1,
      (if wants_out dir
       then for_each (out_step (traverse app max_depth dir fuel)
                               (replace_md_ext (path file)) d)
                     (getOutlinks app file) (addNode file (visit p st))
       else Some (addNode file (visit p st))) = Some s1).
    { destruct (wants_out dir); [|eauto].
      apply for_each_total. intros x s. unfold out_step. apply Hrec. }
    destruct Hout as [s1 ->].
    destruct (wants_in dir); [|eauto].
    apply for_each_total. intros x s. unfold in_step.
    destruct (String.eqb _ _); [eauto|].
    destruct (links_to app x file); [apply Hrec | eauto].
Qed.

Lemma traverse_fuel_mono max_depth dir :
  forall fuel fuel' startPath currentDepth st st',
    traverse app max_depth dir fuel startPath currentDepth st = Some st' ->
    (fuel <= fuel')%nat ->
    traverse app max_depth dir fuel' startPath currentDepth st = Some st'.
Proof.
  induction fuel as [|fuel IH]; intros fuel' p d st st' H Hle.
  - destruct fuel'; simpl in *;
      destruct (max_depth <? d); try assumption;
      destruct (bool_decide _); try assumption; discriminate.
  - destruct fuel' as [|fuel']; [lia|]. simpl in *.
    destruct (max_depth <? d); [assumption|].
    destruct (bool_decide _); [assumption|].
    destruct (fileMap_find app p) as [file|]; [|assumption].
    assert (Hmono : forall {A} (f g : A -> Store -> option Store) l s s',
               (forall x s s', f x s = Some s' -> g x s = Some s') ->
               for_each f l s = Some s' -> for_each g l s = Some s').
    { intros A f g l. induction l as [|x l IHl]; intros s s2 Hfg Hs; simpl in *;
        [assumption|].
      destruct (f x s) as [s1|] eqn:E1; [|discriminate].
      rewrite (Hfg _ _ _ E1). eauto. }
    set (s0 := addNode file (visit p st)) in *.
    destruct (wants_out dir).
    + destruct (for_each (out_step (traverse app max_depth dir fuel) _ d) _ s0)
        as [s1|] eqn:E1; [|discriminate].
      erewrite Hmono; [| |exact E1].
      2:{ intros x s s2 Hx. unfold out_step in *. eapply IH; [exact Hx | lia]. }
      destruct (wants_in dir); [|assumption].
      eapply Hmono; [|exact H].
      intros x s s2 Hx. unfold in_step in *.
      destruct (String.eqb _ _); [assumption|].
      destruct (links_to app x file); [|assumption].
      eapply IH; [exact Hx | lia].
    + destruct (wants_in dir); [|assumption].
      eapply Hmono; [|exact H].
      intros x s s2 Hx. unfold in_step in *.
      destruct (String.eqb _ _); [assumption|].
      destruct (links_to app x file); [|assumption].
      eapply IH; [exact Hx | lia].
Qed.

(** *** The journal and the node/edge invariant *)

Lemma nodes_of_app j k : nodes_of (j ++ k) = nodes_of j ++ nodes_of k.
Proof. unfold nodes_of. apply flat_map_app. Qed.

Lemma edges_of_app j k : edges_of (j ++ k) = edges_of j ++ edges_of k.
Proof. unfold edges_of. apply flat_map_app. Qed.

Lemma nodes_has_app i ns ms :
  nodes_has i (ns ++ ms) = nodes_has i ns || nodes_has i ms.
Proof. unfold nodes_has. apply existsb_app. Qed.

Lemma nodes_has_mono i j k :
  nodes_has i (nodes_of j) = true -> nodes_has i (nodes_of (j ++ k)) = true.
Proof. intros H. rewrite nodes_of_app, nodes_has_app, H. reflexivity. Qed.

Lemma journal_ok_nil : journal_ok [].
Proof. intros pre e post H. destruct pre; discriminate. Qed.

Lemma snoc_split {A} (j pre post : list A) (x y : A) :
  j ++ [x] = pre ++ y :: post ->
  (post = [] /\ pre = j /\ x = y) \/
  (exists post', post = post' ++ [x] /\ j = pre ++ y :: post').
Proof.
  destruct (exists_last (l := y :: post)) as (q & z & Hq); [discriminate|].
  intros H. rewrite Hq in H. rewrite app_assoc in H.
  apply app_inj_tail in H as [Hj Hx]. subst z.
  destruct post as [|p post].
  - left. destruct q as [|? q]; simpl in Hq.
    + injection Hq as ->. rewrite app_nil_r in Hj. auto.
    + injection Hq as _ Hq. destruct q; discriminate.
  - right. destruct (exists_last (l := p :: post)) as (q' & z & Hq'); [discriminate|].
    rewrite Hq' in Hq. change (y :: q' ++ [z]) with ((y :: q') ++ [z]) in Hq.
    apply app_inj_tail in Hq as [Hq Hz]. subst z q.
    exists q'. split; [exact Hq' | exact Hj].
Qed.

Lemma journal_ok_node j n : journal_ok j -> journal_ok (j ++ [EvNode n]).
Proof.
  intros Hj pre e post H.
  apply snoc_split in H as [(_ & _ & Hx) | (post' & _ & Hj')]; [discriminate|].
  eapply Hj; eassumption.
Qed.

Lemma journal_ok_edge j e :
  journal_ok j ->
  nodes_has (source e) (nodes_of j) = true ->
  nodes_has (target e) (nodes_of j) = true ->
  journal_ok (j ++ [EvEdge e]).
Proof.
  intros Hj Hs Ht pre e' post H.
  apply snoc_split in H as [(_ & -> & Hx) | (post' & _ & Hj')].
  - injection Hx as <-. auto.
  - eapply Hj; eassumption.
Qed.

(** [H] says that a call returned its argument store. *)
Ltac unchanged H :=
  injection H as <-; split; [assumption | exists []; symmetry; apply app_nil_r].

Create HintDb graph.

Lemma grows_refl st : grows st st.
Proof. exists []. symmetry. apply app_nil_r. Qed.

Lemma grows_trans s1 s2 s3 : grows s1 s2 -> grows s2 s3 -> grows s1 s3.
Proof.
  intros [k Hk] [k' Hk']. exists (k ++ k'). rewrite Hk', Hk. symmetry. apply app_assoc.
Qed.

#[local] Hint Resolve grows_refl grows_trans : graph.

Lemma addNode_wf file st : wf st -> wf (addNode file st) /\ grows st (addNode file st).
Proof.
  intros (Hn & He & Hj). unfold addNode.
  destruct (nodes_has _ (nodes st)); [split; [exact (conj Hn (conj He Hj)) | apply grows_refl]|].
  split; [|eexists; reflexivity]. unfold wf. simpl. split; [|split].
  - rewrite nodes_of_app, Hn. reflexivity.
  - rewrite edges_of_app, He. simpl. symmetry. apply app_nil_r.
  - apply journal_ok_node, Hj.
Qed.

Lemma addNode_has file st :
  nodes_has (replace_md_ext (path file)) (nodes (addNode file st)) = true.
Proof.
  unfold addNode. destruct (nodes_has _ (nodes st)) eqn:E; [exact E|].
  simpl. rewrite nodes_has_app. simpl. rewrite String.eqb_refl. apply orb_true_r.
Qed.

Lemma pushEdge_wf e st :
  wf st ->
  nodes_has (source e) (nodes st) = true ->
  nodes_has (target e) (nodes st) = true ->
  wf (pushEdge e st) /\ grows st (pushEdge e st).
Proof.
  intros (Hn & He & Hj) Hs Ht. split; [|eexists; reflexivity].
  unfold pushEdge, wf. simpl. split; [|split].
  - rewrite nodes_of_app, Hn. simpl. symmetry. apply app_nil_r.
  - rewrite edges_of_app, He. reflexivity.
  - apply journal_ok_edge; [assumption | rewrite <- Hn; assumption ..].
Qed.

Lemma visit_wf p st : wf st -> wf (visit p st) /\ grows st (visit p st).
Proof. intros H. split; [exact H | exact (grows_refl st)]. Qed.

Lemma grows_has i st st' :
  wf st -> wf st' -> grows st st' ->
  nodes_has i (nodes st) = true -> nodes_has i (nodes st') = true.
Proof.
  intros (Hn & _) (Hn' & _) [k Hk] H. rewrite Hn', Hk. apply nodes_has_mono.
  rewrite <- Hn. exact H.
Qed.

Lemma traverse_wf max_depth dir :
  forall fuel startPath currentDepth st st',
    traverse app max_depth dir fuel startPath currentDepth st = Some st' ->
    wf st -> wf st' /\ grows st st'.
Proof.
  induction fuel as [|fuel IH]; intros p d st st' H Hwf; simpl in H.
  - destruct (max_depth <? d); [|destruct (bool_decide _); [|discriminate]];
      unchanged H.
  - destruct (max_depth <? d); [unchanged H|].
    destruct (bool_decide _); [unchanged H|].
    destruct (fileMap_find app p) as [file|];
      [|injection H as <-; apply visit_wf, Hwf].
    set (fileId := replace_md_ext (path file)) in *.
    set (s0 := addNode file (visit p st)) in *.
    assert (H0 : wf s0 /\ grows st s0).
    { destruct (visit_wf p st Hwf) as [Hv Gv].
      destruct (addNode_wf file _ Hv) as [Ha Ga].
      split; [exact Ha | exact (grows_trans _ _ _ Gv Ga)]. }
    destruct H0 as [W0 G0].
    assert (Hid : nodes_has fileId (nodes s0) = true) by apply addNode_has.
    set (P := fun s => wf s /\ grows s0 s).
    assert (P0 : P s0) by (split; auto with graph).
    (* one link: both endpoints are nodes, then the edge, then the call *)
    assert (Hlink : forall e next s s',
      traverse app max_depth dir fuel (path next) (d + 1)
               (pushEdge e (addNode next s)) = Some s' ->
      (source e = fileId \/ source e = replace_md_ext (path next)) ->
      (target e = fileId \/ target e = replace_md_ext (path next)) ->
      P s -> P s').
    { intros e next s s1 Hcall Hsrc Htgt [Hs Gs].
      destruct (addNode_wf next s Hs) as [Ha Ga].
      assert (Hfile : nodes_has fileId (nodes (addNode next s)) = true).
      { eapply grows_has; [exact W0 | exact Ha | eauto with graph | exact Hid]. }
      assert (Hnext : nodes_has (replace_md_ext (path next)) (nodes (addNode next s)) = true)
        by apply addNode_has.
      destruct (pushEdge_wf e (addNode next s) Ha) as [Hp Gp].
      - destruct Hsrc as [->| ->]; assumption.
      - destruct Htgt as [->| ->]; assumption.
      - destruct (IH _ _ _ _ Hcall Hp) as [Hr Gr]. split; eauto 6 with graph. }
    assert (Hout : forall o s s',
      out_step (traverse app max_depth dir fuel) fileId d o s = Some s' -> P s -> P s').
    { intros o s s1 Ho. unfold out_step in Ho.
      eapply Hlink; [exact Ho| | ]; simpl; auto. }
    assert (Hin : forall o s s',
      in_step app (traverse app max_depth dir fuel) file fileId d o s = Some s' ->
      P s -> P s').
    { intros o s s1 Ho. unfold in_step in Ho.
      destruct (String.eqb _ _); [injection Ho as <-; trivial|].
      destruct (links_to app o file); [|injection Ho as <-; trivial].
      eapply Hlink; [exact Ho| | ]; simpl; auto. }
    assert (Hfin : P st' -> wf st' /\ grows st st').
    { intros [Hs Gs]. split; eauto with graph. }
    apply Hfin.
    destruct (wants_out dir).
    + destruct (for_each _ (getOutlinks app file) s0) as [s1|] eqn:E1; [|discriminate].
      assert (P1 : P s1) by (eapply for_each_inv; [exact Hout | exact E1 | exact P0]).
      destruct (wants_in dir); [|injection H as <-; exact P1].
      eapply for_each_inv; [exact Hin | exact H | exact P1].
    + destruct (wants_in dir); [|injection H as <-; exact P0].
      eapply for_each_inv; [exact Hin | exact H | exact P0].
Qed.

Lemma snapshot_step_wf file st :
  wf st -> wf (snapshot_step app file st) /\ grows st (snapshot_step app file st).
Proof.
  intros Hwf. unfold snapshot_step.
  set (fileId := replace_md_ext (path file)).
  destruct (addNode_wf file st Hwf) as [Ha Ga].
  assert (Hid : nodes_has fileId (nodes (addNode file st)) = true) by apply addNode_has.
  revert Ha Ga Hid. generalize (addNode file st) as s0. generalize (getOutlinks app file) as l.
  induction l as [|o l IHl]; intros s0 H0 G0 Hid; simpl; [split; assumption|].
  destruct (addNode_wf (fst o) s0 H0) as [Ha Ga].
  destruct (pushEdge_wf
              {| source := fileId; target := replace_md_ext (path (fst o));
                 type := snd o |} (addNode (fst o) s0) Ha) as [Hp Gp].
  - simpl. eapply grows_has; [exact H0 | exact Ha | exact Ga | exact Hid].
  - simpl. apply addNode_has.
  - apply IHl; [exact Hp | |].
    + eapply grows_trans; [exact G0|]. eapply grows_trans; eassumption.
    + eapply grows_has; [exact H0 | exact Hp | | exact Hid].
      eapply grows_trans; eassumption.
Qed.

Lemma snapshot_wf : wf (snapshot app).
Proof.
  unfold snapshot.
  assert (H0 : wf empty_store).
  { split; [reflexivity | split; [reflexivity | apply journal_ok_nil]]. }
  revert H0. generalize empty_store as s. generalize (firstn 100 (getMarkdownFiles app)) as l.
  induction l as [|f l IHl]; intros s Hs; simpl; [exact Hs|].
  apply IHl. apply snapshot_step_wf, Hs.
Qed.

Lemma query_store_wf fuel body st :
  query_store app fuel body = Some st -> wf st.
Proof.
  unfold query_store. intros H.
  assert (H0 : wf empty_store).
  { split; [reflexivity | split; [reflexivity | apply journal_ok_nil]]. }
  destruct (from body) as [[|c s]|].
  - injection H as <-. apply snapshot_wf.
  - eapply traverse_wf; eassumption.
  - injection H as <-. apply snapshot_wf.
Qed.

Lemma journal_ok_prefix pre post : journal_ok (pre ++ post) -> journal_ok pre.
Proof.
  intros H p e q E. apply (H p e (q ++ post)). rewrite E, <- app_assoc. reflexivity.
Qed.

Lemma journal_ok_endpoints j :
  journal_ok j -> endpoints_present (nodes_of j) (edges_of j).
Proof.
  intros Hj e He. unfold edges_of in He. apply in_flat_map in He as (ev & Hev & Hin).
  destruct ev as [n|e']; [destruct Hin|]. destruct Hin as [->|[]].
  apply in_split in Hev as (pre & post & ->).
  destruct (Hj pre e post eq_refl) as [Hs Ht].
  split; apply nodes_has_mono; assumption.
Qed.

(** *** What one expansion adds *)

Lemma addNode_edges f st : edges (addNode f st) = edges st.
Proof. unfold addNode. destruct (nodes_has _ _); reflexivity. Qed.

Lemma addNode_nodes_has i f st :
  nodes_has i (nodes (addNode f st)) =
  nodes_has i (nodes st) || String.eqb (file_id f) i.
Proof.
  unfold addNode, file_id.
  destruct (nodes_has (replace_md_ext (path f)) (nodes st)) eqn:E.
  - destruct (String.eqb_spec (replace_md_ext (path f)) i) as [<-|_].
    + rewrite E. reflexivity.
    + symmetry. apply orb_false_r.
  - simpl. rewrite nodes_has_app. simpl. rewrite orb_false_r. reflexivity.
Qed.

Lemma addNode_prefix f st : exists more, nodes (addNode f st) = nodes st ++ more.
Proof.
  unfold addNode. destruct (nodes_has _ _); simpl.
  - exists []. symmetry. apply app_nil_r.
  - eexists. reflexivity.
Qed.

Lemma link_all_edges {A} (nf : A -> TFile) mk (l : list A) st :
  edges (link_all nf mk l st) = edges st ++ map mk l.
Proof.
  unfold link_all. revert st. induction l as [|x l IH]; intros st; simpl.
  - symmetry. apply app_nil_r.
  - rewrite IH. simpl. rewrite addNode_edges, <- app_assoc. reflexivity.
Qed.

Lemma link_all_nodes_has {A} (nf : A -> TFile) mk (l : list A) st i :
  nodes_has i (nodes (link_all nf mk l st)) =
  nodes_has i (nodes st) || has_id i (map nf l).
Proof.
  unfold link_all. revert st. induction l as [|x l IH]; intros st; simpl.
  - symmetry. apply orb_false_r.
  - rewrite IH. simpl. rewrite addNode_nodes_has, orb_assoc. reflexivity.
Qed.

Lemma link_all_prefix {A} (nf : A -> TFile) mk (l : list A) st :
  exists more, nodes (link_all nf mk l st) = nodes st ++ more.
Proof.
  unfold link_all. revert st. induction l as [|x l IH]; intros st; simpl.
  - exists []. symmetry. apply app_nil_r.
  - destruct (IH (pushEdge (mk x) (addNode (nf x) st))) as [m Hm].
    destruct (addNode_prefix (nf x) st) as [m' Hm'].
    exists (m' ++ m). rewrite Hm. simpl. rewrite Hm', <- app_assoc. reflexivity.
Qed.

Lemma snapshot_step_link file st :
  snapshot_step app file st =
  link_all fst (out_edge file) (getOutlinks app file) (addNode file st).
Proof. reflexivity. Qed.

Lemma for_each_filter {A S} (c : A -> bool) (g : A -> S -> S) (l : list A) (s : S) :
  for_each (fun x s => if c x then Some (g x s) else Some s) l s =
  Some (fold_left (fun s x => g x s) (List.filter c l) s).
Proof.
  revert s. induction l as [|x l IH]; intros s; simpl; [reflexivity|].
  destruct (c x); simpl; apply IH.
Qed.

(** With [max_depth = 0] the recursive calls made while expanding the start
    note return at once, so the traversal is a single expansion. *)
Lemma traverse_depth0 dir fuel startPath file :
  fileMap_find app startPath = Some file ->
  traverse app 0 dir (S fuel) startPath 0 empty_store =
  Some (let s1 := addNode file (visit startPath empty_store) in
        let s2 := if wants_out dir
                  then link_all fst (out_edge file) (getOutlinks app file) s1
                  else s1 in
        if wants_in dir
        then link_all (fun o => o) (in_edge file) (in_sources app file) s2
        else s2).
Proof.
  intros Hf. simpl. rewrite Hf.
  assert (Hrec : forall q s, traverse app 0 dir fuel q (0 + 1) s = Some s).
  { intros q s. destruct fuel; reflexivity. }
  assert (Hout : forall s,
    for_each (out_step (traverse app 0 dir fuel) (replace_md_ext (path file)) 0)
             (getOutlinks app file) s =
    Some (link_all fst (out_edge file) (getOutlinks app file) s)).
  { intros s. unfold link_all. rewrite <- for_each_pure. apply for_each_ext.
    intros x s'. unfold out_step. apply Hrec. }
  assert (Hin : forall s,
    for_each (in_step app (traverse app 0 dir fuel) file (replace_md_ext (path file)) 0)
             (getMarkdownFiles app) s =
    Some (link_all (fun o => o) (in_edge file) (in_sources app file) s)).
  { intros s. unfold link_all, in_sources.
    rewrite <- (for_each_filter _ (fun x s => pushEdge (in_edge file x) (addNode x s))).
    apply for_each_ext. intros x s'. unfold in_step.
    destruct (String.eqb _ _); [reflexivity|]. simpl.
    destruct (links_to app x file); [apply Hrec | reflexivity]. }
  destruct (wants_out dir); [rewrite Hout|]; (destruct (wants_in dir); [apply Hin | reflexivity]).
Qed.

Lemma run_query_total body : exists r, run_query app body = Some r.
Proof.
  unfold run_query, graph_query, query_store, enough_fuel.
  destruct (from body) as [[|c s]|]; simpl; [eauto| |eauto].
  destruct (traverse_total (match depth body with Some d => d | None => 1 end)
              (match direction body with Some d => d | None => "both" end)
              (Z.to_nat (match depth body with Some d => d | None => 1 end + 1))
              (String c s) 0 empty_store) as [st ->]; [|simpl; eauto].
  unfold fuel_for. lia.
Qed.

(** More fuel than [enough_fuel] changes nothing. *)
Lemma graph_query_fuel fuel body :
  (enough_fuel body <= fuel)%nat -> graph_query app fuel body = run_query app body.
Proof.
  intros Hle. unfold run_query, graph_query, query_store, enough_fuel in *.
  destruct (from body) as [[|c s]|]; [reflexivity| |reflexivity].
  set (d := match depth body with Some d => d | None => 1 end) in *.
  set (dir := match direction body with Some d => d | None => "both" end).
  destruct (traverse_total d dir (Z.to_nat (d + 1)) (String c s) 0 empty_store)
    as [st Hst]; [unfold fuel_for; lia|].
  rewrite Hst, (traverse_fuel_mono d dir _ fuel _ _ _ _ Hst Hle). reflexivity.
Qed.

(** C1 (amended). With [depth = 0] only the start note is expanded: the
    edges are its resolved outgoing links (direction [out] or [both])
    followed by one edge from every other note that links to it
    (direction [in] or [both]); the nodes are the start note, first, and
    the other endpoints of these edges.  The result is the start note
    alone exactly when there is no such edge. *)
Theorem depth0_single_expansion startPath file dir :
  startPath <> "" ->
  fileMap_find app startPath = Some file ->
  exists r,
    run_query app {| from := Some startPath; depth := Some 0; direction := Some dir |}
      = Some r /\
    r_edges r =
      (if wants_out dir then map (out_edge file) (getOutlinks app file) else []) ++
      (if wants_in dir then map (in_edge file) (in_sources app file) else []) /\
    hd_error (r_nodes r) = Some (file_node file) /\
    (forall i, nodes_has i (r_nodes r) = true <->
       i = file_id file \/
       (wants_out dir = true /\ has_id i (map fst (getOutlinks app file)) = true) \/
       (wants_in dir = true /\ has_id i (in_sources app file) = true)) /\
    (r_edges r = [] -> r_nodes r = [file_node file]).
Proof.
  intros Hne Hf.
  assert (Hq : run_query app {| from := Some startPath; depth := Some 0;
                                direction := Some dir |}
               = option_map result_of (traverse app 0 dir 1 startPath 0 empty_store)).
  { destruct startPath; [congruence | reflexivity]. }
  rewrite Hq, (traverse_depth0 dir 0 _ file Hf). cbv zeta. unfold option_map.
  eexists. split; [reflexivity|].
  set (s1 := addNode file (visit startPath empty_store)).
  assert (Hs1 : nodes s1 = [file_node file] /\ edges s1 = []) by (split; reflexivity).
  destruct Hs1 as [Hn1 He1].
  assert (Hhas1 : forall i, nodes_has i (nodes s1) = String.eqb (file_id file) i).
  { intros i. rewrite Hn1. simpl. apply orb_false_r. }
  destruct (wants_out dir), (wants_in dir); unfold result_of; cbn [r_nodes r_edges].
  - repeat rewrite link_all_edges. rewrite He1. simpl.
    split; [reflexivity|]. split; [|split].
    + destruct (link_all_prefix (fun o => o) (in_edge file) (in_sources app file)
                  (link_all fst (out_edge file) (getOutlinks app file) s1)) as [m ->].
      destruct (link_all_prefix fst (out_edge file) (getOutlinks app file) s1) as [m' ->].
      rewrite Hn1. reflexivity.
    + intros i. rewrite !link_all_nodes_has, Hhas1, map_id.
      rewrite !orb_true_iff, String.eqb_eq. intuition congruence.
    + intros E. apply app_eq_nil in E as [E1 E2].
      apply map_eq_nil in E1, E2. rewrite E1, E2. reflexivity.
  - rewrite link_all_edges, He1, app_nil_r. simpl.
    split; [reflexivity|]. split; [|split].
    + destruct (link_all_prefix fst (out_edge file) (getOutlinks app file) s1) as [m' ->].
      rewrite Hn1. reflexivity.
    + intros i. rewrite !link_all_nodes_has, Hhas1.
      rewrite !orb_true_iff, String.eqb_eq. intuition congruence.
    + intros E. apply map_eq_nil in E. rewrite E. reflexivity.
  - rewrite link_all_edges, He1. simpl.
    split; [reflexivity|]. split; [|split].
    + destruct (link_all_prefix (fun o => o) (in_edge file) (in_sources app file) s1) as [m' ->].
      rewrite Hn1. reflexivity.
    + intros i. rewrite !link_all_nodes_has, Hhas1, map_id.
      rewrite !orb_true_iff, String.eqb_eq. intuition congruence.
    + intros E. apply map_eq_nil in E. rewrite E. reflexivity.
  - split; [reflexivity|]. split; [reflexivity|]. split; [|reflexivity].
    intros i. rewrite Hhas1, String.eqb_eq. intuition congruence.
Qed.

(** C8. In both modes of [POST /graph/query] the handler returns, and
    along the whole history of its mutations of [nodes] and [edges] every
    edge finds both its endpoints among the nodes added strictly before
    it; hence after every prefix of that history the node set covers the
    endpoints of all edges pushed so far.  The returned node and edge
    lists are those the history builds. *)
Theorem nodes_cover_edges_throughout body :
  exists st,
    query_store app (enough_fuel body) body = Some st /\
    run_query app body = Some {| r_nodes := nodes st; r_edges := edges st |} /\
    nodes st = nodes_of (journal st) /\
    edges st = edges_of (journal st) /\
    (forall pre e post,
        journal st = pre ++ EvEdge e :: post ->
        nodes_has (source e) (nodes_of pre) = true /\
        nodes_has (target e) (nodes_of pre) = true) /\
    (forall pre post,
        journal st = pre ++ post ->
        endpoints_present (nodes_of pre) (edges_of pre)).
Proof.
  destruct (run_query_total body) as [r Hr].
  unfold run_query, graph_query in Hr.
  destruct (query_store app (enough_fuel body) body) as [st|] eqn:Hst; [|discriminate].
  exists st. split; [reflexivity|].
  split; [unfold run_query, graph_query; rewrite Hst; reflexivity|].
  destruct (query_store_wf _ _ _ Hst) as (Hn & He & Hj).
  split; [exact Hn|]. split; [exact He|]. split; [exact Hj|].
  intros pre post E. apply journal_ok_endpoints.
  apply (journal_ok_prefix pre post). rewrite <- E. exact Hj.
Qed.

(** *** The whole-graph snapshot *)

Lemma snapshot_fold_edges files st :
  edges (fold_left (fun st file => snapshot_step app file st) files st) =
  edges st ++ flat_map (fun file => map (out_edge file) (getOutlinks app file)) files.
Proof.
  revert st. induction files as [|f files IH]; intros st; simpl.
  - symmetry. apply app_nil_r.
  - rewrite IH, snapshot_step_link, link_all_edges, addNode_edges, <- app_assoc.
    reflexivity.
Qed.

Lemma snapshot_fold_nodes_has files st i :
  nodes_has i (nodes (fold_left (fun st file => snapshot_step app file st) files st)) =
  nodes_has i (nodes st) ||
  existsb (fun file => String.eqb (file_id file) i ||
                       has_id i (map fst (getOutlinks app file))) files.
Proof.
  revert st. induction files as [|f files IH]; intros st; simpl.
  - symmetry. apply orb_false_r.
  - rewrite IH, snapshot_step_link, link_all_nodes_has, addNode_nodes_has.
    rewrite !orb_assoc. reflexivity.
Qed.

Lemma getOutlinks_resolves file o :
  In o (getOutlinks app file) <-> snd o = wiki /\ resolves app file (fst o).
Proof.
  unfold getOutlinks, resolves. split.
  - destruct (getFileCache app file) as [cache|]; [|intros []].
    destruct (links cache) as [ls|] eqn:El; [|intros []].
    intros H. apply in_flat_map in H as (l & Hl & H).
    destruct (getFirstLinkpathDest app (link l) (path file)) as [resolved|] eqn:Er;
      [|destruct H].
    destruct H as [<-|[]]. split; [reflexivity|]. exists cache, ls, l. auto.
  - intros [Ht (cache & ls & l & -> & -> & Hl & Er)].
    apply in_flat_map. exists l. split; [exact Hl|]. rewrite Er.
    left. destruct o as [g ty]. simpl in *. subst ty. reflexivity.
Qed.

Lemma out_edges_link_edges file :
  map (out_edge file) (getOutlinks app file) = link_edges app file.
Proof.
  unfold getOutlinks, link_edges.
  destruct (getFileCache app file) as [cache|]; [|reflexivity].
  destruct (links cache) as [ls|]; [|reflexivity].
  induction ls as [|l ls IH]; [reflexivity|]. cbn [flat_map].
  rewrite map_app, IH.
  destruct (getFirstLinkpathDest app (link l) (path file)); reflexivity.
Qed.

Lemma In_link_edges file e :
  In e (link_edges app file) <->
  exists resolved, resolves app file resolved /\ e = link_from file resolved.
Proof.
  rewrite <- out_edges_link_edges, in_map_iff. split.
  - intros ([g ty] & <- & Ho). apply getOutlinks_resolves in Ho as [Ht Hr].
    simpl in Ht, Hr. subst ty. exists g. split; [exact Hr | reflexivity].
  - intros (g & Hr & ->). exists (g, wiki). split; [reflexivity|].
    apply getOutlinks_resolves. split; [reflexivity | exact Hr].
Qed.

(** C10 (amended). For a request whose body can be destructured, an
    omitted [depth] is [1] and an omitted [direction] is ["both"]; a
    request without a body, or with the body [null], makes the handler
    throw.  With [from] omitted (or empty) the depth and the direction
    play no part: the reply is the snapshot whose edges are, for the
    first 100 markdown files in order, one edge per link that
    [getFirstLinkpathDest] resolves -- from the file to what the link
    resolves to -- and no other edge, and whose nodes are these files
    and the files their links resolve to. *)
Theorem graph_query_defaults start d dir :
  handle_query app (Some {| from := start; depth := None; direction := dir |}) =
  handle_query app (Some {| from := start; depth := Some 1; direction := dir |}) /\
  handle_query app (Some {| from := start; depth := d; direction := None |}) =
  handle_query app (Some {| from := start; depth := d; direction := Some "both" |}) /\
  (exists msg, handle_query app None = Some (ReplyThrow msg)) /\
  let sources := firstn 100 (getMarkdownFiles app) in
  exists r,
    (forall start' d' dir',
        start' = None \/ start' = Some "" ->
        handle_query app (Some {| from := start'; depth := d'; direction := dir' |})
        = Some (ReplyJson r)) /\
    (length sources <= 100)%nat /\
    r_edges r = flat_map (link_edges app) sources /\
    (forall e, In e (r_edges r) <->
       exists file resolved,
         In file sources /\ resolves app file resolved /\ e = link_from file resolved) /\
    (forall i, nodes_has i (r_nodes r) = true <->
       exists file, In file sources /\
         (i = file_id file \/
          exists resolved, resolves app file resolved /\ i = file_id resolved)).
Proof.
  split; [reflexivity|]. split; [reflexivity|]. split; [eexists; reflexivity|].
  intros sources. exists (result_of (snapshot app)).
  assert (Hedges : r_edges (result_of (snapshot app)) = flat_map (link_edges app) sources).
  { unfold result_of, snapshot. cbn [r_edges]. fold sources.
    rewrite snapshot_fold_edges. simpl.
    clear. induction sources as [|f fs IH]; [reflexivity|].
    cbn [flat_map]. rewrite IH, out_edges_link_edges. reflexivity. }
  split; [|split; [apply firstn_le_length|split; [exact Hedges|split]]].
  - intros start' d' dir' [->| ->]; reflexivity.
  - intros e. rewrite Hedges, in_flat_map. split.
    + intros (file & Hfile & He). apply In_link_edges in He as (g & Hr & ->).
      exists file, g. auto.
    + intros (file & g & Hfile & Hr & ->). exists file. split; [exact Hfile|].
      apply In_link_edges. exists g. auto.
  - intros i. unfold result_of, snapshot. cbn [r_nodes]. fold sources.
    rewrite snapshot_fold_nodes_has. simpl. rewrite existsb_exists. split.
    + intros (file & Hfile & H). exists file. split; [exact Hfile|].
      apply orb_true_iff in H as [H|H].
      * left. symmetry. apply String.eqb_eq, H.
      * right. unfold has_id in H. apply existsb_exists in H as (g & Hg & E).
        apply in_map_iff in Hg as (o & <- & Ho).
        apply getOutlinks_resolves in Ho as [_ Hr].
        exists (fst o). split; [exact Hr | symmetry; apply String.eqb_eq, E].
    + intros (file & Hfile & [->|(g & Hr & ->)]); exists file;
        (split; [exact Hfile|]); apply orb_true_iff.
      * left. apply String.eqb_refl.
      * right. unfold has_id. apply existsb_exists. exists g.
        split; [|apply String.eqb_refl].
        apply in_map_iff. exists (g, wiki). split; [reflexivity|].
        apply getOutlinks_resolves. split; [reflexivity | exact Hr].
Qed.

End Facts.

(** *** The two-note cycle *)

(** C10 (counterexample). A request without a body omits [from], and
    yet it is not answered with the snapshot: the handler throws. *)
Lemma absent_body_no_snapshot :
  (exists msg, handle_query cycle_vault None = Some (ReplyThrow msg)) /\
  (forall r, handle_query cycle_vault None <> Some (ReplyJson r)) /\
  handle_query cycle_vault (Some {| from := None; depth := None; direction := None |})
  = Some (ReplyJson {| r_nodes := [node_A; node_B]; r_edges := [edge_AB; edge_BA] |}).
Proof.
  split; [eexists; reflexivity|]. split; [discriminate | reflexivity].
Qed.

Lemma graph_query_defaults_witness :
  exists r,
    handle_query cycle_vault
      (Some {| from := None; depth := Some 7; direction := Some "in" |})
    = Some (ReplyJson r) /\
    r_edges r = [edge_AB; edge_BA] /\
    nodes_has "A" (r_nodes r) = true /\
    nodes_has "B" (r_nodes r) = true /\
    r = {| r_nodes := [node_A; node_B]; r_edges := [edge_AB; edge_BA] |}.
Proof.
  destruct (graph_query_defaults cycle_vault None None None)
    as (_ & _ & _ & r & Hr & _ & He & _ & Hn).
  specialize (Hr None (Some 7) (Some "in") (or_introl eq_refl)).
  exists r. split; [exact Hr|]. split; [exact He|].
  split; [|split].
  - apply Hn. exists (note "A"). split; [left; reflexivity | left; reflexivity].
  - apply Hn. exists (note "B").
    split; [right; left; reflexivity | left; reflexivity].
  - assert (E : handle_query cycle_vault
                  (Some {| from := None; depth := Some 7; direction := Some "in" |})
                = Some (ReplyJson {| r_nodes := [node_A; node_B];
                                     r_edges := [edge_AB; edge_BA] |}))
      by reflexivity.
    rewrite E in Hr. injection Hr as <-. reflexivity.
Defined.

(** C1 (counterexample). On the cycle A -> B -> A, the query from A with
    depth 0 and direction [out] returns B and the edge A -> B as well. *)
Lemma depth0_returns_neighbours :
  run_query cycle_vault {| from := Some "A"; depth := Some 0; direction := Some "out" |}
    = Some {| r_nodes := [node_A; node_B]; r_edges := [edge_AB] |} /\
  run_query cycle_vault {| from := Some "A"; depth := Some 0; direction := Some "out" |}
    <> Some {| r_nodes := [node_A]; r_edges := [] |}.
Proof. split; [vm_compute; reflexivity | vm_compute; discriminate]. Qed.

Lemma depth0_single_expansion_witness :
  exists r,
    run_query cycle_vault {| from := Some "A"; depth := Some 0; direction := Some "both" |}
      = Some r /\
    r_edges r = [edge_AB; edge_BA] /\
    hd_error (r_nodes r) = Some node_A.
Proof.
  destruct (depth0_single_expansion cycle_vault "A" (note "A") "both")
    as (r & Hr & He & Hh & _); [discriminate | vm_compute; reflexivity |].
  exists r. split; [exact Hr|]. split; [rewrite He; vm_compute; reflexivity | exact Hh].
Defined.

(** C2 (the code at the failing input). The query handler returns on
    every vault and body, cyclic or not.  But on the cycle A -> B -> A
    the query from [A] -- the note's identity, which [fileMap] resolves
    -- with depth 5 and direction [out] expands A twice, once under the
    key [A] and once under [A.md], and so returns the edge A -> B
    twice. *)
Theorem cycle_from_identity_repeats_edge :
  (forall app body, exists r, run_query app body = Some r) /\
  run_query cycle_vault {| from := Some "A"; depth := Some 5; direction := Some "out" |}
    = Some {| r_nodes := [node_A; node_B]; r_edges := [edge_AB; edge_BA; edge_AB] |}.
Proof.
  split; [exact run_query_total|].
  vm_compute. reflexivity.
Qed.

(** Started from the stored path the same query returns each edge once. *)
Lemma cycle_from_path_exact :
  run_query cycle_vault {| from := Some "A.md"; depth := Some 5; direction := Some "out" |}
    = Some {| r_nodes := [node_A; node_B]; r_edges := [edge_AB; edge_BA] |}.
Proof. vm_compute. reflexivity. Qed.

End GraphProofs.

(** ** The dispatcher *)

Module ServerProofs.
Import Js Obsidian Platform Utils Server Fixtures.

(** *** Authentication *)

Lemma bytes_eqb_eq a b : bytes_eqb a b = true <-> a = b.
Proof.
  revert b. induction a as [|x a IH]; intros [|y b]; simpl; split; intros H;
    try reflexivity; try discriminate.
  - apply andb_true_iff in H as [Hx Hab]. apply Byte.byte_dec_bl in Hx.
    apply IH in Hab. congruence.
  - injection H as -> ->. apply andb_true_iff. split;
      [apply Byte.byte_dec_lb; reflexivity | apply IH; reflexivity].
Qed.

Lemma Buffer_from_empty s : Buffer_from s = [] -> s = "".
Proof. destruct s; [reflexivity | discriminate]. Qed.

Lemma checkAuthWith_configured compare secret header :
  secret <> "" ->
  checkAuthWith compare (Some secret) (Some header) =
  match presented_token header with
  | Some token =>
      String.eqb (auth_scheme header) "Bearer" && negb (String.eqb token "") &&
      (length (Buffer_from token) =? length (Buffer_from secret))%nat &&
      match compare (Buffer_from token) (Buffer_from secret) with
      | Ok b => b
      | Throw _ => false
      end
  | None => false
  end.
Proof.
  intros Hs. unfold checkAuthWith, presented_token, auth_scheme.
  destruct secret as [|c0 secret]; [congruence|].
  destruct header as [|h0 header]; [reflexivity|].
  destruct (split " "%char (String h0 header)) as [|type [|token rest]] eqn:E;
    [reflexivity | reflexivity |]. simpl.
  destruct (String.eqb type "Bearer"); [|reflexivity].
  destruct (String.eqb token ""); [reflexivity|]. simpl.
  destruct (_ =? _)%nat; reflexivity.
Qed.

(** C5. The authentication check: with no configured token it accepts
    every request;
    with a configured token, a missing header, a scheme other than
    [Bearer], or a presented token whose byte length differs from the
    secret's is rejected -- the last whatever the byte comparison would
    say, so it is not consulted -- and the check succeeds exactly when
    the header is a [Bearer] header whose token has the secret's bytes. *)
Theorem checkAuth_contract :
  (forall authorization,
      checkAuth None authorization = true /\
      checkAuth (Some "") authorization = true) /\
  (forall secret, secret <> "" ->
      checkAuth (Some secret) None = false /\
      (forall header, auth_scheme header <> "Bearer" ->
          checkAuth (Some secret) (Some header) = false) /\
      (forall header token compare,
          presented_token header = Some token ->
          length (Buffer_from token) <> length (Buffer_from secret) ->
          checkAuthWith compare (Some secret) (Some header) = false) /\
      (forall authorization,
          checkAuth (Some secret) authorization = true <->
          exists header token,
            authorization = Some header /\
            auth_scheme header = "Bearer" /\
            presented_token header = Some token /\
            Buffer_from token = Buffer_from secret)).
Proof.
  split; [intros a; split; reflexivity|].
  intros secret Hs. split; [|split; [|split]].
  - destruct secret; [congruence | reflexivity].
  - intros header Hsch. unfold checkAuth.
    rewrite checkAuthWith_configured by assumption.
    destruct (presented_token header); [|reflexivity].
    destruct (String.eqb_spec (auth_scheme header) "Bearer"); [contradiction | reflexivity].
  - intros header token compare Ht Hlen.
    rewrite checkAuthWith_configured by assumption. rewrite Ht.
    apply Nat.eqb_neq in Hlen. rewrite Hlen.
    rewrite andb_false_r. reflexivity.
  - intros [header|].
    2:{ split; [intros H; destruct secret; [congruence | discriminate]
             | intros (h & t & H & _); discriminate]. }
    unfold checkAuth. rewrite checkAuthWith_configured by assumption.
    split.
    + intros H. destruct (presented_token header) as [token|] eqn:Ht; [|discriminate].
      apply andb_true_iff in H as [H Hcmp].
      apply andb_true_iff in H as [H Hlen].
      apply andb_true_iff in H as [Hsch Hne].
      exists header, token. split; [reflexivity|].
      split; [apply String.eqb_eq, Hsch|]. split; [exact Ht|].
      unfold timingSafeEqual in Hcmp. rewrite Hlen in Hcmp.
      apply bytes_eqb_eq, Hcmp.
    + intros (h & token & Hh & Hsch & Ht & Hb). injection Hh as <-.
      rewrite Ht, Hsch. simpl.
      assert (Hne : String.eqb token "" = false).
      { apply String.eqb_neq. intros ->.
        apply Hs, Buffer_from_empty. symmetry. exact Hb. }
      rewrite Hne. simpl. unfold timingSafeEqual. rewrite Hb.
      rewrite Nat.eqb_refl. apply bytes_eqb_eq. reflexivity.
Qed.

Lemma checkAuth_contract_witness :
  "s3cret" <> "" /\
  checkAuth (Some "s3cret") None = false /\
  checkAuth (Some "s3cret") (Some "Basic s3cret") = false /\
  checkAuthWith (fun _ _ => Ok true) (Some "s3cret") (Some "Bearer s3cre") = false /\
  checkAuth (Some "s3cret") (Some "Bearer s3cret") = true.
Proof.
  assert (Hs : "s3cret" <> "") by discriminate.
  destruct (proj2 checkAuth_contract "s3cret" Hs) as (Habsent & Hscheme & Hlen & Hiff).
  split; [exact Hs|]. split; [exact Habsent|].
  split; [apply Hscheme; vm_compute; discriminate|].
  split; [apply (Hlen _ "s3cre"); [reflexivity | vm_compute; discriminate]|].
  apply Hiff. exists "Bearer s3cret", "s3cret". repeat split; reflexivity.
Defined.

(** *** Health endpoint *)



(** *** Body ingestion *)

Lemma total_size_nonneg cs : 0 <= total_size cs.
Proof. induction cs as [|c cs IH]; simpl; lia. Qed.

Lemma read_chunks_within cs : forall size acc,
  size + total_size cs <= MAX_BODY_SIZE ->
  read_chunks cs size acc = Collected (acc ++ cs).
Proof.
  induction cs as [|c cs IH]; intros size acc H; simpl in *.
  - rewrite app_nil_r. reflexivity.
  - pose proof (total_size_nonneg cs).
    destruct (size + Z.of_nat (String.length c) >? MAX_BODY_SIZE) eqn:E.
    + apply Z.gtb_lt in E. lia.
    + rewrite IH by lia. rewrite <- app_assoc. reflexivity.
Qed.

Lemma read_chunks_beyond cs : forall size acc,
  MAX_BODY_SIZE < size + total_size cs ->
  size <= MAX_BODY_SIZE ->
  read_chunks cs size acc = Aborted "Request body too large".
Proof.
  induction cs as [|c cs IH]; intros size acc H Hs; simpl in *.
  - lia.
  - destruct (size + Z.of_nat (String.length c) >? MAX_BODY_SIZE) eqn:E; [reflexivity|].
    apply IH; [lia|]. destruct (Z.gtb_spec (size + Z.of_nat (String.length c)) MAX_BODY_SIZE);
      [discriminate | lia].
Qed.

Lemma parseBody_within rt cs :
  total_size cs <= MAX_BODY_SIZE ->
  exists parsed, parseBody rt {| chunks := cs; ending := EndOfStream |} = Ok parsed.
Proof.
  intros H. unfold parseBody. simpl. rewrite read_chunks_within by lia. simpl.
  destruct (String.concat "" cs) as [|c b]; [eauto|].
  destruct (JSON_parse rt (String c b)); eauto.
Qed.

Lemma parseBody_beyond rt cs e :
  MAX_BODY_SIZE < total_size cs ->
  parseBody rt {| chunks := cs; ending := e |} = Throw "Request body too large".
Proof.
  intros H. unfold parseBody. simpl. rewrite read_chunks_beyond; [reflexivity | lia |].
  unfold MAX_BODY_SIZE. lia.
Qed.

Lemma destroys_within cs e :
  total_size cs <= MAX_BODY_SIZE -> destroys {| chunks := cs; ending := e |} = false.
Proof.
  intros H. unfold destroys. cbn [chunks]. rewrite read_chunks_within by lia. reflexivity.
Qed.

Lemma destroys_beyond cs e :
  MAX_BODY_SIZE < total_size cs -> destroys {| chunks := cs; ending := e |} = true.
Proof.
  intros H. unfold destroys. cbn [chunks].
  rewrite read_chunks_beyond; [reflexivity | lia | unfold MAX_BODY_SIZE; lia].
Qed.

Lemma parsed_not_destroyed rt b parsed : parseBody rt b = Ok parsed -> destroys b = false.
Proof.
  unfold parseBody, destroys. destruct (read_chunks (chunks b) 0 []);
    [reflexivity | discriminate].
Qed.

Lemma handleRequest_routed rt srv req route params res :
  routed rt srv req route params ->
  handleRequest rt srv req res =
  let res := if destroys (body req) then destroy res else res in
  match parseBody rt (body req) with
  | Throw m =>
      if String.eqb m "Request body too large"
      then finish (sendError res 413 "INTERNAL_ERROR"
                             "Request body too large (max 10MB)") res
      else finish (sendError res 400 "INTERNAL_ERROR"
                             "Failed to parse request body") res
  | Ok parsed => execute (handler route req params parsed) res
  end.
Proof.
  intros (Hh & Ha & groups & Hf & Hp). unfold handleRequest.
  rewrite Hh, Ha, Hf. simpl. unfold run_route. rewrite Hp. reflexivity.
Qed.

Lemma handleRequest_parsed rt srv req route params parsed :
  routed rt srv req route params ->
  parseBody rt (body req) = Ok parsed ->
  handleRequest rt srv req fresh_res = execute (handler route req params parsed) fresh_res.
Proof.
  intros Hr Hp. rewrite (handleRequest_routed rt srv req route params) by exact Hr.
  rewrite (parsed_not_destroyed rt _ _ Hp). cbv zeta. rewrite Hp. reflexivity.
Qed.

Lemma routed_with_body rt srv req route params b :
  routed rt srv req route params -> routed rt srv (with_body req b) route params.
Proof. intros H. exact H. Qed.

(** C4. For a routed request, a body of at most [MAX_BODY_SIZE] bytes --
    so one of exactly 10 MiB -- is parsed and the handler is run on it.
    A larger body -- so one of 10 MiB plus one byte -- makes [parseBody]
    fail with the too-large error, however the stream ends, and the
    dispatcher writes the 413 response and not the 400 one; but
    [parseBody] has destroyed the request by then, so that response is
    written to a destroyed socket: nothing goes out on the wire. *)
Theorem body_cap_boundary rt srv req route params :
  routed rt srv req route params ->
  MAX_BODY_SIZE = 10485760 /\
  (forall cs, total_size cs <= MAX_BODY_SIZE ->
     exists parsed,
       parseBody rt {| chunks := cs; ending := EndOfStream |} = Ok parsed /\
       handleRequest rt srv (with_body req {| chunks := cs; ending := EndOfStream |})
                     fresh_res
       = execute (handler route (with_body req {| chunks := cs; ending := EndOfStream |})
                          params parsed) fresh_res) /\
  (forall cs e, MAX_BODY_SIZE < total_size cs ->
     parseBody rt {| chunks := cs; ending := e |} = Throw "Request body too large" /\
     destroys {| chunks := cs; ending := e |} = true /\
     handleRequest rt srv (with_body req {| chunks := cs; ending := e |}) fresh_res
     = Returned (lost too_large_response) /\
     wire (lost too_large_response) = []).
Proof.
  intros Hr. split; [reflexivity|]. split.
  - intros cs Hcs. destruct (parseBody_within rt cs Hcs) as [parsed Hp].
    exists parsed. split; [exact Hp|].
    apply (handleRequest_parsed rt srv _ route params);
      [apply routed_with_body, Hr | exact Hp].
  - intros cs e Hcs. pose proof (parseBody_beyond rt cs e Hcs) as Hp.
    pose proof (destroys_beyond cs e Hcs) as Hd.
    split; [exact Hp|]. split; [exact Hd|]. split; [|reflexivity].
    rewrite (handleRequest_routed rt srv _ route params); [|apply routed_with_body, Hr].
    cbn [body with_body]. rewrite Hd, Hp. reflexivity.
Qed.

Lemma filler_length n : String.length (filler n) = n.
Proof. induction n as [|n IH]; simpl; [reflexivity | rewrite IH; reflexivity]. Qed.

Lemma ten_MiB_size : total_size [ten_MiB] = MAX_BODY_SIZE.
Proof.
  unfold total_size, fold_right, ten_MiB. rewrite filler_length, Z2Nat.id, Z.add_0_r;
    [reflexivity | unfold MAX_BODY_SIZE; lia].
Qed.

Lemma one_byte_more_size : total_size [ten_MiB; "a"] = MAX_BODY_SIZE + 1.
Proof.
  unfold total_size, fold_right, ten_MiB. rewrite filler_length, Z2Nat.id;
    [reflexivity | unfold MAX_BODY_SIZE; lia].
Qed.

Lemma quick_routed cs :
  routed plain_runtime demo_server
         (request "POST" "/quick" (Some "Bearer s3cret") cs)
         (exact_route "POST" "/quick" quick) ∅.
Proof.
  split; [reflexivity|]. split; [reflexivity|]. exists []. split; reflexivity.
Qed.

Lemma body_cap_boundary_witness :
  (exists parsed,
     handleRequest plain_runtime demo_server
       (request "POST" "/quick" (Some "Bearer s3cret") [ten_MiB]) fresh_res
     = execute (quick (request "POST" "/quick" (Some "Bearer s3cret") [ten_MiB])
                      ∅ parsed) fresh_res) /\
  handleRequest plain_runtime demo_server
    (request "POST" "/quick" (Some "Bearer s3cret") [ten_MiB; "a"]) fresh_res
  = Returned (lost too_large_response).
Proof.
  destruct (body_cap_boundary plain_runtime demo_server
              (request "POST" "/quick" (Some "Bearer s3cret") [])
              (exact_route "POST" "/quick" quick) ∅ (quick_routed []))
    as (_ & Hwithin & Hbeyond).
  split.
  - destruct (Hwithin [ten_MiB]) as (parsed & _ & H).
    + rewrite ten_MiB_size. apply Z.le_refl.
    + exists parsed. exact H.
  - destruct (Hbeyond [ten_MiB; "a"] EndOfStream) as (_ & _ & H & _).
    + rewrite one_byte_more_size. apply Z.lt_succ_diag_r.
    + exact H.
Defined.

(** *** Timeout *)

Lemma withTimeout_overruns run :
  overruns run -> withTimeout run ROUTE_TIMEOUT = (ROUTE_TIMEOUT, Rejects "Request timeout").
Proof.
  unfold overruns, withTimeout. destruct (settle run) as [[t s]|]; [|reflexivity].
  intros H. destruct (Z.ltb_spec t ROUTE_TIMEOUT); [lia | reflexivity].
Qed.

Lemma handler_send_intact res r : intact res -> intact (handler_send res r).
Proof.
  intros [Hd Hq]. unfold handler_send, write.
  destruct (writableEnded res); [split; simpl; assumption|].
  rewrite Hd. split; simpl; auto.
Qed.

Lemma handler_send_single res r :
  intact res -> single res -> single (handler_send res r).
Proof.
  intros [Hd _] [[He Hw]|[He Hw]]; unfold handler_send, write; rewrite He.
  - right. rewrite Hd. simpl. rewrite Hw. auto.
  - right. auto.
Qed.

Lemma handler_send_ended res later :
  writableEnded res = true -> wire (fold_left handler_send later res) = wire res.
Proof.
  intros He. revert res He. induction later as [|r later IH]; intros res He; simpl;
    [reflexivity|].
  assert (Hs : handler_send res r = res) by (unfold handler_send, write; rewrite He; reflexivity).
  rewrite Hs. apply IH, He.
Qed.

Lemma res_at_intact_single run t :
  intact (res_at run t fresh_res) /\ single (res_at run t fresh_res).
Proof.
  unfold res_at. generalize (map snd (List.filter (fun s => fst s <=? t) (sends run))).
  assert (H : intact fresh_res /\ single fresh_res) by (split; [split | left]; auto).
  revert H. generalize fresh_res.
  intros res H l. revert res H. induction l as [|r l IH]; intros res [Hi Hs]; simpl;
    [split; assumption|].
  apply IH. split; [apply handler_send_intact, Hi | apply handler_send_single; assumption].
Qed.

Lemma res_at_single run t : single (res_at run t fresh_res).
Proof. apply res_at_intact_single. Qed.

(** C7. [ROUTE_TIMEOUT] is 30 seconds.  When the handler of a routed
    request has not settled by then, the dispatcher appends the 504
    response exactly when the handler has not ended the response so far;
    otherwise it leaves the response as the handler made it.  Either way
    one response is on the wire when [handleRequest] returns, and sends
    that the handler still attempts afterwards add nothing to it. *)
Theorem timeout_single_response rt srv req route params parsed :
  routed rt srv req route params ->
  parseBody rt (body req) = Ok parsed ->
  overruns (handler route req params parsed) ->
  let before := res_at (handler route req params parsed) ROUTE_TIMEOUT fresh_res in
  ROUTE_TIMEOUT = 30 * 1000 /\
  exists final,
    handleRequest rt srv req fresh_res = Returned final /\
    (writableEnded before = false ->
       wire before = [] /\ wire final = [timeout_response]) /\
    (writableEnded before = true -> final = before) /\
    length (wire final) = 1%nat /\
    (forall later, wire (fold_left handler_send later final) = wire final).
Proof.
  intros Hr Hp Ho before. split; [reflexivity|].
  rewrite (handleRequest_parsed rt srv req route params parsed Hr Hp).
  unfold execute. rewrite (withTimeout_overruns _ Ho). simpl.
  fold before.
  destruct (res_at_intact_single (handler route req params parsed) ROUTE_TIMEOUT)
    as [[Hd _] [[He Hw]|[He Hw]]]; fold before in Hd, He, Hw.
  - rewrite He. simpl. unfold sendError, write. rewrite He, Hd. simpl.
    eexists. split; [reflexivity|]. simpl. rewrite Hw.
    split; [intros _; split; reflexivity|]. split; [discriminate|].
    split; [reflexivity|]. intros later. apply handler_send_ended. reflexivity.
  - rewrite He. simpl. exists before. split; [reflexivity|].
    split; [congruence|]. split; [reflexivity|]. split; [exact Hw|].
    intros later. apply handler_send_ended, He.
Qed.

Lemma timeout_single_response_witness :
  (exists final,
     handleRequest plain_runtime demo_server
       (request "POST" "/stuck" (Some "Bearer s3cret") []) fresh_res = Returned final /\
     wire final = [timeout_response]) /\
  (exists final,
     handleRequest plain_runtime demo_server
       (request "POST" "/lingering" (Some "Bearer s3cret") []) fresh_res = Returned final /\
     wire final = [ok_response]).
Proof.
  split.
  - destruct (timeout_single_response plain_runtime demo_server
                (request "POST" "/stuck" (Some "Bearer s3cret") [])
                (exact_route "POST" "/stuck" stuck) ∅ None)
      as (_ & final & Hf & Hsilent & _).
    + split; [reflexivity|]. split; [reflexivity|]. exists []. split; reflexivity.
    + reflexivity.
    + exact I.
    + exists final. split; [exact Hf|]. apply Hsilent. reflexivity.
  - destruct (timeout_single_response plain_runtime demo_server
                (request "POST" "/lingering" (Some "Bearer s3cret") [])
                (exact_route "POST" "/lingering" lingering) ∅ None)
      as (_ & final & Hf & _ & Hsent & _).
    + split; [reflexivity|]. split; [reflexivity|]. exists []. split; reflexivity.
    + reflexivity.
    + exact I.
    + exists final. split; [exact Hf|]. rewrite Hsent; reflexivity.
Defined.

End ServerProofs.

(** ** Backlinks and outlinks *)

Module LinksProofs.
Import Js Obsidian Platform Utils Routes Links Fixtures.

Lemma substring_all s : substring 0 (String.length s) s = s.
Proof. induction s as [|c s IH]; simpl; [reflexivity | rewrite IH; reflexivity]. Qed.

Lemma substring_append_r s t :
  substring (String.length s) (String.length t) (s ++ t)%string = t.
Proof. induction s as [|c s IH]; simpl; [apply substring_all | exact IH]. Qed.

Lemma length_append s t :
  String.length (s ++ t)%string = (String.length s + String.length t)%nat.
Proof. induction s as [|c s IH]; simpl; [reflexivity | rewrite IH; reflexivity]. Qed.

Lemma endsWith_append s t : endsWith (s ++ t)%string t = true.
Proof.
  unfold endsWith. rewrite length_append.
  replace (String.length s + String.length t - String.length t)%nat
    with (String.length s) by lia.
  rewrite substring_append_r, String.eqb_refl, andb_true_r.
  apply Nat.leb_le. lia.
Qed.

Lemma normalizePath_md p : endsWith (normalizePath p) ".md" = true.
Proof.
  unfold normalizePath.
  destruct (endsWith (if startsWith p "/" then slice_from 1 p else p) ".md") eqn:E;
    [exact E | apply endsWith_append].
Qed.

Section Symmetry.
Variable rt : Runtime.
Variable app : App.

Lemma outlink_of_link_resolved sourcePath content all ls : forall st,
  (forall l, In l ls -> In l all) ->
  (forall e, In e (fst st) -> li_exists e = true -> from_resolved app sourcePath all e) ->
  forall e, In e (fst (fold_left (outlink_of_link rt app sourcePath content) ls st)) ->
    li_exists e = true -> from_resolved app sourcePath all e.
Proof.
  induction ls as [|l ls IH]; intros st Hall Hst; simpl; [exact Hst|].
  apply IH; [intros; apply Hall; right; assumption|].
  destruct st as [outs seen]. unfold outlink_of_link.
  destruct (bool_decide _); [exact Hst|]. simpl.
  intros e He Hex. apply in_app_or in He as [He|[<-|[]]]; [apply Hst; assumption|].
  simpl in Hex.
  destruct (getFirstLinkpathDest app (link l) sourcePath) as [r|] eqn:Hr; [|discriminate].
  exists l, r. split; [apply Hall; left; reflexivity|]. split; [exact Hr | reflexivity].
Qed.

Lemma outlink_of_embed_resolved sourcePath content all ls : forall st,
  (forall l, In l ls -> In l all) ->
  (forall e, In e (fst st) -> li_exists e = true -> from_resolved app sourcePath all e) ->
  forall e, In e (fst (fold_left (outlink_of_embed rt app sourcePath content) ls st)) ->
    li_exists e = true -> from_resolved app sourcePath all e.
Proof.
  induction ls as [|l ls IH]; intros st Hall Hst; simpl; [exact Hst|].
  apply IH; [intros; apply Hall; right; assumption|].
  destruct st as [outs seen]. unfold outlink_of_embed.
  destruct (bool_decide _); [exact Hst|].
  destruct (getFirstLinkpathDest app (link l) sourcePath) as [r|] eqn:Hr; [|exact Hst].
  destruct (String.eqb (extension r) "md"); [|exact Hst]. simpl.
  intros e He Hex. apply in_app_or in He as [He|[<-|[]]]; [apply Hst; assumption|].
  exists l, r. split; [apply Hall; left; reflexivity|]. split; [exact Hr | reflexivity].
Qed.

Lemma outlinks_resolved params_path X es e :
  getAbstractFileByPath app (normalizePath params_path) = Some (AFile X) ->
  outlinks rt app params_path = ReplyJson es ->
  In e es -> li_exists e = true ->
  vault_read app X <> None /\
  from_resolved app (normalizePath params_path) (all_links (getFileCache app X)) e.
Proof.
  intros HX Ho He Hex. unfold outlinks in Ho. rewrite HX in Ho.
  destruct (vault_read app X) as [content|]; [|discriminate].
  split; [discriminate|]. injection Ho as <-.
  set (sp := normalizePath params_path) in *.
  destruct (getFileCache app X) as [c|]; [|destruct He].
  unfold all_links.
  set (all := (match links c with Some l => l | None => [] end)
              ++ (match embeds c with Some l => l | None => [] end)).
  set (st1 := match links c with
              | Some ls => fold_left (outlink_of_link rt app sp content) ls ([], ∅)
              | None => ([], ∅)
              end) in *.
  assert (H1 : forall e, In e (fst st1) -> li_exists e = true -> from_resolved app sp all e).
  { subst st1. destruct (links c) as [ls|] eqn:El; [|intros ? []].
    apply outlink_of_link_resolved; [|intros ? []].
    intros l Hl. subst all. apply in_or_app. left. exact Hl. }
  destruct (embeds c) as [es'|] eqn:Ee; [|apply H1; assumption].
  revert e He Hex. apply outlink_of_embed_resolved; [|exact H1].
  intros l Hl. subst all. apply in_or_app. right. exact Hl.
Qed.

(** C3 (amended). For two different notes X and Y: if the outlinks of X
    report an existing reference whose path is Y's, Y's path is the only
    one with that extension-less form among the files X's references
    resolve to, and the link pattern built from Y's name is a valid
    regular expression, then the backlinks of Y include X. *)
Theorem outlink_implies_backlink px py X Y es e :
  vault_ok app ->
  getAbstractFileByPath app (normalizePath px) = Some (AFile X) ->
  getAbstractFileByPath app (normalizePath py) = Some (AFile Y) ->
  path X <> path Y ->
  link_regexp rt (basename Y) <> None ->
  (forall l r, getFirstLinkpathDest app l (path X) = Some r ->
     replace_md_ext (path r) = replace_md_ext (path Y) -> path r = path Y) ->
  outlinks rt app px = ReplyJson es ->
  In e es -> li_exists e = true -> li_path e = replace_md_ext (path Y) ->
  exists bs b,
    backlinks rt app py = ReplyJson bs /\
    In b bs /\
    ni_path (bl_info b) = replace_md_ext (path X).
Proof.
  intros Hok HX HY Hxy Hre Hinj Ho He Hex Hpath.
  destruct (Hok _ _ HX) as [HpX HinX]. destruct (Hok _ _ HY) as [HpY _].
  specialize (HinX (normalizePath_md px)).
  destruct (outlinks_resolved px X es e HX Ho He Hex) as [Hread (l & r & Hl & Hr & Hp)].
  rewrite <- HpX in Hr.
  assert (Hry : path r = path Y) by (apply (Hinj (link l)); [exact Hr | congruence]).
  unfold backlinks. rewrite HY. eexists. 
  assert (Hentry : exists b, backlink_entry rt app Y (normalizePath py) X = [b] /\
                             ni_path (bl_info b) = replace_md_ext (path X)).
  { unfold backlink_entry. rewrite <- HpY.
    destruct (String.eqb_spec (path X) (path Y)); [contradiction|].
    unfold all_links in Hl.
    destruct (getFileCache app X) as [c|]; [|destruct Hl].
    assert (Hex' : existsb (resolves_to app X (path Y))
                     ((match links c with Some l => l | None => [] end)
                      ++ (match embeds c with Some l => l | None => [] end)) = true).
    { apply existsb_exists. exists l. split; [exact Hl|].
      unfold resolves_to. rewrite Hr. apply String.eqb_eq, Hry. }
    destruct (vault_read app X) as [content|]; [|congruence].
    destruct (link_regexp rt (basename Y)) as [re|]; [|congruence].
    destruct (links c) as [ls|], (embeds c) as [es'|];
      try (rewrite Hex'; eexists; split; reflexivity).
    destruct Hl. }
  destruct Hentry as (b & Hb & Hbp). exists b.
  split; [reflexivity|]. split; [|exact Hbp].
  apply in_flat_map. exists X. split; [exact HinX|]. rewrite Hb. left. reflexivity.
Qed.

End Symmetry.

(** C3 (counterexample). A note that links to itself is reported by its
    own outlinks as an existing reference and is missing from its own
    backlinks, which are empty. *)
Lemma self_link_not_backlinked :
  (exists es e,
      outlinks plain_runtime self_vault "S" = ReplyJson es /\
      In e es /\ li_exists e = true /\ li_path e = "S") /\
  backlinks plain_runtime self_vault "S" = ReplyJson [] /\
  ~ (exists bs b,
        backlinks plain_runtime self_vault "S" = ReplyJson bs /\
        In b bs /\ ni_path (bl_info b) = "S").
Proof.
  split; [|split].
  - exists [ {| li_path := "S"; li_title := "S"; li_exists := true;
                li_context := "[[S]]" |} ].
    eexists. split; [vm_compute; reflexivity|].
    split; [left; reflexivity|]. split; reflexivity.
  - vm_compute. reflexivity.
  - intros (bs & b & Hbs & Hb & _).
    assert (E : backlinks plain_runtime self_vault "S" = ReplyJson []) by (vm_compute; reflexivity).
    rewrite E in Hbs. injection Hbs as <-. destruct Hb.
Qed.

Lemma cycle_vault_ok : vault_ok cycle_vault.
Proof.
  intros p f H.
  change ((if String.eqb "A.md" p || (String.eqb "B.md" p || false)
           then Some (AFile (note (replace_md_ext p))) else None) = Some (AFile f)) in H.
  destruct (String.eqb_spec "A.md" p) as [<-|HA]; cbn [orb] in H.
  - injection H as <-. split; [reflexivity|]. intros _. left. reflexivity.
  - destruct (String.eqb_spec "B.md" p) as [<-|HB]; cbn [orb] in H; [|discriminate].
    injection H as <-. split; [reflexivity|]. intros _. right. left. reflexivity.
Qed.

Lemma outlink_implies_backlink_witness :
  exists bs b,
    backlinks plain_runtime cycle_vault "B" = ReplyJson bs /\
    In b bs /\
    ni_path (bl_info b) = "A".
Proof.
  apply (outlink_implies_backlink plain_runtime cycle_vault "A" "B" (note "A") (note "B")
           [ {| li_path := "B"; li_title := "B"; li_exists := true;
                li_context := "[[B]]" |} ]
           {| li_path := "B"; li_title := "B"; li_exists := true;
              li_context := "[[B]]" |}).
  - exact cycle_vault_ok.
  - reflexivity.
  - reflexivity.
  - discriminate.
  - discriminate.
  - intros l r H E.
    change ((if String.eqb l "A" || (String.eqb l "B" || false)
             then Some (note l) else None) = Some r) in H.
    destruct (String.eqb_spec l "A") as [->|_]; cbn [orb] in H.
    + injection H as <-. vm_compute in E. discriminate.
    + destruct (String.eqb_spec l "B") as [->|_]; cbn [orb] in H; [|discriminate].
      injection H as <-. reflexivity.
  - vm_compute. reflexivity.
  - left. reflexivity.
  - reflexivity.
  - reflexivity.
Defined.

End LinksProofs.

(** ** Bulk scans *)

Module BatchProofs.
Import Js Obsidian Platform Utils Routes Fixtures.

Section Batches.
Context {T R St : Type}.
Variable processor : T -> St -> St * Outcome (option R).

Lemma run_batch_app (l1 l2 : list T) (s : St) :
  run_batch processor (l1 ++ l2) s =
  (fst (run_batch processor l1 s)
     ++ fst (run_batch processor l2 (snd (run_batch processor l1 s))),
   snd (run_batch processor l2 (snd (run_batch processor l1 s)))).
Proof.
  revert s. induction l1 as [|x l1 IH]; intros s; simpl.
  - destruct (run_batch processor l2 s); reflexivity.
  - destruct (processor x s) as [s1 o]. rewrite IH.
    destruct (run_batch processor l1 s1) as [rs s2]. reflexivity.
Qed.

Lemma non_null_app (a b : list (option R)) : non_null (a ++ b) = non_null a ++ non_null b.
Proof. unfold non_null. apply flat_map_app. Qed.

(** The loop returns what processing the remaining items one after the
    other returns, whatever the batch width. *)
Lemma processBatch_loop_spec (items : list T) (batchSize : nat) :
  (0 < batchSize)%nat ->
  forall fuel i results s,
    (length items - i <= fuel)%nat ->
    processBatch_loop processor fuel items batchSize i results s =
    Some (results ++ non_null (fst (run_batch processor (skipn i items) s)),
          snd (run_batch processor (skipn i items) s)).
Proof.
  intros Hbs. induction fuel as [|fuel IH]; intros i results s Hf; simpl.
  - destruct (Nat.leb_spec (length items) i) as [Hle|Hlt]; [|lia].
    rewrite skipn_all2 by exact Hle. simpl. rewrite app_nil_r. reflexivity.
  - destruct (Nat.leb_spec (length items) i) as [Hle|Hlt].
    + rewrite skipn_all2 by exact Hle. simpl. rewrite app_nil_r. reflexivity.
    + unfold array_slice. replace (i + batchSize - i)%nat with batchSize by lia.
      rewrite <- (firstn_skipn batchSize (skipn i items)) at 2 3.
      rewrite run_batch_app.
      destruct (run_batch processor (firstn batchSize (skipn i items)) s)
        as [batchResults s'] eqn:E. cbn [fst snd].
      rewrite IH by lia. rewrite skipn_skipn, (Nat.add_comm batchSize i).
      rewrite non_null_app, app_assoc. reflexivity.
Qed.

Lemma processBatch_spec (items : list T) (batchSize : nat) (s : St) :
  (0 < batchSize)%nat ->
  processBatch processor items batchSize s =
  Some (non_null (fst (run_batch processor items s)),
        snd (run_batch processor items s)).
Proof.
  intros Hbs. unfold processBatch.
  rewrite processBatch_loop_spec by (assumption || lia). reflexivity.
Qed.

(** An item on which the processor throws, having changed nothing,
    leaves no trace in the results or in the state. *)
Lemma run_batch_skip (before after : list T) (bad : T) (s : St) :
  (forall s', exists msg, processor bad s' = (s', Throw msg)) ->
  non_null (fst (run_batch processor (before ++ bad :: after) s)) =
  non_null (fst (run_batch processor (before ++ after) s)) /\
  snd (run_batch processor (before ++ bad :: after) s) =
  snd (run_batch processor (before ++ after) s).
Proof.
  intros Hbad. rewrite !run_batch_app. cbn [fst snd].
  set (s1 := snd (run_batch processor before s)).
  simpl. destruct (Hbad s1) as [msg ->].
  destruct (run_batch processor after s1) as [rs s2]. cbn [fst snd].
  rewrite !non_null_app. split; reflexivity.
Qed.

(** A loop whose state is untouched by the items outside [keep]. *)
Lemma run_batch_filter (keep : T -> bool) (l : list T) (s : St) :
  (forall x s', keep x = false -> fst (processor x s') = s') ->
  snd (run_batch processor l s) = snd (run_batch processor (List.filter keep l) s).
Proof.
  intros Hk. revert s. induction l as [|x l IH]; intros s; simpl; [reflexivity|].
  destruct (keep x) eqn:E; simpl.
  - destruct (processor x s) as [s1 o]. specialize (IH s1).
    destruct (run_batch processor l s1), (run_batch processor (List.filter keep l) s1).
    exact IH.
  - specialize (Hk x s E). destruct (processor x s) as [s1 o]. simpl in Hk. subst s1.
    specialize (IH s). destruct (run_batch processor l s). exact IH.
Qed.

(** An invariant of the state over the items that satisfy [ok]. *)
Lemma run_batch_state_inv (ok : T -> Prop) (P : St -> Prop) :
  (forall x s, ok x -> P s -> P (fst (processor x s))) ->
  forall l s, (forall x, In x l -> ok x) -> P s -> P (snd (run_batch processor l s)).
Proof.
  intros Hstep. induction l as [|x l IH]; intros s Hl Hs; simpl; [exact Hs|].
  pose proof (Hstep x s (Hl x (or_introl eq_refl)) Hs) as H1.
  destruct (processor x s) as [s1 o]. simpl in H1.
  specialize (IH s1 (fun y Hy => Hl y (or_intror Hy)) H1).
  destruct (run_batch processor l s1). exact IH.
Qed.

End Batches.

Lemma In_insert_sorted {A} (le : A -> A -> bool) (x y : A) (l : list A) :
  In x (insert_sorted le y l) -> x = y \/ In x l.
Proof.
  induction l as [|z l IH]; simpl.
  - intros [<-|[]]. left. reflexivity.
  - destruct (le y z); simpl.
    + intros [<-|H]; [left; reflexivity | right; exact H].
    + intros [<-|H]; [right; left; reflexivity|].
      destruct (IH H) as [->|H']; [left; reflexivity | right; right; exact H'].
Qed.

Lemma In_stable_sort {A} (le : A -> A -> bool) (x : A) (l : list A) :
  In x (stable_sort le l) -> In x l.
Proof.
  unfold stable_sort. induction l as [|y l IH]; simpl; [tauto|].
  intros H. apply In_insert_sorted in H as [->|H]; [left; reflexivity | right; apply IH, H].
Qed.

Lemma In_firstn {A} (x : A) n (l : list A) : In x (firstn n l) -> In x l.
Proof.
  revert l. induction n as [|n IH]; intros [|y l]; simpl; try tauto.
  intros [H|H]; [left; exact H | right; apply IH, H].
Qed.

Lemma In_array_slice0 {A} (x : A) (l : list A) k : In x (array_slice0 l k) -> In x l.
Proof. unfold array_slice0. destruct (k <? 0); apply In_firstn. Qed.

Lemma filter_comm {A} (p q : A -> bool) (l : list A) :
  List.filter p (List.filter q l) = List.filter q (List.filter p l).
Proof.
  induction l as [|x l IH]; simpl; [reflexivity|].
  destruct (p x) eqn:Ep, (q x) eqn:Eq; simpl; rewrite ?Ep, ?Eq, IH; reflexivity.
Qed.

Lemma flat_map_filter {A B} (keep : A -> bool) (f : A -> list B) (l : list A) :
  (forall x, keep x = false -> f x = []) ->
  flat_map f l = flat_map f (List.filter keep l).
Proof.
  intros H. induction l as [|x l IH]; simpl; [reflexivity|].
  destruct (keep x) eqn:E; simpl; rewrite IH; [reflexivity|].
  rewrite (H x E). reflexivity.
Qed.

Section Isolation.
Variable rt : Runtime.
Variable app : App.

Lemma backlink_entry_unreadable Y tp f :
  readable app f = false -> Links.backlink_entry rt app Y tp f = [].
Proof.
  unfold readable, Links.backlink_entry. intros H.
  destruct (String.eqb _ _); [reflexivity|].
  destruct (getFileCache app f) as [c|]; [|reflexivity].
  destruct (vault_read app f); [discriminate|].
  destruct (links c), (embeds c); try reflexivity;
    destruct (existsb _ _); reflexivity.
Qed.

Lemma backlinks_with_files files p :
  List.filter (readable app) (getMarkdownFiles app) = List.filter (readable app) files ->
  Links.backlinks rt app p = Links.backlinks rt (with_files app files) p.
Proof.
  intros Hfiles. unfold Links.backlinks. cbn [getAbstractFileByPath getMarkdownFiles with_files].
  destruct (getAbstractFileByPath app (normalizePath p)) as [[Y|?]|]; try reflexivity.
  f_equal.
  change (Links.backlink_entry rt (with_files app files) Y (normalizePath p))
    with (Links.backlink_entry rt app Y (normalizePath p)).
  rewrite (flat_map_filter (readable app) _ (getMarkdownFiles app))
    by (intros; apply backlink_entry_unreadable; assumption).
  rewrite (flat_map_filter (readable app) _ files)
    by (intros; apply backlink_entry_unreadable; assumption).
  rewrite Hfiles. reflexivity.
Qed.

Lemma filter_drop_unreadable before bad after :
  readable app bad = false ->
  List.filter (readable app) (before ++ bad :: after) =
  List.filter (readable app) (before ++ after).
Proof.
  intros H. rewrite !List.filter_app. simpl. rewrite H. reflexivity.
Qed.

Lemma backlinks_from_readable p bs :
  Links.backlinks rt app p = ReplyJson bs ->
  forall b, In b bs -> Links.backlink_from_readable app b.
Proof.
  unfold Links.backlinks.
  destruct (getAbstractFileByPath app (normalizePath p)) as [[Y|?]|]; try discriminate.
  intros H. injection H as <-. intros b Hb.
  apply in_flat_map in Hb as (f & Hf & Hb). unfold Links.backlink_entry in Hb.
  destruct (String.eqb _ _); [destruct Hb|].
  destruct (getFileCache app f) as [c|] eqn:Hc; [|destruct Hb].
  assert (Hgo : forall all,
    In b (if existsb (Links.resolves_to app f (normalizePath p)) all
          then match vault_read app f with
               | None => []
               | Some content =>
                   match link_regexp rt (basename Y) with
                   | None => []
                   | Some re =>
                       [ {| Links.bl_info := fileToNoteInfo app f (Some c);
                            Links.bl_context := match re content with
                                                | Some m => getContext rt content m
                                                | None => ""
                                                end |} ]
                   end
               end
          else []) ->
    Links.backlink_from_readable app b).
  { intros all Hin. destruct (existsb _ _); [|destruct Hin].
    destruct (vault_read app f) as [content|] eqn:Hread; [|destruct Hin].
    destruct (link_regexp rt (basename Y)); [|destruct Hin].
    destruct Hin as [<-|[]]. exists f, content. rewrite Hc. auto. }
  destruct (links c), (embeds c); try (eapply Hgo; exact Hb). destruct Hb.
Qed.

End Isolation.

End BatchProofs.

(** ** More on the dispatcher *)

Module DispatchProofs.
Import Js Obsidian Platform Utils Server Dispatch Fixtures.

(** *** Routing *)

Lemma find_route_none rs m p :
  find_route rs m p = None <-> forall r, In r rs -> route_matches r m p = false.
Proof.
  unfold route_matches. induction rs as [|r rs IH]; simpl.
  - split; [intros _ r [] | reflexivity].
  - destruct (String.eqb (method r) m) eqn:Em; simpl.
    + destruct (pattern r p) as [g|] eqn:Ep.
      * split; [discriminate|]. intros H. specialize (H r (or_introl eq_refl)).
        rewrite Em, Ep in H. discriminate.
      * rewrite IH. split.
        -- intros H r' [<-|Hr]; [rewrite Em, Ep; reflexivity | apply H, Hr].
        -- intros H r' Hr. apply H. right. exact Hr.
    + rewrite IH. split.
      * intros H r' [<-|Hr]; [rewrite Em; reflexivity | apply H, Hr].
      * intros H r' Hr. apply H. right. exact Hr.
Qed.

Lemma find_route_some rs m p r g :
  find_route rs m p = Some (r, g) ->
  exists before after,
    rs = before ++ r :: after /\
    (forall r', In r' before -> route_matches r' m p = false) /\
    method r = m /\ pattern r p = Some g.
Proof.
  unfold route_matches. induction rs as [|r0 rs IH]; simpl; [discriminate|].
  destruct (String.eqb (method r0) m) eqn:Em; simpl.
  - destruct (pattern r0 p) as [g0|] eqn:Ep.
    + intros H. injection H as <- <-. exists [], rs.
      split; [reflexivity|]. split; [intros ? []|].
      split; [apply String.eqb_eq, Em | exact Ep].
    + intros H. destruct (IH H) as (b & a & -> & Hb & Hm & Hp).
      exists (r0 :: b), a. split; [reflexivity|]. split; [|auto].
      intros r' [<-|Hr]; [rewrite Em, Ep; reflexivity | apply Hb, Hr].
  - intros H. destruct (IH H) as (b & a & -> & Hb & Hm & Hp).
    exists (r0 :: b), a. split; [reflexivity|]. split; [|auto].
    intros r' [<-|Hr]; [rewrite Em; reflexivity | apply Hb, Hr].
Qed.

(** X1. Routing is first-match in registration order: the route that
    [handleRequest] runs for an authenticated request is the first one
    whose method equals the request's and whose pattern matches the
    path; if no route does, the answer is the 404 response that names
    the method and the path, whatever the body is. *)
Theorem first_match_routing rt srv req :
  String.eqb (pathname req) "/health" && String.eqb (method_of req) "GET" = false ->
  checkAuth (authToken srv) (authorization req) = true ->
  (forall route groups,
      find_route (routes srv) (method_of req) (pathname req) = Some (route, groups) ->
      handleRequest rt srv req fresh_res = run_route rt route groups req fresh_res /\
      exists before after,
        routes srv = before ++ route :: after /\
        (forall r, In r before -> route_matches r (method_of req) (pathname req) = false) /\
        route_matches route (method_of req) (pathname req) = true) /\
  ((forall r, In r (routes srv) -> route_matches r (method_of req) (pathname req) = false) ->
   forall b,
     handleRequest rt srv (with_body req b) fresh_res =
     Returned (sent (not_found_response (method_of req) (pathname req)))).
Proof.
  intros Hh Ha. split.
  - intros route groups Hf. split.
    + unfold handleRequest. rewrite Hh, Ha, Hf. reflexivity.
    + destruct (find_route_some _ _ _ _ _ Hf) as (b & a & E & Hb & Hm & Hp).
      exists b, a. split; [exact E|]. split; [exact Hb|].
      unfold route_matches. rewrite Hm, Hp, String.eqb_refl. reflexivity.
  - intros Hnone b. apply find_route_none in Hnone.
    unfold handleRequest. change (pathname (with_body req b)) with (pathname req).
    change (method_of (with_body req b)) with (method_of req).
    change (authorization (with_body req b)) with (authorization req).
    rewrite Hh, Ha, Hnone. reflexivity.
Qed.

Lemma first_match_routing_witness :
  handleRequest plain_runtime demo_server
    (request "POST" "/stuck" (Some "Bearer s3cret") []) fresh_res
  = run_route plain_runtime (exact_route "POST" "/stuck" stuck) []
      (request "POST" "/stuck" (Some "Bearer s3cret") []) fresh_res.
Proof.
  destruct (first_match_routing plain_runtime demo_server
              (request "POST" "/stuck" (Some "Bearer s3cret") []) eq_refl eq_refl)
    as [Hsome _].
  destruct (Hsome (exact_route "POST" "/stuck" stuck) [] eq_refl) as [H _]. exact H.
Defined.

(** *** Requests without credentials *)

(** X2. A request that fails the authentication check never reaches a
    route handler, the body parser or the vault: whatever the routes,
    the vault, the origin and the body are, the connection callback
    answers it in one of four ways and no other.  A preflight (method
    OPTIONS) gets the preflight reply.  A target that [new URL] refuses
    makes [handleRequest] throw in its first statement, before the
    authentication check, and the callback's [catch] answers 500 with
    the error's text.  Otherwise GET /health gets the basic health
    record, and everything else the 401 response. *)
Theorem no_access_without_credentials describe URL_pathname rt srv inc :
  checkAuth (authToken srv) (inc_authorization inc) = false ->
  on_request describe URL_pathname rt srv inc =
  if String.eqb (inc_method inc) "OPTIONS"
  then Preflight (cors_origin (inc_origin inc))
  else match URL_pathname (target inc) with
       | None =>
           Dispatched (cors_origin (inc_origin inc))
                      (sent (internal_error_response (describe "Invalid URL")))
       | Some p =>
           if String.eqb p "/health" &&
              String.eqb (match inc_method inc with EmptyString => "GET" | m => m end) "GET"
           then Dispatched (cors_origin (inc_origin inc))
                           (sent {| status := 200; payload := health_basic |})
           else Dispatched (cors_origin (inc_origin inc)) (sent unauthorized_response)
       end.
Proof.
  intros Ha. unfold on_request, handle.
  destruct (String.eqb (inc_method inc) "OPTIONS"); [reflexivity|].
  destruct (URL_pathname (target inc)) as [p|]; [|reflexivity].
  unfold handleRequest, method_of. cbn [pathname req_method authorization parsed_request].
  rewrite Ha.
  destruct (String.eqb p "/health" &&
            String.eqb (match inc_method inc with EmptyString => "GET" | m => m end) "GET");
    reflexivity.
Qed.

Lemma no_access_without_credentials_witness :
  on_request (fun m => m) sample_pathname plain_runtime demo_server
    (incoming "POST" "/quick" (Some "Bearer guess") ["{}"])
  = Dispatched None (sent unauthorized_response) /\
  on_request (fun m => m) sample_pathname plain_runtime demo_server
    (incoming "POST" "//" (Some "Bearer guess") ["{}"])
  = Dispatched None (sent (internal_error_response "Invalid URL")) /\
  on_request (fun m => m) sample_pathname plain_runtime demo_server
    (incoming "GET" "/health" None [])
  = Dispatched None (sent {| status := 200; payload := health_basic |}).
Proof.
  split; [|split].
  - apply (no_access_without_credentials (fun m => m) sample_pathname plain_runtime
             demo_server (incoming "POST" "/quick" (Some "Bearer guess") ["{}"])).
    reflexivity.
  - apply (no_access_without_credentials (fun m => m) sample_pathname plain_runtime
             demo_server (incoming "POST" "//" (Some "Bearer guess") ["{}"])).
    reflexivity.
  - apply (no_access_without_credentials (fun m => m) sample_pathname plain_runtime
             demo_server (incoming "GET" "/health" None [])).
    reflexivity.
Defined.

(** *** Secrets that no header can present *)

Lemma split_aux_no_sep sep s : forall cur p,
  ~ In sep (list_ascii_of_string cur) ->
  In p (split_aux sep s cur) -> ~ In sep (list_ascii_of_string p).
Proof.
  induction s as [|c s IH]; intros cur p Hcur; simpl.
  - intros [<-|[]]. exact Hcur.
  - destruct (Ascii.eqb_spec c sep) as [->|Hne].
    + intros [<-|Hp]; [exact Hcur|]. apply (IH "" p); [intros [] | exact Hp].
    + apply IH. intros Hin. apply Hcur.
      clear - Hin Hne. induction cur as [|d cur IHc]; simpl in *.
      * destruct Hin as [E|[]]. congruence.
      * destruct Hin as [E|Hin]; [left; exact E | right; apply IHc, Hin].
Qed.

Lemma list_byte_of_string_inj s t :
  list_byte_of_string s = list_byte_of_string t -> s = t.
Proof.
  intros H. rewrite <- (string_of_list_byte_of_string s),
    <- (string_of_list_byte_of_string t), H. reflexivity.
Qed.

(** X3. A configured secret that contains a space can never be
    presented: the header is cut at spaces and only its second piece is
    compared, so every request -- with or without a header, whatever it
    says -- fails the check. *)
Theorem secret_with_space_rejects_all secret :
  has_space secret -> forall header, checkAuth (Some secret) header = false.
Proof.
  intros Hsp header.
  assert (Hne : secret <> "") by (intros ->; destruct Hsp).
  destruct header as [header|];
    [|unfold checkAuth, checkAuthWith; destruct secret; [congruence | reflexivity]].
  unfold checkAuth. rewrite ServerProofs.checkAuthWith_configured by exact Hne.
  unfold presented_token.
  destruct (nth_error (split " "%char header) 1) as [token|] eqn:E; [|reflexivity].
  apply nth_error_In in E. unfold split in E.
  apply split_aux_no_sep in E; [|intros []].
  unfold timingSafeEqual.
  destruct (length (Buffer_from token) =? length (Buffer_from secret))%nat;
    [|apply andb_false_r].
  destruct (bytes_eqb (Buffer_from token) (Buffer_from secret)) eqn:Eb;
    [|apply andb_false_r].
  apply ServerProofs.bytes_eqb_eq, list_byte_of_string_inj in Eb. subst token.
  contradiction.
Qed.

Lemma secret_with_space_rejects_all_witness :
  checkAuth (Some "two words") (Some "Bearer two words") = false.
Proof.
  apply (secret_with_space_rejects_all "two words").
  unfold has_space. simpl. tauto.
Defined.

(** *** Body ingestion *)

Lemma total_size_concat cs :
  total_size cs = Z.of_nat (String.length (String.concat "" cs)).
Proof.
  induction cs as [|c cs IH]; [reflexivity|].
  change (total_size (c :: cs)) with (Z.of_nat (String.length c) + total_size cs).
  rewrite IH. destruct cs as [|c' cs].
  - change (String.concat "" [c]) with c. change (String.concat "" []) with "".
    change (String.length "") with 0%nat. rewrite Nat2Z.inj_0, Z.add_0_r. reflexivity.
  - change (String.concat "" (c :: c' :: cs))
      with (c ++ "" ++ String.concat "" (c' :: cs))%string.
    rewrite LinksProofs.length_append. change ("" ++ ?x)%string with x.
    symmetry. apply Nat2Z.inj_add.
Qed.

Lemma parseBody_bytes rt cs e :
  parseBody rt {| chunks := cs; ending := e |} =
  if MAX_BODY_SIZE <? Z.of_nat (String.length (String.concat "" cs))
  then Throw "Request body too large"
  else match e with
       | StreamError m => Throw m
       | EndOfStream =>
           match String.concat "" cs with
           | EmptyString => Ok None
           | text => match JSON_parse rt text with
                     | Some v => Ok (Some v)
                     | None => Ok (Some (JStr text))
                     end
           end
       end.
Proof.
  rewrite <- total_size_concat.
  destruct (Z.ltb_spec MAX_BODY_SIZE (total_size cs)) as [H|H].
  - apply ServerProofs.parseBody_beyond, H.
  - unfold parseBody. cbn [chunks ending].
    rewrite ServerProofs.read_chunks_within by lia. reflexivity.
Qed.

(** X4. The parsed body depends on the bytes received, not on how the
    transport cut them into chunks: two streams that carry the same
    bytes and end the same way give the same result, be it a value, the
    raw text, nothing, or a rejection. *)
Theorem parseBody_chunking_irrelevant rt cs cs' e :
  String.concat "" cs = String.concat "" cs' ->
  parseBody rt {| chunks := cs; ending := e |} =
  parseBody rt {| chunks := cs'; ending := e |}.
Proof. intros H. rewrite !parseBody_bytes, H. reflexivity. Qed.

Lemma parseBody_chunking_irrelevant_witness :
  parseBody plain_runtime {| chunks := ["[1,"; "2]"]; ending := EndOfStream |} =
  parseBody plain_runtime {| chunks := ["["; ""; "1,2]"]; ending := EndOfStream |}.
Proof. apply parseBody_chunking_irrelevant. reflexivity. Defined.

(** X5. Text that is not JSON is not a client error: for a routed
    request whose body arrives completely, within the size cap, and does
    not parse, the handler runs with the raw text as its body; the 400
    response is sent only when the stream itself fails. *)
Theorem malformed_json_reaches_handler rt srv req route params cs :
  routed rt srv req route params ->
  total_size cs <= MAX_BODY_SIZE ->
  String.concat "" cs <> "" ->
  JSON_parse rt (String.concat "" cs) = None ->
  handleRequest rt srv (with_body req {| chunks := cs; ending := EndOfStream |}) fresh_res =
  execute (handler route (with_body req {| chunks := cs; ending := EndOfStream |})
                   params (Some (JStr (String.concat "" cs)))) fresh_res /\
  forall m,
    handleRequest rt srv (with_body req {| chunks := cs; ending := StreamError m |}) fresh_res =
    Returned (sent (if String.eqb m "Request body too large"
                    then too_large_response else parse_failure_response)).
Proof.
  intros Hr Hsz Hne Hj. split.
  - rewrite (ServerProofs.handleRequest_routed rt srv _ route params)
      by (apply ServerProofs.routed_with_body, Hr).
    cbn [body with_body]. rewrite (ServerProofs.destroys_within cs _ Hsz).
    rewrite parseBody_bytes, <- total_size_concat.
    destruct (Z.ltb_spec MAX_BODY_SIZE (total_size cs)); [lia|].
    revert Hne Hj. destruct (String.concat "" cs) as [|c text]; intros Hne Hj;
      [congruence|].
    cbv zeta. rewrite Hj. reflexivity.
  - intros m.
    rewrite (ServerProofs.handleRequest_routed rt srv _ route params)
      by (apply ServerProofs.routed_with_body, Hr).
    cbn [body with_body]. rewrite (ServerProofs.destroys_within cs _ Hsz).
    rewrite parseBody_bytes, <- total_size_concat.
    destruct (Z.ltb_spec MAX_BODY_SIZE (total_size cs)); [lia|].
    destruct (String.eqb m "Request body too large"); reflexivity.
Qed.

Lemma malformed_json_reaches_handler_witness :
  handleRequest plain_runtime demo_server
    (request "POST" "/quick" (Some "Bearer s3cret") ["not json"]) fresh_res =
  execute (quick (request "POST" "/quick" (Some "Bearer s3cret") ["not json"])
                 ∅ (Some (JStr "not json"))) fresh_res.
Proof.
  refine (proj1 (malformed_json_reaches_handler plain_runtime demo_server
                   (request "POST" "/quick" (Some "Bearer s3cret") [])
                   (exact_route "POST" "/quick" quick) ∅ ["not json"] _ _ _ _)).
  - split; [reflexivity|]. split; [reflexivity|]. exists []. split; reflexivity.
  - vm_compute. discriminate.
  - discriminate.
  - reflexivity.
Defined.

(** *** One response per request *)

Lemma finish_write_single r res :
  intact res -> single res ->
  match finish (write r res) res with
  | Returned res' | Failed res' _ => intact res' /\ single res' /\ wire res' <> []
  end.
Proof.
  intros [Hd Hq] [[He Hw]|[He Hw]]; unfold write; rewrite He; simpl.
  - rewrite Hd. simpl. split; [split; simpl; auto|].
    split; [right; simpl; rewrite Hw; auto | rewrite Hw; discriminate].
  - split; [split; assumption|]. split; [right; auto|].
    intros E. rewrite E in Hw. discriminate.
Qed.

Lemma fold_send_nonempty l r res :
  intact res -> single res -> wire (fold_left handler_send (r :: l) res) <> [].
Proof.
  intros [Hd _] Hs. simpl.
  assert (He : writableEnded (handler_send res r) = true /\ wire (handler_send res r) <> []).
  { destruct Hs as [[He Hw]|[He Hw]]; unfold handler_send, write; rewrite He; simpl.
    - rewrite Hd. simpl. split; [reflexivity|]. rewrite Hw. discriminate.
    - split; [exact He|]. intros E. rewrite E in Hw. discriminate. }
  destruct He as [He Hw]. rewrite ServerProofs.handler_send_ended by exact He. exact Hw.
Qed.

Lemma fresh_intact_single : intact fresh_res /\ single fresh_res.
Proof. split; [split; reflexivity | left; split; reflexivity]. Qed.

Lemma res_at_silent run t :
  wire (res_at run t fresh_res) = [] -> forall s, In s (sends run) -> t < fst s.
Proof.
  unfold res_at. intros H s Hs.
  destruct (Z.leb_spec (fst s) t) as [Hle|Hlt]; [|exact Hlt]. exfalso.
  assert (Hin : In (snd s) (map snd (List.filter (fun s => fst s <=? t) (sends run)))).
  { apply in_map, filter_In. split; [exact Hs | apply Z.leb_le, Hle]. }
  destruct (map snd (List.filter (fun s => fst s <=? t) (sends run))) as [|r l];
    [destruct Hin|].
  revert H. apply fold_send_nonempty; apply fresh_intact_single.
Qed.

Lemma res_at_untouched run t :
  wire (res_at run t fresh_res) = [] -> res_at run t fresh_res = fresh_res.
Proof.
  unfold res_at.
  destruct (map snd (List.filter (fun s => fst s <=? t) (sends run))) as [|r l];
    [reflexivity|].
  intros H. exfalso. revert H. apply fold_send_nonempty; apply fresh_intact_single.
Qed.

Lemma single_ended_nonempty res :
  single res -> writableEnded res = true -> wire res <> [].
Proof.
  intros [[He _]|[_ Hw]] E; [congruence|]. intros W. rewrite W in Hw. discriminate.
Qed.

Lemma single_nonempty_ended res : single res -> wire res <> [] -> writableEnded res = true.
Proof. intros [[_ Hw]|[He _]] W; [contradiction | exact He]. Qed.

Lemma single_at_most_one res : single res -> (length (wire res) <= 1)%nat.
Proof. intros [[_ ->]|[_ ->]]; simpl; lia. Qed.

Lemma execute_single run :
  match execute run fresh_res with
  | Returned res =>
      intact res /\ single res /\ (wire res = [] -> silent_success run /\ res = fresh_res)
  | Failed res _ => intact res /\ single res
  end.
Proof.
  unfold execute. destruct (withTimeout run ROUTE_TIMEOUT) as [t s] eqn:Ew.
  destruct (ServerProofs.res_at_intact_single run t) as [Hi Hs].
  destruct s as [|m].
  - split; [exact Hi|]. split; [exact Hs|]. intros Hw. split.
    + exists t.
      unfold withTimeout in Ew. destruct (settle run) as [[t' s']|]; [|discriminate].
      destruct (Z.ltb_spec t' ROUTE_TIMEOUT) as [Hlt|]; [|discriminate].
      injection Ew as -> ->. split; [reflexivity|]. split; [exact Hlt|].
      apply res_at_silent, Hw.
    + apply res_at_untouched, Hw.
  - destruct (String.eqb m "Request timeout"); [|split; assumption].
    destruct (writableEnded (res_at run t fresh_res)) eqn:He; simpl.
    + split; [exact Hi|]. split; [exact Hs|]. intros Hw. exfalso.
      exact (single_ended_nonempty _ Hs He Hw).
    + pose proof (finish_write_single
                    {| status := 504;
                       payload := error_body "INTERNAL_ERROR" "Request timeout" |}
                    _ Hi Hs) as Hf.
      unfold sendError.
      destruct (finish _ _) as [res'|res' m']; destruct Hf as (Hf1 & Hf2 & Hn).
      * split; [exact Hf1|]. split; [exact Hf2|]. intros Hw. contradiction.
      * split; assumption.
Qed.

Lemma read_chunks_aborted cs : forall size acc m,
  read_chunks cs size acc = Aborted m -> m = "Request body too large".
Proof.
  induction cs as [|c cs IH]; intros size acc m; simpl; [discriminate|].
  destruct (size + Z.of_nat (String.length c) >? MAX_BODY_SIZE).
  - intros H. injection H as <-. reflexivity.
  - apply IH.
Qed.

Lemma destroyed_too_large rt b :
  destroys b = true -> parseBody rt b = Throw "Request body too large".
Proof.
  unfold destroys, parseBody.
  destruct (read_chunks (chunks b) 0 []) as [acc|m] eqn:E; [discriminate|].
  intros _. rewrite (read_chunks_aborted _ _ _ _ E). reflexivity.
Qed.

(** What [handleRequest] leaves behind.  Either the response is intact
    and carries at most one response -- none only after a handler that
    resolved in time without sending -- or the request was destroyed for
    its size and the 413 response went nowhere. *)
Lemma handleRequest_outcome rt srv req :
  match handleRequest rt srv req fresh_res with
  | Returned res =>
      (intact res /\ single res /\
       (wire res = [] ->
        exists route groups params parsed,
          find_route (routes srv) (method_of req) (pathname req) = Some (route, groups) /\
          extract_params rt (paramNames route) groups ∅ = Ok params /\
          parseBody rt (body req) = Ok parsed /\
          silent_success (handler route req params parsed) /\
          res = fresh_res)) \/
      (exists route groups params,
          find_route (routes srv) (method_of req) (pathname req) = Some (route, groups) /\
          extract_params rt (paramNames route) groups ∅ = Ok params /\
          destroys (body req) = true /\
          res = lost too_large_response)
  | Failed res _ => intact res /\ single res
  end.
Proof.
  assert (Hsent : forall r,
             intact (sent r) /\ single (sent r) /\
             (wire (sent r) = [] ->
              exists route groups params parsed,
                find_route (routes srv) (method_of req) (pathname req) = Some (route, groups) /\
                extract_params rt (paramNames route) groups ∅ = Ok params /\
                parseBody rt (body req) = Ok parsed /\
                silent_success (handler route req params parsed) /\
                sent r = fresh_res)).
  { intros r. split; [split; reflexivity|]. split; [right; auto | discriminate]. }
  unfold handleRequest.
  destruct (String.eqb (pathname req) "/health" && String.eqb (method_of req) "GET").
  { destruct (negb _); left; apply Hsent. }
  destruct (negb _); [left; apply Hsent|].
  destruct (find_route (routes srv) (method_of req) (pathname req))
    as [[route groups]|] eqn:Ef; [|left; apply Hsent].
  unfold run_route.
  destruct (extract_params rt (paramNames route) groups ∅) as [params|m] eqn:Ep;
    [|apply fresh_intact_single].
  destruct (destroys (body req)) eqn:Ed.
  - rewrite (destroyed_too_large rt _ Ed). right.
    exists route, groups, params. repeat split; assumption.
  - destruct (parseBody rt (body req)) as [parsed|m] eqn:Eb.
    2:{ destruct (String.eqb m "Request body too large"); left; apply Hsent. }
    pose proof (execute_single (handler route req params parsed)) as He.
    destruct (execute (handler route req params parsed) fresh_res) as [res|res m];
      [|exact He].
    destruct He as (H1 & H2 & H3). left. split; [exact H1|]. split; [exact H2|].
    intros W. destruct (H3 W) as [Hs Hr]. exists route, groups, params, parsed. auto.
Qed.

(** X6. Every request gets at most one response.  After the connection
    callback has dealt with a request that is not a preflight, at most
    one response is on the wire, whatever the handler did -- sent twice,
    threw after sending, or overran the deadline -- and a response that
    is on the wire was written to an open socket and ended.  The client
    receives nothing in two cases only, both after a route matched and
    its parameters decoded: the body parsed and the handler resolved
    before the deadline without having sent anything, which leaves the
    response untouched (the client is kept waiting); or the body
    exceeded the size cap, for which [parseBody] destroys the request
    before the 413 response is written, so that the response is ended
    with nothing sent. *)
Theorem one_response_per_request describe URL_pathname rt srv inc :
  match on_request describe URL_pathname rt srv inc with
  | Preflight _ => inc_method inc = "OPTIONS"
  | Dispatched _ res =>
      (length (wire res) <= 1)%nat /\
      (wire res <> [] -> writableEnded res = true /\ destroyed res = false) /\
      (wire res = [] ->
       exists p route groups params,
         URL_pathname (target inc) = Some p /\
         find_route (routes srv) (method_of (parsed_request inc p)) p
         = Some (route, groups) /\
         extract_params rt (paramNames route) groups ∅ = Ok params /\
         ((exists parsed,
             parseBody rt (inc_body inc) = Ok parsed /\
             silent_success (handler route (parsed_request inc p) params parsed) /\
             res = fresh_res) \/
          (destroys (inc_body inc) = true /\ res = lost too_large_response)))
  end.
Proof.
  unfold on_request.
  destruct (String.eqb_spec (inc_method inc) "OPTIONS") as [E|_]; [exact E|].
  assert (Hcatch : forall res m,
             intact res -> single res ->
             let res' := match sendError res 500 "INTERNAL_ERROR" (describe m) with
                         | Ok r => r | Throw _ => res end in
             intact res' /\ single res' /\ wire res' <> []).
  { intros res m Hi Hs. unfold sendError.
    pose proof (finish_write_single
                  {| status := 500;
                     payload := error_body "INTERNAL_ERROR" (describe m) |} _ Hi Hs) as Hf.
    unfold finish in Hf. destruct (write _ res); exact Hf. }
  assert (Hplain : forall res,
             intact res -> single res -> wire res <> [] ->
             (length (wire res) <= 1)%nat /\
             (wire res <> [] -> writableEnded res = true /\ destroyed res = false) /\
             (wire res = [] ->
              exists p route groups params,
                URL_pathname (target inc) = Some p /\
                find_route (routes srv) (method_of (parsed_request inc p)) p
                = Some (route, groups) /\
                extract_params rt (paramNames route) groups ∅ = Ok params /\
                ((exists parsed,
                    parseBody rt (inc_body inc) = Ok parsed /\
                    silent_success (handler route (parsed_request inc p) params parsed) /\
                    res = fresh_res) \/
                 (destroys (inc_body inc) = true /\ res = lost too_large_response)))).
  { intros res Hi Hs Hn. split; [apply single_at_most_one, Hs|]. split.
    - intros _. split; [apply single_nonempty_ended; assumption | apply Hi].
    - intros W. contradiction. }
  unfold handle. destruct (URL_pathname (target inc)) as [p|] eqn:Eu.
  2:{ destruct (Hcatch fresh_res "Invalid URL") as (H1 & H2 & H3);
        try apply fresh_intact_single.
      apply Hplain; assumption. }
  pose proof (handleRequest_outcome rt srv (parsed_request inc p)) as Ho.
  destruct (handleRequest rt srv (parsed_request inc p) fresh_res) as [res|res m].
  - destruct Ho as [(Hi & Hs & Hw)|(route & groups & params & Hf & Hp & Hd & ->)].
    + split; [apply single_at_most_one, Hs|]. split.
      * intros Hn. split; [apply single_nonempty_ended; assumption | apply Hi].
      * intros W. destruct (Hw W) as (route & groups & params & parsed & Hf & Hp & Hb & Hsil & Hr).
        exists p, route, groups, params. split; [reflexivity|]. split; [exact Hf|].
        split; [exact Hp|]. left. exists parsed. auto.
    + split; [simpl; lia|]. split; [intros Hn; exfalso; apply Hn; reflexivity|].
      intros _. exists p, route, groups, params. split; [reflexivity|].
      split; [exact Hf|]. split; [exact Hp|]. right. split; [exact Hd | reflexivity].
  - destruct Ho as [Hi Hs]. destruct (Hcatch res m Hi Hs) as (H1 & H2 & H3).
    apply Hplain; assumption.
Qed.

(** *** Cross-origin requests *)

Lemma prefix_append p s : String.prefix p (p ++ s)%string = true.
Proof.
  induction p as [|c p IH]; simpl; [destruct s; reflexivity|].
  destruct (ascii_dec c c); [exact IH | congruence].
Qed.

Lemma prefix_split p s : String.prefix p s = true -> exists t, s = (p ++ t)%string.
Proof.
  revert s. induction p as [|c p IH]; intros s H.
  - exists s. reflexivity.
  - destruct s as [|d s]; [discriminate|]. simpl in H.
    destruct (ascii_dec c d) as [->|]; [|discriminate].
    destruct (IH s H) as [t ->]. exists t. reflexivity.
Qed.

(** X7. The cross-origin headers are granted by prefix: an origin is
    echoed in [Access-Control-Allow-Origin] exactly when it begins with
    one of the three allowed origins, so every origin that merely
    starts with, say, [http://localhost] -- any port, but also any
    longer host name -- is allowed; a request without an origin gets no
    such header. *)
Theorem cors_allows_by_prefix origin :
  (forall o, cors_origin origin = Some o <->
             origin = Some o /\
             exists allowed rest, In allowed allowedOrigins /\
                                  o = (allowed ++ rest)%string) /\
  (forall allowed rest, In allowed allowedOrigins ->
     cors_origin (Some (allowed ++ rest)%string) = Some (allowed ++ rest)%string).
Proof.
  assert (Hex : forall o, existsb (fun allowed => startsWith o allowed) allowedOrigins = true
                          <-> exists allowed rest, In allowed allowedOrigins /\
                                                   o = (allowed ++ rest)%string).
  { intros o. rewrite existsb_exists. unfold startsWith. split.
    - intros (a & Ha & Hp). apply prefix_split in Hp as [t ->]. eauto.
    - intros (a & t & Ha & ->). exists a. split; [exact Ha | apply prefix_append]. }
  split.
  - intros o. unfold cors_origin. destruct origin as [[|c s]|].
    + split; [discriminate|]. intros [E (a & t & Ha & ->)]. injection E as E.
      destruct a; [|discriminate]. simpl in Ha.
      repeat (destruct Ha as [Ha|Ha]; [discriminate|]). destruct Ha.
    + destruct (existsb _ _) eqn:E.
      * split.
        -- intros H. injection H as <-. split; [reflexivity|]. apply Hex, E.
        -- intros [H _]. exact H.
      * split; [discriminate|]. intros [H Hx]. injection H as <-.
        apply Hex in Hx. congruence.
    + split; [discriminate|]. intros [H _]. discriminate.
  - intros a t Ha. unfold cors_origin.
    assert (Hne : exists c s, (a ++ t)%string = String c s).
    { simpl in Ha. destruct Ha as [<-|[<-|[<-|[]]]]; simpl; eauto. }
    destruct Hne as (c & s & E). rewrite E.
    assert (H : existsb (fun allowed => startsWith (String c s) allowed) allowedOrigins = true).
    { apply Hex. exists a, t. auto. }
    rewrite H. reflexivity.
Qed.

End DispatchProofs.

(** ** utils.ts *)

Module UtilsProofs.
Import Js Obsidian Platform Utils UtilsFacts Fixtures.

(** *** Paths and identities *)

Lemma substring_split n s :
  (n <= String.length s)%nat ->
  s = (substring 0 n s ++ substring n (String.length s - n) s)%string.
Proof.
  revert s. induction n as [|n IH]; intros s H.
  - rewrite Nat.sub_0_r, LinksProofs.substring_all. destruct s; reflexivity.
  - destruct s as [|c s]; [simpl in H; lia|]. simpl in H.
    change (String c s =
            String c (substring 0 n s ++ substring n (String.length s - n) s)%string).
    f_equal. apply IH. lia.
Qed.

Lemma endsWith_split s t :
  endsWith s t = true ->
  s = (substring 0 (String.length s - String.length t) s ++ t)%string.
Proof.
  unfold endsWith. intros H. apply andb_true_iff in H as [Hle He].
  apply Nat.leb_le in Hle. apply String.eqb_eq in He.
  rewrite (substring_split (String.length s - String.length t) s) at 1 by lia.
  replace (String.length s - (String.length s - String.length t))%nat
    with (String.length t) by lia.
  rewrite He. reflexivity.
Qed.

Lemma substring_length_le n m s : (String.length (substring n m s) <= m)%nat.
Proof.
  revert n m. induction s as [|c s IH]; intros [|n] [|m]; simpl; try lia.
  - specialize (IH 0%nat m). lia.
  - apply (IH n 0%nat).
  - apply (IH n (S m)).
Qed.

Lemma replace_md_ext_stem p :
  endsWith p ".md" = true -> p = (replace_md_ext p ++ ".md")%string.
Proof.
  intros H. unfold replace_md_ext. rewrite H. exact (endsWith_split p ".md" H).
Qed.

Lemma normalizePath_stem stem :
  normalizePath stem = (stem ++ ".md")%string <->
  startsWith stem "/" = false /\ endsWith stem ".md" = false.
Proof.
  unfold normalizePath. split.
  - intros H. apply (f_equal String.length) in H.
    rewrite LinksProofs.length_append in H. simpl in H.
    destruct (startsWith stem "/") eqn:Es.
    + exfalso. unfold slice_from in H.
      destruct stem as [|c stem]; [discriminate|].
      pose proof (substring_length_le 1 (String.length (String c stem) - 1)
                    (String c stem)) as Hl.
      destruct (endsWith _ ".md"); [|rewrite LinksProofs.length_append in H];
        simpl in *; lia.
    + split; [reflexivity|]. destruct (endsWith stem ".md"); [lia | reflexivity].
  - intros [-> ->]. reflexivity.
Qed.

(** X8. The identity that [fileToNoteInfo] reports for a markdown file
    (its path without the final [.md]) is turned back into the file's
    path by [normalizePath] exactly when the path has no leading slash
    and the identity does not itself end in [.md]: a file named
    [a.md.md] is reported as [a.md], which addresses the file [a.md]. *)
Theorem identity_addresses_note app file cache :
  endsWith (path file) ".md" = true ->
  (normalizePath (ni_path (fileToNoteInfo app file cache)) = path file <->
   startsWith (path file) "/" = false /\
   endsWith (ni_path (fileToNoteInfo app file cache)) ".md" = false).
Proof.
  intros H. cbn [fileToNoteInfo ni_path].
  pose proof (replace_md_ext_stem _ H) as E.
  rewrite E at 2. rewrite normalizePath_stem.
  assert (Hs : startsWith (path file) "/" = startsWith (replace_md_ext (path file)) "/").
  { rewrite E at 1. unfold startsWith.
    destruct (replace_md_ext (path file)) as [|a s]; [reflexivity|].
    change ((String a s ++ ".md")%string) with (String a (s ++ ".md")%string).
    cbn [String.prefix]. destruct (ascii_dec "/" a); [|reflexivity].
    destruct s; reflexivity. }
  rewrite Hs. reflexivity.
Qed.

Lemma identity_addresses_note_witness :
  normalizePath (ni_path (fileToNoteInfo cycle_vault (note "dir/A") None)) = "dir/A.md".
Proof.
  apply (identity_addresses_note cycle_vault (note "dir/A") None eq_refl).
  split; reflexivity.
Defined.

(** *** Tags of a note *)

Lemma string_in_In x l : string_in x l = true <-> In x l.
Proof.
  unfold string_in. rewrite existsb_exists. split.
  - intros (y & Hy & E). apply String.eqb_eq in E. subst. exact Hy.
  - intros H. exists x. split; [exact H | apply String.eqb_refl].
Qed.

Lemma push_new_tags base ts : forall extra,
  NoDup extra ->
  (forall t, In t extra -> ~ In t base) ->
  exists extra',
    fold_left push_new_tag ts (base ++ extra) = base ++ extra' /\
    NoDup extra' /\
    (forall t, In t extra' <->
               (In t extra \/ In t (map (fun c => tag_name (tag c)) ts)) /\ ~ In t base).
Proof.
  induction ts as [|c ts IH]; intros extra Hnd Hdis.
  - exists extra. split; [reflexivity|]. split; [exact Hnd|]. intros t. simpl.
    split; [intros H; split; [left; exact H | apply Hdis, H] | intros [[H|[]] _]; exact H].
  - simpl. unfold push_new_tag at 2.
    destruct (string_in (tag_name (tag c)) (base ++ extra)) eqn:E.
    + apply string_in_In in E.
      destruct (IH extra Hnd Hdis) as (extra' & E1 & E2 & E3).
      exists extra'. split; [exact E1|]. split; [exact E2|]. intros t. rewrite E3.
      split; [intros [[H|H] Hb]; auto|].
      intros [[H|[<-|H]] Hb]; auto. split; [|exact Hb]. left.
      apply in_app_or in E as [E|E]; [contradiction | exact E].
    + assert (Hn : ~ In (tag_name (tag c)) (base ++ extra)).
      { intros H. apply string_in_In in H. congruence. }
      rewrite <- List.app_assoc.
      destruct (IH (extra ++ [tag_name (tag c)])) as (extra' & E1 & E2 & E3).
      * apply NoDup_app. split; [exact Hnd|]. split; [|apply NoDup_singleton].
        intros x Hx Hy. apply list_elem_of_In in Hx, Hy. destruct Hy as [<-|[]].
        apply Hn, in_or_app. right. exact Hx.
      * intros t Ht. apply in_app_or in Ht as [Ht|[<-|[]]]; [apply Hdis, Ht|].
        intros Hb. apply Hn, in_or_app. left. exact Hb.
      * exists extra'. split; [exact E1|]. split; [exact E2|]. intros t. rewrite E3.
        rewrite in_app_iff. simpl. tauto.
Qed.

(** X9. The tags of a note are the frontmatter tags, as declared and in
    their order, followed by the inline tags that are not already
    listed: each such name once, with its [#] removed.  Hence a tag
    that occurs both in the frontmatter and inline is reported once,
    and the list has no repetition whenever the frontmatter has none. *)
Theorem note_tags_merge app file cache :
  let m := metadata_of app file cache in
  exists extra,
    ni_tags (fileToNoteInfo app file cache) = declared_tags m ++ extra /\
    NoDup extra /\
    (forall t, In t extra <-> In t (inline_tags m) /\ ~ In t (declared_tags m)) /\
    (NoDup (declared_tags m) -> NoDup (ni_tags (fileToNoteInfo app file cache))).
Proof.
  intros m.
  assert (Hcore : exists extra,
             ni_tags (fileToNoteInfo app file cache) = declared_tags m ++ extra /\
             NoDup extra /\
             (forall t, In t extra <-> In t (inline_tags m) /\ ~ In t (declared_tags m))).
  { unfold fileToNoteInfo. cbn [ni_tags]. fold (metadata_of app file cache). fold m.
    destruct m as [c|]; cbn [declared_tags inline_tags].
    - set (base := match frontmatter c with
                   | Some f => match fm_tags f with Some ts => ts | None => [] end
                   | None => []
                   end).
      destruct (tags c) as [ts|].
      + destruct (push_new_tags base ts [] (NoDup_nil_2) (fun _ H => match H with end))
          as (extra & E1 & E2 & E3).
        rewrite app_nil_r in E1. exists extra. split; [exact E1|]. split; [exact E2|].
        intros t. rewrite E3. simpl. tauto.
      + exists []. rewrite app_nil_r. split; [reflexivity|].
        split; [constructor|]. simpl. tauto.
    - exists []. split; [reflexivity|]. split; [constructor|]. simpl. tauto. }
  destruct Hcore as (extra & E1 & E2 & E3). exists extra.
  split; [exact E1|]. split; [exact E2|]. split; [exact E3|].
  intros Hnd. rewrite E1. apply NoDup_app. split; [exact Hnd|]. split; [|exact E2].
  intros t Ht He. apply list_elem_of_In in Ht, He. apply E3 in He. tauto.
Qed.

(** *** Context snippets *)

Lemma newlines_to_spaces_length s :
  String.length (newlines_to_spaces s) = String.length s.
Proof. induction s as [|c s IH]; simpl; [reflexivity | rewrite IH; reflexivity]. Qed.

(** X10. A context snippet is short: as long as trimming does not
    lengthen a string, the snippet for a search text has at most 66
    characters more than the search text (30 on either side and the two
    ellipses), and it is empty when the text does not occur. *)
Theorem getContext_bounded rt content searchText :
  (forall s, String.length (trim rt s) <= String.length s)%nat ->
  (String.length (getContext rt content searchText) <= String.length searchText + 66)%nat /\
  (String.index 0 searchText content = None -> getContext rt content searchText = "").
Proof.
  intros Htrim. unfold getContext.
  destruct (String.index 0 searchText content) as [idx|]; [|split; [simpl; lia | reflexivity]].
  split; [|discriminate].
  set (start := (idx - 30)%nat).
  set (stop := Nat.min (String.length content) (idx + String.length searchText + 30)).
  set (ctx := trim rt (newlines_to_spaces (substring start (stop - start) content))).
  assert (Hc : (String.length ctx <= String.length searchText + 60)%nat).
  { unfold ctx. etransitivity; [apply Htrim|]. rewrite newlines_to_spaces_length.
    etransitivity; [apply substring_length_le|]. unfold start, stop. lia. }
  destruct (0 <? start)%nat, (stop <? String.length content)%nat;
    rewrite ?LinksProofs.length_append; simpl; lia.
Qed.

Lemma getContext_bounded_witness :
  (String.length (getContext plain_runtime "see [[B]] for more" "[[B]]") <= 5 + 66)%nat.
Proof.
  apply (getContext_bounded plain_runtime "see [[B]] for more" "[[B]]").
  intros s. apply Nat.le_refl.
Defined.

(** *** Batches *)

Section Width.
Context {T R St : Type}.
Variable processor : T -> St -> St * Outcome (option R).

Lemma zero_width_diverges (items : list T) : forall fuel i results s,
  (i < length items)%nat ->
  processBatch_loop processor fuel items 0 i results s = None.
Proof.
  induction fuel as [|fuel IH]; intros i results s Hi; simpl;
    destruct (Nat.leb_spec (length items) i) as [Hle|_]; try lia; [reflexivity|].
  unfold array_slice. rewrite Nat.add_0_r, Nat.sub_diag. simpl. apply IH, Hi.
Qed.

End Width.

(** X11. The batch width does not show in the result: for every
    positive width [processBatch] returns, with the non-null results of
    the items in their order and the state left by processing them one
    after the other, so any two positive widths agree.  With width 0
    and at least one item the loop never makes progress: it does not
    return, however long it runs. *)
Theorem processBatch_width {T R St} (processor : T -> St -> St * Outcome (option R))
    (items : list T) (s : St) :
  (forall w w', (0 < w)%nat -> (0 < w')%nat ->
     processBatch processor items w s = processBatch processor items w' s /\
     processBatch processor items w s =
     Some (non_null (fst (run_batch processor items s)),
           snd (run_batch processor items s))) /\
  (items <> [] ->
   forall fuel, processBatch_loop processor fuel items 0 0 [] s = None).
Proof.
  split.
  - intros w w' Hw Hw'. rewrite !BatchProofs.processBatch_spec by assumption.
    split; reflexivity.
  - intros Hne fuel. apply zero_width_diverges.
    destruct items; [congruence | simpl; lia].
Qed.

End UtilsProofs.

(** ** Sorting *)

Module SortProofs.
Import Js.

Section Sort.
Context {A : Type}.
Variable le : A -> A -> bool.
Hypothesis le_total : forall a b, le a b = true \/ le b a = true.
Hypothesis le_trans : forall a b c, le a b = true -> le b c = true -> le a c = true.

Lemma insert_sorted_Sorted x l :
  Sorted (fun a b => le a b = true) l ->
  Sorted (fun a b => le a b = true) (insert_sorted le x l).
Proof.
  induction l as [|y l IH]; intros Hs; simpl.
  - constructor; constructor.
  - destruct (le x y) eqn:E.
    + constructor; [exact Hs | constructor; exact E].
    + inversion Hs as [|? ? Hl Hhd]; subst. constructor; [apply IH, Hl|].
      assert (Hyx : le y x = true) by (destruct (le_total x y); congruence).
      destruct l as [|z l]; simpl.
      * constructor. exact Hyx.
      * destruct (le x z); constructor; [exact Hyx|].
        inversion Hhd; assumption.
Qed.

Lemma stable_sort_Sorted l : Sorted (fun a b => le a b = true) (stable_sort le l).
Proof.
  unfold stable_sort. induction l as [|x l IH]; simpl;
    [constructor | apply insert_sorted_Sorted, IH].
Qed.

Lemma stable_sort_StronglySorted l :
  StronglySorted (fun a b => le a b = true) (stable_sort le l).
Proof.
  apply Sorted_StronglySorted; [|apply stable_sort_Sorted].
  intros a b c. apply le_trans.
Qed.

End Sort.

Lemma insert_sorted_perm {A} (le : A -> A -> bool) x l :
  Permutation (insert_sorted le x l) (x :: l).
Proof.
  induction l as [|y l IH]; simpl; [reflexivity|].
  destruct (le x y); [reflexivity|].
  rewrite IH. apply perm_swap.
Qed.

Lemma stable_sort_perm {A} (le : A -> A -> bool) l : Permutation (stable_sort le l) l.
Proof.
  unfold stable_sort. induction l as [|x l IH]; simpl; [reflexivity|].
  rewrite insert_sorted_perm, IH. reflexivity.
Qed.

Lemma StronglySorted_impl {A} (R Q : A -> A -> Prop) l :
  (forall a b, R a b -> Q a b) -> StronglySorted R l -> StronglySorted Q l.
Proof.
  intros H. induction 1 as [|a l Hs IH Hall]; constructor; [exact IH|].
  rewrite List.Forall_forall in *. intros b Hb. apply H, Hall, Hb.
Qed.

Lemma StronglySorted_map {A B} (f : A -> B) (R : B -> B -> Prop) l :
  StronglySorted (fun a b => R (f a) (f b)) l -> StronglySorted R (map f l).
Proof.
  induction 1 as [|a l Hs IH Hall]; simpl; constructor; [exact IH|].
  apply List.Forall_forall. intros b Hb. apply in_map_iff in Hb as (x & <- & Hx).
  rewrite List.Forall_forall in Hall. apply Hall, Hx.
Qed.

End SortProofs.

(** ** search.ts *)

Module SearchProofs.
Import Js Obsidian Platform Utils Routes Search SearchFacts.

(** *** The limit as a number *)

Lemma len_ge_ceiling q n :
  Qle_bool q (inject_Z (Z.of_nat n)) = (Z.to_nat (Qceiling q) <=? n)%nat.
Proof.
  apply Bool.eq_iff_eq_true. rewrite Qle_bool_iff, Nat.leb_le. split.
  - intros H. apply Qceiling_resp_le in H. rewrite Qceiling_Z in H. lia.
  - intros H. apply Qle_trans with (inject_Z (Qceiling q)); [apply Qle_ceiling|].
    rewrite <- Zle_Qle. lia.
Qed.

Lemma len_lt_cap n x :
  len_lt n x = match cap_of x with Some k => (n <? k)%nat | None => true end.
Proof.
  destruct x as [q| | |]; simpl; try reflexivity.
  rewrite len_ge_ceiling. symmetry. apply Nat.ltb_antisym.
Qed.

Lemma len_ge_not_lt n x : len_ge n x = true -> len_lt n x = false.
Proof.
  destruct x as [q| | |]; simpl; try discriminate; try reflexivity.
  intros ->. reflexivity.
Qed.

Lemma floor_le_ceiling q : Qfloor q <= Qceiling q.
Proof.
  rewrite Zle_Qle. apply Qle_trans with q; [apply Qfloor_le | apply Qle_ceiling].
Qed.

Lemma to_integer_le_ceiling q : to_integer q <= Qceiling q.
Proof. unfold to_integer. destruct (Qle_bool 0 q); [apply floor_le_ceiling | lia]. Qed.

Lemma to_integer_negative q : to_integer q < 0 -> Qceiling q <= 0.
Proof.
  unfold to_integer. destruct (Qle_bool 0 q) eqn:E; [|lia].
  apply Qle_bool_iff in E. apply Qfloor_resp_le in E.
  change (Qfloor 0) with 0 in E. lia.
Qed.

Lemma whole_to_integer q : whole (Finite q) -> to_integer q = Qceiling q.
Proof.
  simpl. intros H. unfold to_integer.
  assert (E : Qceiling q = Qfloor q).
  { rewrite <- (Qceiling_comp _ _ H). apply Qceiling_Z. }
  rewrite E. destruct (Qle_bool 0 q); reflexivity.
Qed.

Lemma In_slice_upto {A} (x : A) l lim : In x (slice_upto l lim) -> In x l.
Proof.
  destruct lim; simpl; try tauto. apply BatchProofs.In_array_slice0.
Qed.

Lemma In_take_cap {A} (x : A) l lim : In x (take_cap lim l) -> In x l.
Proof.
  unfold take_cap. destruct (cap_of lim); [apply BatchProofs.In_firstn | tauto].
Qed.

Lemma StronglySorted_firstn {A} (R : A -> A -> Prop) n l :
  StronglySorted R l -> StronglySorted R (firstn n l).
Proof.
  intros H. revert n. induction H as [|a l Hs IH Hall]; intros [|n]; simpl; try constructor.
  - apply IH.
  - rewrite List.Forall_forall in *. intros b Hb. apply Hall.
    apply (BatchProofs.In_firstn _ _ _ Hb).
Qed.

Lemma StronglySorted_slice_upto {A} (R : A -> A -> Prop) l lim :
  StronglySorted R l -> StronglySorted R (slice_upto l lim).
Proof.
  intros H. destruct lim; simpl; try constructor; try exact H.
  unfold array_slice0. destruct (_ <? 0); apply StronglySorted_firstn, H.
Qed.

(** The sorted results within the limit, and the case in which the
    closing [slice] keeps them all. *)
Lemma slice_within {A} lim (l : list A) :
  (forall k, cap_of lim = Some k -> (length l <= k)%nat) ->
  within lim (length (slice_upto l lim)) /\
  (whole lim -> slice_upto l lim = l).
Proof.
  intros Hcap. destruct lim as [q| | |]; simpl.
  - specialize (Hcap _ eq_refl). unfold array_slice0. split.
    + destruct (Z.ltb_spec (to_integer q) 0) as [Hneg|Hpos].
      * apply to_integer_negative in Hneg.
        destruct l; [simpl; lia | simpl in Hcap; lia].
      * rewrite length_firstn. lia.
    + intros Hw. rewrite (whole_to_integer q Hw).
      destruct (Z.ltb_spec (Qceiling q) 0) as [Hneg|Hpos].
      * destruct l; [reflexivity | simpl in Hcap; lia].
      * apply firstn_all2. exact Hcap.
  - split; [exact I | reflexivity].
  - specialize (Hcap _ eq_refl). split; [reflexivity|].
    intros _. destruct l; [reflexivity | simpl in Hcap; lia].
  - specialize (Hcap _ eq_refl). split; [reflexivity|].
    intros _. destruct l; [reflexivity | simpl in Hcap; lia].
Qed.

Lemma take_cap_length {A} lim (l : list A) k :
  cap_of lim = Some k -> (length (take_cap lim l) <= k)%nat.
Proof. unfold take_cap. intros ->. rewrite length_firstn. lia. Qed.

(** A limit with room for all the results keeps them all. *)
Lemma fits_keeps_all {A} lim (l : list A) :
  fits (length l) lim -> slice_upto (take_cap lim l) lim = l /\ take_cap lim l = l.
Proof.
  unfold take_cap. destruct lim as [q| | |]; simpl; try tauto.
  intros H. pose proof (to_integer_le_ceiling q).
  rewrite (firstn_all2 (n := Z.to_nat (Qceiling q))) by lia.
  split; [|reflexivity]. unfold array_slice0.
  destruct (Z.ltb_spec (to_integer q) 0); [lia|]. apply firstn_all2. lia.
Qed.

Section Results.
Variable rt : Runtime.
Variable app : App.

(** *** The scan *)

Lemma candidate_cases body file :
  candidate rt app body file = [] \/ exists r, candidate rt app body file = [r].
Proof.
  unfold candidate. destruct (vault_read app file); [|left; reflexivity].
  destruct (note_matches _ _ _ _ _); [left; reflexivity | right; eexists; reflexivity].
Qed.

Lemma search_processor_step body file rs :
  fst (search_processor rt app (limit_of body) (sensitive body) (needle rt body) file rs) =
  if len_lt (length rs) (limit_of body) then rs ++ candidate rt app body file else rs.
Proof.
  unfold search_processor, candidate.
  destruct (len_ge (length rs) (limit_of body)) eqn:Ege.
  - rewrite (len_ge_not_lt _ _ Ege). reflexivity.
  - destruct (vault_read app file) as [content|].
    + cbv zeta.
      destruct (note_matches rt (sensitive body) (needle rt body) content
                             (getFileCache app file)) as [|m ms]; simpl.
      * destruct (len_lt _ _); [rewrite app_nil_r|]; reflexivity.
      * destruct (len_lt _ _); reflexivity.
    + destruct (len_lt _ _); [rewrite app_nil_r|]; reflexivity.
Qed.

Lemma run_batch_collect body files : forall rs,
  snd (run_batch (search_processor rt app (limit_of body) (sensitive body) (needle rt body))
                 files rs) =
  rs ++ match cap_of (limit_of body) with
        | Some k => firstn (k - length rs) (flat_map (candidate rt app body) files)
        | None => flat_map (candidate rt app body) files
        end.
Proof.
  induction files as [|f files IH]; intros rs.
  - simpl. destruct (cap_of _); [rewrite firstn_nil|]; rewrite app_nil_r; reflexivity.
  - cbn [run_batch flat_map]. pose proof (search_processor_step body f rs) as Hstep.
    destruct (search_processor rt app (limit_of body) (sensitive body) (needle rt body) f rs)
      as [s1 o]. cbn [fst] in Hstep. subst s1.
    match goal with |- context [run_batch ?p files ?st] =>
      specialize (IH st); destruct (run_batch p files st) as [rs' s2] end.
    cbn [snd] in *. rewrite IH. rewrite len_lt_cap.
    destruct (cap_of (limit_of body)) as [k|].
    + destruct (Nat.ltb_spec (length rs) k) as [Hlt|Hge].
      * rewrite <- List.app_assoc. f_equal.
        destruct (candidate_cases body f) as [->|[r ->]].
        -- rewrite app_nil_r. reflexivity.
        -- rewrite length_app. cbn [length List.app].
           replace (k - length rs)%nat with (S (k - (length rs + 1)))%nat by lia.
           reflexivity.
      * replace (k - length rs)%nat with 0%nat by lia. reflexivity.
    + rewrite <- List.app_assoc. reflexivity.
Qed.

Lemma filter_all {A} (l : list A) : List.filter (fun _ => true) l = l.
Proof. induction l as [|x l IH]; simpl; [reflexivity | rewrite IH; reflexivity]. Qed.

(** The reply of a search with a query: the results of the files in
    scope, in the order of the files, up to the number at which the scan
    stops collecting; then sorted, then sliced. *)
Lemma search_exact body c q :
  query body = Some (String c q) ->
  search rt app body =
  Some (ReplyJson
          (slice_upto (stable_sort more_matches
                         (take_cap (limit_of body)
                                   (found rt app body (getMarkdownFiles app))))
                      (limit_of body))).
Proof.
  intros Hq. unfold search. rewrite Hq. cbv zeta.
  rewrite BatchProofs.processBatch_spec by lia.
  change (match limit body with Some l => l | None => Finite (inject_Z 20) end)
    with (limit_of body).
  change (match caseSensitive body with Some b => b | None => false end)
    with (sensitive body).
  assert (Hn : (if sensitive body then String c q else toLowerCase rt (String c q))
               = needle rt body) by (unfold needle; rewrite Hq; reflexivity).
  rewrite Hn.
  assert (Hfiles : match folder body with
                   | Some (String c' f) =>
                       List.filter (fun file => startsWith (path file) (String c' f))
                                   (getMarkdownFiles app)
                   | _ => getMarkdownFiles app
                   end = List.filter (in_scope body) (getMarkdownFiles app)).
  { unfold in_scope. destruct (folder body) as [[|c' f]|];
      try (symmetry; apply filter_all). reflexivity. }
  rewrite Hfiles, run_batch_collect. cbn [List.app length].
  unfold take_cap, found. destruct (cap_of (limit_of body)) as [k|]; [|reflexivity].
  rewrite Nat.sub_0_r. reflexivity.
Qed.

Lemma search_without_query body :
  (forall c q, query body <> Some (String c q)) ->
  search rt app body = Some (ReplyError 400 "INVALID_PATH" "Query is required").
Proof.
  intros H. unfold search. destruct (query body) as [[|c q]|]; try reflexivity.
  destruct (H c q eq_refl).
Qed.

Lemma In_found body files r :
  In r (found rt app body files) ->
  matches r <> [] /\
  exists file content,
    In file files /\ in_scope body file = true /\
    vault_read app file = Some content /\
    note r = fileToNoteInfo app file (getFileCache app file) /\
    matches r = note_matches rt (sensitive body) (needle rt body) content
                             (getFileCache app file).
Proof.
  unfold found. intros H. apply in_flat_map in H as (file & Hf & Hr).
  apply List.filter_In in Hf as [Hf Hs]. unfold candidate in Hr.
  destruct (vault_read app file) as [content|] eqn:Hread; [|destruct Hr].
  destruct (note_matches rt (sensitive body) (needle rt body) content
                         (getFileCache app file)) as [|m ms] eqn:Em; [destruct Hr|].
  destruct Hr as [<-|[]]. cbn [matches note]. split; [discriminate|].
  exists file, content. rewrite Em. auto.
Qed.

Lemma found_In body files file content :
  In file files -> in_scope body file = true ->
  vault_read app file = Some content ->
  note_matches rt (sensitive body) (needle rt body) content (getFileCache app file) <> [] ->
  In {| note := fileToNoteInfo app file (getFileCache app file);
        matches := note_matches rt (sensitive body) (needle rt body) content
                                (getFileCache app file) |}
     (found rt app body files).
Proof.
  intros Hf Hs Hread Hm. unfold found. apply in_flat_map. exists file.
  split; [apply List.filter_In; auto|]. unfold candidate. rewrite Hread.
  destruct (note_matches rt (sensitive body) (needle rt body) content
                         (getFileCache app file)); [congruence | left; reflexivity].
Qed.

Lemma found_skips_unreadable body before bad after :
  vault_read app bad = None ->
  found rt app body (before ++ bad :: after) = found rt app body (before ++ after).
Proof.
  intros Hbad. unfold found. rewrite !List.filter_app, !flat_map_app. f_equal.
  cbn [List.filter]. destruct (in_scope body bad); [|reflexivity].
  cbn [flat_map]. unfold candidate at 1. rewrite Hbad. reflexivity.
Qed.

End Results.

(** X12. A search request without a body, or with the body [null],
    makes the handler throw.  A search with a query replies with the
    results of the files in scope -- one per file that can be read and has a match, in the order
    of the files -- collected until their number reaches the limit, then
    sorted by the number of matches, largest first, then sliced at the
    limit.  So the reply is ordered, every result in it has a match and
    is computed from a readable file of the vault inside the requested
    folder, and it holds at most as many results as the limit cut to a
    whole number (none for a limit of 0 or less, or one that is not a
    number).  The closing [slice] removes nothing when the limit is a
    whole number; with a fraction the scan collects up to the next whole
    number and the slice then drops what exceeds the limit. *)
Theorem search_bounded_sorted rt app body c q :
  query body = Some (String c q) ->
  let collected := take_cap (limit_of body) (found rt app body (getMarkdownFiles app)) in
  (exists msg, handle_search rt app None = Some (ReplyThrow msg)) /\
  exists results,
    handle_search rt app (Some body) = Some (ReplyJson results) /\
    results = slice_upto (stable_sort more_matches collected) (limit_of body) /\
    within (limit_of body) (length results) /\
    (forall r, In r results -> well_found rt app body r) /\
    StronglySorted (fun a b => (match_count b <= match_count a)%nat) results /\
    (whole (limit_of body) -> results = stable_sort more_matches collected).
Proof.
  intros Hq collected. split; [eexists; reflexivity|].
  exists (slice_upto (stable_sort more_matches collected) (limit_of body)).
  split; [apply (search_exact rt app body c q Hq)|]. split; [reflexivity|].
  pose proof (SortProofs.stable_sort_perm more_matches collected) as Hperm.
  destruct (slice_within (limit_of body) (stable_sort more_matches collected)) as [Hw Hall].
  { intros k Hk. rewrite (Permutation_length Hperm). apply take_cap_length, Hk. }
  split; [exact Hw|]. split; [|split; [|exact Hall]].
  - intros r Hr. apply In_slice_upto in Hr. apply (Permutation_in _ Hperm) in Hr.
    apply In_take_cap in Hr. apply In_found in Hr. exact Hr.
  - apply StronglySorted_slice_upto.
    apply (SortProofs.StronglySorted_impl (fun a b => more_matches a b = true)).
    { intros a b. unfold more_matches, match_count. apply Nat.leb_le. }
    apply (SortProofs.stable_sort_StronglySorted more_matches).
    + intros a b. unfold more_matches.
      destruct (Nat.leb_spec (length (matches b)) (length (matches a)));
        [left; reflexivity | right; apply Nat.leb_le; lia].
    + intros x y z. unfold more_matches. rewrite !Nat.leb_le. lia.
Qed.

Lemma search_bounded_sorted_witness :
  handle_search Fixtures.plain_runtime Fixtures.trio_vault
         (Some {| query := Some "[[A"; folder := None; limit := Some (Finite (5 # 2));
                  caseSensitive := None |})
  = Some (ReplyJson
            [ {| note := {| ni_path := "A"; ni_title := "A"; ni_tags := [];
                            ni_created := None; ni_modified := None |};
                 matches := [ {| line := 1; text := "[[A]]" |} ] |};
              {| note := {| ni_path := "B"; ni_title := "B"; ni_tags := [];
                            ni_created := None; ni_modified := None |};
                 matches := [ {| line := 1; text := "[[A]]" |} ] |} ]) /\
  length (take_cap (Finite (5 # 2))
            (found Fixtures.plain_runtime Fixtures.trio_vault
                   {| query := Some "[[A"; folder := None; limit := Some (Finite (5 # 2));
                      caseSensitive := None |}
                   (getMarkdownFiles Fixtures.trio_vault))) = 3%nat /\
  handle_search Fixtures.plain_runtime Fixtures.trio_vault
         (Some {| query := Some "[[A"; folder := Some "C"; limit := Some (Finite (3 # 1));
                  caseSensitive := None |})
  = Some (ReplyJson
            [ {| note := {| ni_path := "C"; ni_title := "C"; ni_tags := [];
                            ni_created := None; ni_modified := None |};
                 matches := [ {| line := 1; text := "[[A]]" |} ] |} ]).
Proof.
  split; [|split].
  - destruct (search_bounded_sorted Fixtures.plain_runtime Fixtures.trio_vault
                {| query := Some "[[A"; folder := None; limit := Some (Finite (5 # 2));
                   caseSensitive := None |} "[" "[A" eq_refl)
      as (_ & results & E & -> & _).
    exact E.
  - reflexivity.
  - destruct (search_bounded_sorted Fixtures.plain_runtime Fixtures.trio_vault
                {| query := Some "[[A"; folder := Some "C"; limit := Some (Finite (3 # 1));
                   caseSensitive := None |} "[" "[A" eq_refl)
      as (_ & results & E & -> & _).
    exact E.
Defined.

End SearchProofs.

(** ** routes/tags.ts *)

Module TagsProofs.
Import Js Obsidian Platform Utils Routes Tags TagNotes UtilsFacts.

(** *** Counting *)

Lemma bump_keys t m :
  map fst (bump t m) = if string_in t (map fst m) then map fst m else map fst m ++ [t].
Proof.
  unfold string_in. induction m as [|[k n] m IH]; simpl; [reflexivity|].
  rewrite (String.eqb_sym t k). destruct (String.eqb k t); simpl; [reflexivity|].
  rewrite IH. destruct (existsb _ _); reflexivity.
Qed.

Lemma bump_keys_In t m k : In k (map fst (bump t m)) <-> In k (map fst m) \/ k = t.
Proof.
  rewrite bump_keys. destruct (string_in t (map fst m)) eqn:E.
  - apply UtilsProofs.string_in_In in E. split; [tauto|]. intros [H| ->]; assumption.
  - rewrite in_app_iff. simpl. intuition congruence.
Qed.

Lemma bump_NoDup t m : List.NoDup (map fst m) -> List.NoDup (map fst (bump t m)).
Proof.
  intros H. rewrite bump_keys. destruct (string_in t (map fst m)) eqn:E; [exact H|].
  assert (Hn : ~ In t (map fst m)) by (intros Hin; apply UtilsProofs.string_in_In in Hin; congruence).
  apply List.NoDup_app; [exact H | repeat constructor; intros [] |].
  intros x Hx [<-|[]]. contradiction.
Qed.

Lemma bump_values t m (f : string -> Z) :
  List.NoDup (map fst m) ->
  (forall k n, In (k, n) m -> n = f k) ->
  (~ In t (map fst m) -> f t = 0) ->
  forall k n, In (k, n) (bump t m) -> n = f k + (if String.eqb k t then 1 else 0).
Proof.
  induction m as [|[k0 n0] m IH]; intros Hnd Hval Hnew k n; simpl.
  - intros [E|[]]. injection E as <- <-. rewrite String.eqb_refl, Hnew; [lia | intros []].
  - simpl in Hnd. inversion Hnd as [|? ? Hk0 Hnd']; subst.
    destruct (String.eqb_spec k0 t) as [->|Hne].
    + intros [E|H].
      * injection E as <- <-. rewrite String.eqb_refl.
        rewrite (Hval t n0 (or_introl eq_refl)). reflexivity.
      * destruct (String.eqb_spec k t) as [->|_].
        -- exfalso. apply Hk0. apply (in_map fst) in H. exact H.
        -- rewrite (Hval k n (or_intror H)). lia.
    + intros [E|H].
      * injection E as <- <-. destruct (String.eqb_spec k0 t); [congruence|].
        rewrite (Hval k0 n0 (or_introl eq_refl)). lia.
      * apply (IH Hnd'); [intros; apply Hval; right; assumption | | exact H].
        intros Hn. apply Hnew. simpl. intros [E|E]; [congruence | contradiction].
Qed.

Lemma fold_bump l : forall m (f : string -> Z),
  List.NoDup (map fst m) ->
  (forall k n, In (k, n) m -> n = f k) ->
  (forall k, ~ In k (map fst m) -> f k = 0) ->
  let m' := fold_left (fun m t => bump t m) l m in
  List.NoDup (map fst m') /\
  (forall k n, In (k, n) m' -> n = f k + occurrences k l) /\
  (forall k, In k (map fst m') <-> In k (map fst m) \/ In k l).
Proof.
  unfold occurrences.
  induction l as [|t l IH]; intros m f Hnd Hval Hzero; cbn [fold_left].
  - split; [exact Hnd|]. split; [|intros k; simpl; tauto].
    intros k n H. rewrite (Hval k n H). simpl. lia.
  - destruct (IH (bump t m) (fun k => f k + (if String.eqb k t then 1 else 0)))
      as (H1 & H2 & H3).
    + apply bump_NoDup, Hnd.
    + apply bump_values; [exact Hnd | exact Hval | apply Hzero].
    + intros k Hk. rewrite bump_keys_In in Hk.
      destruct (String.eqb_spec k t) as [->|_]; [tauto|].
      rewrite Hzero by tauto. reflexivity.
    + split; [exact H1|]. split.
      * intros k n H. rewrite (H2 k n H). simpl.
        destruct (string_dec t k) as [->|Hne].
        -- rewrite String.eqb_refl. lia.
        -- destruct (String.eqb_spec k t); [congruence | lia].
      * intros k. rewrite H3, bump_keys_In. simpl. intuition congruence.
Qed.

Lemma fold_left_map {A B C} (g : A -> B) (f : C -> B -> C) l : forall c,
  fold_left (fun c a => f c (g a)) l c = fold_left f (map g l) c.
Proof. induction l as [|a l IH]; intros c; simpl; [reflexivity | apply IH]. Qed.

Lemma count_files app files : forall m,
  fold_left (count_file app) files m =
  fold_left (fun m t => bump t m)
            (flat_map (fun file =>
                         match getFileCache app file with
                         | None => []
                         | Some c => declared_tags (Some c) ++ inline_tags (Some c)
                         end) files) m.
Proof.
  induction files as [|file files IH]; intros m; simpl; [reflexivity|].
  rewrite fold_left_app, IH. f_equal. unfold count_file.
  destruct (getFileCache app file) as [c|]; [|reflexivity].
  rewrite fold_left_app. cbn [declared_tags inline_tags].
  assert (H1 : match frontmatter c with
               | Some fm => match fm_tags fm with
                            | Some fmTags => fold_left (fun m t => bump t m) fmTags m
                            | None => m
                            end
               | None => m
               end =
               fold_left (fun m t => bump t m)
                 match frontmatter c with
                 | Some f => match fm_tags f with Some ts => ts | None => [] end
                 | None => []
                 end m).
  { destruct (frontmatter c) as [fm|]; [|reflexivity]. destruct (fm_tags fm); reflexivity. }
  rewrite H1. destruct (tags c) as [ts|]; [|reflexivity].
  apply (fold_left_map (fun t => tag_name (tag t)) (fun m t => bump t m)).
Qed.

(** Every tag that is mentioned has its entry in the listing. *)
Lemma list_tags_covers app :
  exists l,
    list_tags app = ReplyJson l /\
    forall t, In t (tag_mentions app) ->
      exists n, In {| tc_tag := t; tc_count := n |} l /\ 1 <= n.
Proof.
  unfold list_tags. rewrite count_files. fold (tag_mentions app).
  set (m := fold_left (fun m t => bump t m) (tag_mentions app) []).
  destruct (fold_bump (tag_mentions app) [] (fun _ => 0)) as (Hnd & Hval & Hkeys);
    [constructor | intros ? ? [] | reflexivity |]. fold m in Hnd, Hval, Hkeys.
  eexists. split; [reflexivity|]. intros t Ht.
  assert (Hk : In t (map fst m)) by (apply Hkeys; right; exact Ht).
  apply in_map_iff in Hk as ([k n] & Hfst & Hin). simpl in Hfst. subst k.
  exists n. split.
  - apply (Permutation_in _ (Permutation_sym (SortProofs.stable_sort_perm _ _))).
    apply in_map_iff. exists (t, n). split; [reflexivity | exact Hin].
  - rewrite (Hval t n Hin). simpl. unfold occurrences.
    apply (count_occ_In string_dec) in Ht. lia.
Qed.

(** X13. The tag listing counts mentions: every tag mentioned in some
    note's frontmatter or text is listed exactly once, with the number
    of its mentions over the whole vault -- a note that carries a tag
    both in its frontmatter and inline counts twice -- and no other tag
    is listed; the list is ordered by count, largest first. *)
Theorem tag_counts_exact app :
  exists l,
    list_tags app = ReplyJson l /\
    List.NoDup (map tc_tag l) /\
    (forall t, In t (map tc_tag l) <-> In t (tag_mentions app)) /\
    (forall e, In e l -> tc_count e = occurrences (tc_tag e) (tag_mentions app) /\
                         1 <= tc_count e) /\
    StronglySorted (fun a b => tc_count b <= tc_count a) l.
Proof.
  unfold list_tags. rewrite count_files. fold (tag_mentions app).
  set (m := fold_left (fun m t => bump t m) (tag_mentions app) []).
  destruct (fold_bump (tag_mentions app) [] (fun _ => 0)) as (Hnd & Hval & Hkeys);
    [constructor | intros ? ? [] | reflexivity |]. fold m in Hnd, Hval, Hkeys.
  set (entries := map (fun e => {| tc_tag := fst e; tc_count := snd e |}) m).
  pose proof (SortProofs.stable_sort_perm higher_count entries) as Hperm.
  assert (Htags : map tc_tag entries = map fst m).
  { unfold entries. rewrite map_map. reflexivity. }
  exists (stable_sort higher_count entries). split; [reflexivity|].
  split; [|split; [|split]].
  - apply (Permutation_NoDup (l := map tc_tag entries)).
    + apply Permutation_map. symmetry. exact Hperm.
    + rewrite Htags. exact Hnd.
  - intros t. split; intros H.
    + apply (Permutation_in _ (Permutation_map tc_tag Hperm)) in H.
      rewrite Htags in H. apply Hkeys in H as [[]|H]. exact H.
    + apply (Permutation_in _ (Permutation_map tc_tag (Permutation_sym Hperm))).
      rewrite Htags. apply Hkeys. right. exact H.
  - intros e He. apply (Permutation_in _ Hperm) in He. unfold entries in He.
    apply in_map_iff in He as ([k n] & <- & Hin). cbn [tc_tag tc_count fst snd].
    pose proof (Hval k n Hin) as Hn. simpl in Hn. split; [exact Hn|].
    assert (Hk : In k (tag_mentions app)).
    { apply (in_map fst) in Hin. apply Hkeys in Hin as [[]|H]. exact H. }
    rewrite Hn. unfold occurrences.
    apply (count_occ_In string_dec) in Hk. lia.
  - apply (SortProofs.StronglySorted_impl (fun a b => higher_count a b = true)).
    { intros a b. unfold higher_count. apply Z.leb_le. }
    apply (SortProofs.stable_sort_StronglySorted higher_count).
    + intros a b. unfold higher_count.
      destruct (Z.leb_spec (tc_count b) (tc_count a));
        [left; reflexivity | right; apply Z.leb_le; lia].
    + intros x y z. unfold higher_count. rewrite !Z.leb_le. lia.
Qed.

(** *** The notes of a tag *)

Section Tagged.
Variable rt : Runtime.
Variable app : App.

Lemma collect_tags_reported file :
  collect_tags (getFileCache app file) = ni_tags (info_of app file).
Proof.
  unfold collect_tags, info_of, fileToNoteInfo. cbn [ni_tags].
  destruct (getFileCache app file) as [c|]; reflexivity.
Qed.

Lemma notes_loop_spec limit exact searchTag files : forall notes,
  notes_loop rt app limit exact searchTag files notes =
  notes ++
  match limit with
  | Some l => firstn (Z.to_nat l - length notes)
  | None => fun x => x
  end (map (info_of app)
           (List.filter (fun f => hasMatch rt exact searchTag (ni_tags (info_of app f)))
                        files)).
Proof.
  induction files as [|file files IH]; intros notes; cbn [notes_loop].
  - simpl. destruct limit; [rewrite firstn_nil|]; rewrite app_nil_r; reflexivity.
  - assert (Hbreak : forall l, (Z.of_nat (length notes) >=? l) = true ->
                       (Z.to_nat l - length notes)%nat = 0%nat).
    { intros l H. apply Z.geb_le in H. lia. }
    assert (Hgo : forall l, (Z.of_nat (length notes) >=? l) = false ->
                    (Z.to_nat l - length notes)%nat
                    = S (Z.to_nat l - length (notes ++ [info_of app file]))).
    { intros l H. rewrite length_app. simpl.
      destruct (Z.geb_spec (Z.of_nat (length notes)) l); [discriminate | lia]. }
    rewrite collect_tags_reported. cbn [List.filter].
    destruct limit as [l|].
    + destruct (Z.of_nat (length notes) >=? l) eqn:E.
      * rewrite (Hbreak l E). simpl. rewrite app_nil_r. reflexivity.
      * destruct (hasMatch rt exact searchTag (ni_tags (info_of app file))).
        -- fold (info_of app file). rewrite IH, (Hgo l E). cbn [map firstn].
           rewrite <- List.app_assoc. reflexivity.
        -- apply IH.
    + destruct (hasMatch rt exact searchTag (ni_tags (info_of app file))).
      * fold (info_of app file). rewrite IH. cbn [map].
        rewrite <- List.app_assoc. reflexivity.
      * apply IH.
Qed.

End Tagged.

(** X14. The notes of a tag are the notes, in vault order, that are
    reported with a matching tag -- compared in lower case, as a whole
    when [exact] is set and as a substring otherwise -- cut after the
    first [limit] of them; a limit of 0 or less gives the empty list,
    and a limit that does not parse as a number gives them all. *)
Theorem tagged_notes_listing rt app tag_param exact limit :
  notes_with_tag rt app tag_param exact limit =
  ReplyJson (capped limit (map (info_of app)
                               (List.filter (tagged rt app exact tag_param)
                                            (getMarkdownFiles app)))).
Proof.
  unfold notes_with_tag. rewrite notes_loop_spec. unfold capped, tagged.
  destruct limit; simpl; [rewrite Nat.sub_0_r|]; reflexivity.
Qed.

End TagsProofs.

(** ** More on the graph routes *)

Module GraphSoundness.
Import Js Obsidian Routes Graph GraphFacts.

Lemma for_each_inv_In {A S} (P : S -> Prop) (f : A -> S -> option S) (l : list A) :
  (forall x s s', In x l -> f x s = Some s' -> P s -> P s') ->
  forall s s', for_each f l s = Some s' -> P s -> P s'.
Proof.
  induction l as [|x l IH]; intros Hf s s' H Hs; simpl in H.
  - congruence.
  - destruct (f x s) as [s1|] eqn:E; [|discriminate].
    apply (IH (fun y a b Hy => Hf y a b (or_intror Hy)) s1 s' H).
    apply (Hf x s s1 (or_introl eq_refl) E Hs).
Qed.

Lemma nodes_has_In i ns : nodes_has i ns = true <-> In i (map id ns).
Proof.
  unfold nodes_has. rewrite existsb_exists, in_map_iff. split.
  - intros (n & Hn & E). apply String.eqb_eq in E. eauto.
  - intros (n & E & Hn). exists n. split; [exact Hn | apply String.eqb_eq, E].
Qed.

Section Facts.
Variable app : App.

(** Whatever [fileMap] holds is one of the vault's files. *)
Lemma fileMap_fold_In files : forall (m : gmap string TFile) k v,
  (forall k' v', m !! k' = Some v' -> In v' (getMarkdownFiles app)) ->
  (forall x, In x files -> In x (getMarkdownFiles app)) ->
  fold_left fileMap_add files m !! k = Some v -> In v (getMarkdownFiles app).
Proof.
  induction files as [|f files IH]; intros m k v Hm Hfiles; simpl.
  - apply Hm.
  - apply IH; [|intros x Hx; apply Hfiles; right; exact Hx].
    intros k' v'. unfold fileMap_add. rewrite !lookup_insert_Some.
    intros [[_ <-]|[_ [[_ <-]|[_ [[_ <-]|[_ H]]]]]];
      try (apply Hfiles; left; reflexivity).
    apply (Hm _ _ H).
Qed.

Lemma fileMap_find_In p file :
  fileMap_find app p = Some file -> In file (getMarkdownFiles app).
Proof.
  unfold fileMap_find, fileMap. intros H.
  destruct (fold_left fileMap_add (getMarkdownFiles app) ∅ !! p) as [f|] eqn:E.
  - injection H as <-. eapply fileMap_fold_In; [| |exact E]; [|auto].
    intros k' v'. rewrite lookup_empty. discriminate.
  - eapply fileMap_fold_In; [| |exact H]; [|auto].
    intros k' v'. rewrite lookup_empty. discriminate.
Qed.

Lemma sound_empty : sound app empty_store.
Proof. split; [constructor | split; intros ? []]. Qed.

Lemma sound_visit p st : sound app st -> sound app (visit p st).
Proof. intros H. exact H. Qed.

Lemma sound_addNode file st :
  known_node app (file_node file) -> sound app st -> sound app (addNode file st).
Proof.
  intros Hk (Hnd & Hn & He). unfold addNode.
  destruct (nodes_has (replace_md_ext (path file)) (nodes st)) eqn:E;
    [exact (conj Hnd (conj Hn He))|].
  split; [|split]; cbn [nodes edges].
  - rewrite map_app. apply List.NoDup_app; [exact Hnd | repeat constructor; intros [] |].
    intros i Hi [<-|[]]. apply nodes_has_In in Hi. simpl in Hi. congruence.
  - intros n Hin. apply in_app_or in Hin as [Hin|[<-|[]]]; [apply Hn, Hin | exact Hk].
  - exact He.
Qed.

Lemma sound_pushEdge e st : link_edge app e -> sound app st -> sound app (pushEdge e st).
Proof.
  intros Hl (Hnd & Hn & He). split; [exact Hnd|]. split; [exact Hn|].
  cbn [pushEdge edges]. intros e' Hin.
  apply in_app_or in Hin as [Hin|[<-|[]]]; [apply He, Hin | exact Hl].
Qed.

Lemma known_vault_file file :
  In file (getMarkdownFiles app) -> known_node app (file_node file).
Proof. intros H. exists file. auto. Qed.

Lemma known_resolved f file :
  In f (getMarkdownFiles app) -> resolves app f file -> known_node app (file_node file).
Proof. intros Hf Hr. exists file. split; [reflexivity|]. right. eauto. Qed.

Lemma links_to_resolves other file :
  links_to app other file = true ->
  exists resolved, resolves app other resolved /\ path resolved = path file.
Proof.
  unfold links_to, resolves.
  destruct (getFileCache app other) as [cache|]; [|discriminate].
  destruct (links cache) as [ls|] eqn:El; [|discriminate].
  intros H. apply existsb_exists in H as (l & Hl & E).
  destruct (getFirstLinkpathDest app (link l) (path other)) as [resolved|] eqn:Er;
    [|discriminate].
  apply String.eqb_eq in E. exists resolved. split; [|exact E].
  exists cache, ls, l. auto.
Qed.

(** One iteration of an outgoing loop. *)
Lemma sound_out_link file o st :
  In file (getMarkdownFiles app) -> In o (getOutlinks app file) ->
  sound app st ->
  sound app (pushEdge {| source := replace_md_ext (path file);
                         target := replace_md_ext (path (fst o));
                         type := snd o |} (addNode (fst o) st)).
Proof.
  intros Hfile Ho Hst. apply GraphProofs.getOutlinks_resolves in Ho as [Ht Hr].
  apply sound_pushEdge; [|apply sound_addNode; [|exact Hst]].
  - exists file, (fst o). split; [exact Hfile|]. split; [exact Hr|].
    unfold link_from, file_id. rewrite Ht. reflexivity.
  - apply (known_resolved file); assumption.
Qed.

Lemma traverse_sound max_depth dir :
  forall fuel startPath currentDepth st st',
    traverse app max_depth dir fuel startPath currentDepth st = Some st' ->
    sound app st -> sound app st'.
Proof.
  induction fuel as [|fuel IH]; intros p d st st' H Hs; simpl in H.
  - destruct (max_depth <? d); [congruence|].
    destruct (bool_decide _); [congruence | discriminate].
  - destruct (max_depth <? d); [congruence|].
    destruct (bool_decide _); [congruence|].
    destruct (fileMap_find app p) as [file|] eqn:Efile;
      [|injection H as <-; apply sound_visit, Hs].
    pose proof (fileMap_find_In _ _ Efile) as Hfile.
    set (s0 := addNode file (visit p st)) in *.
    assert (H0 : sound app s0)
      by (apply sound_addNode; [apply known_vault_file, Hfile | apply sound_visit, Hs]).
    assert (Hout : forall o s s',
      In o (getOutlinks app file) ->
      out_step (traverse app max_depth dir fuel) (replace_md_ext (path file)) d o s = Some s' ->
      sound app s -> sound app s').
    { intros o s s1 Ho Hcall Hsd. unfold out_step in Hcall.
      apply (IH _ _ _ _ Hcall). apply sound_out_link; assumption. }
    assert (Hin : forall o s s',
      In o (getMarkdownFiles app) ->
      in_step app (traverse app max_depth dir fuel) file (replace_md_ext (path file)) d o s
        = Some s' ->
      sound app s -> sound app s').
    { intros o s s1 Ho Hcall Hsd. unfold in_step in Hcall.
      destruct (String.eqb _ _); [congruence|].
      destruct (links_to app o file) eqn:El; [|congruence].
      apply (IH _ _ _ _ Hcall).
      apply sound_pushEdge; [|apply sound_addNode; [apply known_vault_file, Ho | exact Hsd]].
      destruct (links_to_resolves _ _ El) as (resolved & Hr & Ep).
      exists o, resolved. split; [exact Ho|]. split; [exact Hr|].
      unfold link_from, file_id. rewrite Ep. reflexivity. }
    destruct (wants_out dir).
    + destruct (for_each _ (getOutlinks app file) s0) as [s1|] eqn:E1; [|discriminate].
      assert (H1 : sound app s1)
        by (eapply for_each_inv_In; [exact Hout | exact E1 | exact H0]).
      destruct (wants_in dir); [|congruence].
      eapply for_each_inv_In; [exact Hin | exact H | exact H1].
    + destruct (wants_in dir); [|congruence].
      eapply for_each_inv_In; [exact Hin | exact H | exact H0].
Qed.

Lemma link_fold_sound file l : forall st,
  In file (getMarkdownFiles app) ->
  (forall o, In o l -> In o (getOutlinks app file)) ->
  sound app st ->
  sound app
    (fold_left (fun st (o : TFile * EdgeType) =>
                  pushEdge {| source := replace_md_ext (path file);
                              target := replace_md_ext (path (fst o));
                              type := snd o |} (addNode (fst o) st)) l st).
Proof.
  induction l as [|o l IHl]; intros st Hfile Hl Hst; simpl; [exact Hst|].
  apply IHl; [exact Hfile | intros o' Ho; apply Hl; right; exact Ho|].
  apply sound_out_link; [exact Hfile | apply Hl; left; reflexivity | exact Hst].
Qed.

Lemma snapshot_sound : sound app (snapshot app).
Proof.
  unfold snapshot.
  assert (Hsub : forall f, In f (firstn 100 (getMarkdownFiles app)) ->
                           In f (getMarkdownFiles app))
    by (intros f; apply BatchProofs.In_firstn).
  revert Hsub. generalize (firstn 100 (getMarkdownFiles app)) as files.
  pose proof sound_empty as H0. revert H0. generalize empty_store as st.
  intros st Hst files. revert st Hst.
  induction files as [|file files IH]; intros st Hst Hsub; simpl; [exact Hst|].
  apply IH; [|intros f Hf; apply Hsub; right; exact Hf]. unfold snapshot_step.
  assert (Hfile : In file (getMarkdownFiles app)) by (apply Hsub; left; reflexivity).
  apply link_fold_sound; [exact Hfile | auto |].
  apply sound_addNode; [apply known_vault_file, Hfile | exact Hst].
Qed.

End Facts.

(** X15. A request without a body, or with the body [null], makes the
    handler throw.  For every other body the graph query answers -- the
    traversal terminates -- and its answer is a graph of the vault's
    links: no two nodes have the same id; every node describes a note
    of the vault or a file that a link of such a note resolves to; and
    every edge stands for a link of a note of the vault that
    [getFirstLinkpathDest] resolves, from that note to the file the
    link resolves to.  So a link that does not resolve never shows as
    an edge. *)
Theorem graph_result_sound app body :
  (exists msg, handle_query app None = Some (ReplyThrow msg)) /\
  exists r,
    handle_query app (Some body) = Some (ReplyJson r) /\
    List.NoDup (map id (r_nodes r)) /\
    (forall n, In n (r_nodes r) -> known_node app n) /\
    (forall e, In e (r_edges r) -> link_edge app e).
Proof.
  split; [eexists; reflexivity|].
  destruct (GraphProofs.run_query_total app body) as [r Hr]. exists r.
  split; [unfold handle_query; rewrite Hr; reflexivity|].
  unfold run_query, graph_query in Hr.
  destruct (query_store app (enough_fuel body) body) as [st|] eqn:E; [|discriminate].
  injection Hr as <-. cbn [result_of r_nodes r_edges].
  enough (H : sound app st) by exact H.
  unfold query_store in E. destruct (from body) as [[|c s]|].
  - injection E as <-. apply snapshot_sound.
  - eapply traverse_sound; [exact E | apply sound_empty].
  - injection E as <-. apply snapshot_sound.
Qed.

Lemma graph_result_sound_witness :
  exists r,
    handle_query Fixtures.cycle_vault
      (Some {| from := Some "B"; depth := Some 0; direction := Some "in" |})
    = Some (ReplyJson r) /\
    r = {| r_nodes := [Fixtures.node_B; Fixtures.node_A];
           r_edges := [Fixtures.edge_AB] |} /\
    link_edge Fixtures.cycle_vault Fixtures.edge_AB /\
    known_node Fixtures.cycle_vault Fixtures.node_A /\
    handle_query (Fixtures.vault_of ["A"] (fun _ => ["Ghost"]))
      (Some {| from := None; depth := None; direction := None |})
    = Some (ReplyJson {| r_nodes := [Fixtures.node_A]; r_edges := [] |}).
Proof.
  destruct (graph_result_sound Fixtures.cycle_vault
              {| from := Some "B"; depth := Some 0; direction := Some "in" |})
    as (_ & r & Hr & _ & Hn & He).
  assert (E : handle_query Fixtures.cycle_vault
                (Some {| from := Some "B"; depth := Some 0; direction := Some "in" |})
              = Some (ReplyJson {| r_nodes := [Fixtures.node_B; Fixtures.node_A];
                                   r_edges := [Fixtures.edge_AB] |}))
    by (vm_compute; reflexivity).
  rewrite E in Hr. injection Hr as <-.
  eexists. split; [exact E|]. split; [reflexivity|].
  split; [apply He; left; reflexivity|].
  split; [apply Hn; right; left; reflexivity | reflexivity].
Defined.

(** X16. Requests that find nothing are answered with a graph, not with
    an error: a start note that the vault does not know, or a negative
    depth, gives the empty graph; a direction other than [in], [out]
    and [both] gives the start note alone, without edges. *)
Theorem graph_query_degenerate app c s d dir :
  let body := {| from := Some (String c s); depth := d; direction := Some dir |} in
  (fileMap_find app (String c s) = None -> run_query app body = Some empty_result) /\
  (forall k, d = Some k -> k < 0 -> run_query app body = Some empty_result) /\
  (forall file,
     fileMap_find app (String c s) = Some file ->
     match d with Some k => 0 <= k | None => True end ->
     known_direction dir = false ->
     run_query app body = Some {| r_nodes := [file_node file]; r_edges := [] |}).
Proof.
  intros body. unfold run_query, graph_query, query_store, enough_fuel.
  cbn [from depth direction body].
  set (k := match d with Some k => k | None => 1 end).
  split; [|split].
  - intros Hf. destruct (Z.to_nat (k + 1)) as [|fuel] eqn:Ef; simpl.
    + destruct (Z.ltb_spec k 0); [reflexivity | lia].
    + destruct (k <? 0); [reflexivity|]. rewrite Hf. reflexivity.
  - intros k' -> Hneg. subst k.
    destruct (Z.to_nat (k' + 1)) as [|fuel]; simpl;
      destruct (Z.ltb_spec k' 0); try lia; reflexivity.
  - intros file Hf Hd Hdir.
    assert (Hk : 0 <= k) by (subst k; destruct d; [exact Hd | lia]).
    destruct (Z.to_nat (k + 1)) as [|fuel] eqn:Ef; [lia|]. simpl.
    destruct (Z.ltb_spec k 0); [lia|]. rewrite Hf.
    unfold known_direction in Hdir. apply orb_false_iff in Hdir as [Hdir Hb].
    apply orb_false_iff in Hdir as [Hi Ho].
    unfold wants_out, wants_in. rewrite Hi, Ho, Hb. simpl. reflexivity.
Qed.

Lemma graph_query_degenerate_witness :
  run_query Fixtures.cycle_vault
    {| from := Some "Z"; depth := Some 3; direction := Some "both" |} = Some empty_result.
Proof.
  apply (proj1 (graph_query_degenerate Fixtures.cycle_vault "Z" "" (Some 3) "both")).
  vm_compute. reflexivity.
Defined.

End GraphSoundness.

(** ** graph.ts: neighbours *)

Module NeighborsProofs.
Import Js Obsidian Routes Graph Neighbors.

Section Facts.
Variable app : App.
Variable centerFile : TFile.

Lemma tracks_push st fs f side :
  tracks st fs -> path f ∉ snd st ->
  tracks (fst st ++ [neighbor_of f side], {[ path f ]} ∪ snd st) (fs ++ [(f, side)]).
Proof.
  intros (Hl & Hnd & Hseen) Hnew. unfold tracks, listed, paths_of in *. cbn [fst snd].
  rewrite !map_app. split; [rewrite Hl; reflexivity|]. split.
  - apply List.NoDup_app; [exact Hnd | repeat constructor; intros [] |].
    intros p Hp [<-|[]]. apply Hnew, Hseen, Hp.
  - intros p. rewrite elem_of_union, elem_of_singleton, in_app_iff, Hseen. simpl.
    intuition congruence.
Qed.

Lemma paths_of_app fs more : paths_of (fs ++ more) = paths_of fs ++ paths_of more.
Proof. apply map_app. Qed.

Lemma out_loop ls : forall st fs,
  tracks st fs ->
  exists more,
    tracks (fold_left (out_link app centerFile) ls st) (fs ++ more) /\
    (forall x, In x more ->
       snd x = side_out /\
       exists l, In l ls /\
                 getFirstLinkpathDest app (link l) (path centerFile) = Some (fst x)) /\
    (forall l r, In l ls ->
       getFirstLinkpathDest app (link l) (path centerFile) = Some r ->
       In (path r) (paths_of (fs ++ more))).
Proof.
  induction ls as [|l ls IH]; intros st fs Ht; cbn [fold_left].
  - exists []. rewrite app_nil_r. split; [exact Ht|]. split; [intros ? [] | intros ? ? []].
  - unfold out_link at 2.
    destruct (getFirstLinkpathDest app (link l) (path centerFile)) as [resolved|] eqn:Er.
    + destruct (bool_decide_reflect (path resolved ∈ snd st)) as [Hseen|Hnew].
      * destruct (IH st fs Ht) as (more & Ht' & Hsound & Hall).
        exists more. split; [exact Ht'|]. split.
        -- intros x Hx. destruct (Hsound x Hx) as (Hs & l' & Hl' & E).
           split; [exact Hs|]. exists l'. split; [right; exact Hl' | exact E].
        -- intros l' r [<-|Hl'] E; [|eapply Hall; eassumption].
           rewrite Er in E. injection E as <-.
           rewrite paths_of_app. apply in_or_app. left.
           apply (proj2 (proj2 Ht)), Hseen.
      * destruct (IH _ _ (tracks_push st fs resolved side_out Ht Hnew))
          as (more & Ht' & Hsound & Hall).
        exists ((resolved, side_out) :: more).
        replace (fs ++ (resolved, side_out) :: more)
          with ((fs ++ [(resolved, side_out)]) ++ more)
          by (rewrite <- List.app_assoc; reflexivity).
        split; [exact Ht'|]. split.
        -- intros x [<-|Hx].
           ++ split; [reflexivity|]. exists l. split; [left; reflexivity | exact Er].
           ++ destruct (Hsound x Hx) as (Hs & l' & Hl' & E).
              split; [exact Hs|]. exists l'. split; [right; exact Hl' | exact E].
        -- intros l' r [<-|Hl'] E; [|eapply Hall; eassumption].
           rewrite Er in E. injection E as <-.
           rewrite !paths_of_app. apply in_or_app. left. apply in_or_app. right.
           left. reflexivity.
    + destruct (IH st fs Ht) as (more & Ht' & Hsound & Hall).
      exists more. split; [exact Ht'|]. split.
      * intros x Hx. destruct (Hsound x Hx) as (Hs & l' & Hl' & E).
        split; [exact Hs|]. exists l'. split; [right; exact Hl' | exact E].
      * intros l' r [<-|Hl'] E; [congruence | eapply Hall; eassumption].
Qed.

Lemma in_loop files : forall st fs,
  tracks st fs ->
  exists more,
    tracks (fold_left (in_file app centerFile) files st) (fs ++ more) /\
    (forall x, In x more ->
       snd x = side_in /\ In (fst x) files /\
       path (fst x) <> path centerFile /\ links_to app (fst x) centerFile = true) /\
    (forall f, In f files -> path f <> path centerFile ->
       links_to app f centerFile = true -> In (path f) (paths_of (fs ++ more))).
Proof.
  induction files as [|file files IH]; intros st fs Ht; cbn [fold_left].
  - exists []. rewrite app_nil_r. split; [exact Ht|]. split; [intros ? [] | intros ? []].
  - unfold in_file at 2.
    destruct (String.eqb_spec (path file) (path centerFile)) as [Ec|Hc]; cbn [orb].
    { destruct (IH st fs Ht) as (more & Ht' & Hsound & Hall).
      exists more. split; [exact Ht'|]. split.
      - intros x Hx. destruct (Hsound x Hx) as (Hs & Hin & Hrest).
        split; [exact Hs|]. split; [right; exact Hin | exact Hrest].
      - intros f [<-|Hf] Hne Hl; [contradiction | eapply Hall; eassumption]. }
    destruct (bool_decide_reflect (path file ∈ snd st)) as [Hseen|Hnew].
    { destruct (IH st fs Ht) as (more & Ht' & Hsound & Hall).
      exists more. split; [exact Ht'|]. split.
      - intros x Hx. destruct (Hsound x Hx) as (Hs & Hin & Hrest).
        split; [exact Hs|]. split; [right; exact Hin | exact Hrest].
      - intros f [<-|Hf] Hne Hl; [|eapply Hall; eassumption].
        rewrite paths_of_app. apply in_or_app. left. apply (proj2 (proj2 Ht)), Hseen. }
    destruct (links_to app file centerFile) eqn:El.
    + destruct (IH _ _ (tracks_push st fs file side_in Ht Hnew))
        as (more & Ht' & Hsound & Hall).
      exists ((file, side_in) :: more).
      replace (fs ++ (file, side_in) :: more)
        with ((fs ++ [(file, side_in)]) ++ more)
        by (rewrite <- List.app_assoc; reflexivity).
      split; [exact Ht'|]. split.
      * intros x [<-|Hx]; [cbn [fst snd]; split; [reflexivity|]; split; [left; reflexivity | auto]|].
        destruct (Hsound x Hx) as (Hs & Hin & Hrest).
        split; [exact Hs|]. split; [right; exact Hin | exact Hrest].
      * intros f [<-|Hf] Hne Hl; [|eapply Hall; eassumption].
        rewrite !paths_of_app. apply in_or_app. left. apply in_or_app. right.
        left. reflexivity.
    + destruct (IH st fs Ht) as (more & Ht' & Hsound & Hall).
      exists more. split; [exact Ht'|]. split.
      * intros x Hx. destruct (Hsound x Hx) as (Hs & Hin & Hrest).
        split; [exact Hs|]. split; [right; exact Hin | exact Hrest].
      * intros f [<-|Hf] Hne Hl; [congruence | eapply Hall; eassumption].
Qed.

Lemma outlink_resolved f :
  In (f, wiki) (getOutlinks app centerFile) <->
  exists cache ls l,
    getFileCache app centerFile = Some cache /\ links cache = Some ls /\ In l ls /\
    getFirstLinkpathDest app (link l) (path centerFile) = Some f.
Proof.
  unfold getOutlinks. split.
  - destruct (getFileCache app centerFile) as [cache|] eqn:Ec; [|intros []].
    destruct (links cache) as [ls|] eqn:Els; [|intros []].
    intros H. apply in_flat_map in H as (l & Hl & Hin).
    destruct (getFirstLinkpathDest app (link l) (path centerFile)) as [r|] eqn:E;
      [|destruct Hin].
    destruct Hin as [Hin|[]]. injection Hin as ->. exists cache, ls, l.
    repeat split; (reflexivity || assumption).
  - intros (cache & ls & l & -> & -> & Hl & E). apply in_flat_map.
    exists l. split; [exact Hl|]. rewrite E. left. reflexivity.
Qed.

End Facts.

(** X17. The neighbours of a note.  A path that is not a file of the
    vault is answered with 404.  Otherwise the list holds no file
    twice; a file listed as outgoing is the target of a link of the
    centre, and a file listed as incoming is another note of the vault
    that links to the centre; and nothing is missed: when outgoing
    links are asked for, every file a link of the centre resolves to is
    listed, and when incoming links are asked for, so is every other
    note that links to the centre -- as outgoing if it already is
    there, so a note linked both ways appears once. *)
Theorem neighbors_listing app params_path direction :
  match getAbstractFileByPath app (center_path params_path) with
  | Some (AFile centerFile) =>
      exists fs,
        neighbors app params_path direction = ReplyJson (listed fs) /\
        List.NoDup (paths_of fs) /\
        (forall x, In x fs -> justified app centerFile x) /\
        (wants_out (direction_of direction) = true ->
         forall f, In (f, wiki) (getOutlinks app centerFile) -> In (path f) (paths_of fs)) /\
        (wants_in (direction_of direction) = true ->
         forall f, In f (getMarkdownFiles app) -> path f <> path centerFile ->
                   links_to app f centerFile = true -> In (path f) (paths_of fs))
  | _ =>
      neighbors app params_path direction =
      ReplyError 404 "NOT_FOUND" ("Note not found: " ++ params_path)%string
  end.
Proof.
  unfold neighbors. fold (direction_of direction). fold (center_path params_path).
  destruct (getAbstractFileByPath app (center_path params_path)) as [[centerFile|p]|];
    [|reflexivity|reflexivity].
  assert (H0 : tracks (([], ∅) : Acc) []).
  { split; [reflexivity|]. split; [constructor|]. intros p. simpl. set_solver. }
  (* the outgoing part *)
  assert (Hout : exists outs,
    tracks (if wants_out (direction_of direction)
            then match getFileCache app centerFile with
                 | Some cache =>
                     match links cache with
                     | Some ls => fold_left (out_link app centerFile) ls ([], ∅)
                     | None => ([], ∅)
                     end
                 | None => ([], ∅)
                 end
            else ([], ∅)) outs /\
    (forall x, In x outs -> justified app centerFile x) /\
    (wants_out (direction_of direction) = true ->
     forall f, In (f, wiki) (getOutlinks app centerFile) -> In (path f) (paths_of outs))).
  { destruct (wants_out (direction_of direction)).
    2:{ exists []. split; [exact H0|]. split; [intros ? [] | discriminate]. }
    destruct (getFileCache app centerFile) as [cache|] eqn:Ec.
    2:{ exists []. split; [exact H0|]. split; [intros ? []|]. intros _ f Hf.
        apply outlink_resolved in Hf as (c & ls & l & E & _). congruence. }
    destruct (links cache) as [ls|] eqn:El.
    2:{ exists []. split; [exact H0|]. split; [intros ? []|]. intros _ f Hf.
        apply outlink_resolved in Hf as (c & ls & l & E & E' & _). congruence. }
    destruct (out_loop app centerFile ls _ _ H0) as (more & Ht & Hsound & Hall).
    exists more. split; [exact Ht|]. split.
    - intros [f sd] Hx. destruct (Hsound _ Hx) as (Hs & l & Hl & E).
      cbn [fst snd] in *. subst sd. unfold justified. cbn [fst snd].
      apply outlink_resolved. exists cache, ls, l. auto.
    - intros _ f Hf. apply outlink_resolved in Hf as (c & ls' & l & E & E' & Hl & Er).
      assert (c = cache) by congruence. subst c.
      assert (ls' = ls) by congruence. subst ls'.
      exact (Hall l f Hl Er). }
  destruct Hout as (outs & Ht & Hsound & Hall).
  destruct (wants_in (direction_of direction)).
  - destruct (in_loop app centerFile (getMarkdownFiles app) _ _ Ht)
      as (more & Ht' & Hsound' & Hall').
    exists (outs ++ more). destruct Ht' as (Hl & Hnd & _).
    split; [rewrite Hl; reflexivity|]. split; [exact Hnd|]. split; [|split].
    + intros x Hx. apply in_app_or in Hx as [Hx|Hx]; [apply Hsound, Hx|].
      destruct x as [f sd]. destruct (Hsound' _ Hx) as (Hs & Hrest).
      cbn [fst snd] in *. subst sd. exact Hrest.
    + intros Hw f Hf. rewrite paths_of_app. apply in_or_app. left. apply Hall; assumption.
    + intros _. exact Hall'.
  - exists outs. destruct Ht as (Hl & Hnd & _).
    split; [rewrite Hl; reflexivity|]. split; [exact Hnd|]. split; [exact Hsound|].
    split; [exact Hall | discriminate].
Qed.

End NeighborsProofs.

(** ** More on the link routes *)

Module LinkListings.
Import Js Obsidian Platform Utils Routes Links LinksFacts.

Section Facts.
Variable rt : Runtime.
Variable app : App.

Lemma backlink_entry_cases targetFile targetPath file :
  backlink_entry rt app targetFile targetPath file =
  if refers app targetPath file
  then match link_regexp rt (basename targetFile) with
       | None => []
       | Some re =>
           match vault_read app file with
           | Some content =>
               [ {| bl_info := fileToNoteInfo app file (getFileCache app file);
                    bl_context := match re content with
                                  | Some m => getContext rt content m
                                  | None => ""
                                  end |} ]
           | None => []
           end
       end
  else [].
Proof.
  unfold backlink_entry, refers, readable, all_links.
  destruct (String.eqb (path file) targetPath); [reflexivity|]. cbn [negb andb].
  destruct (getFileCache app file) as [cache|]; [|reflexivity].
  assert (Hgen : forall all : list LinkCache,
    (if existsb (resolves_to app file targetPath) all
     then match vault_read app file with
          | None => []
          | Some content =>
              match link_regexp rt (basename targetFile) with
              | None => []
              | Some re =>
                  [ {| bl_info := fileToNoteInfo app file (Some cache);
                       bl_context := match re content with
                                     | Some m => getContext rt content m
                                     | None => ""
                                     end |} ]
              end
          end
     else []) =
    (if existsb (resolves_to app file targetPath) all &&
        match vault_read app file with Some _ => true | None => false end
     then match link_regexp rt (basename targetFile) with
          | None => []
          | Some re =>
              match vault_read app file with
              | Some content =>
                  [ {| bl_info := fileToNoteInfo app file (Some cache);
                       bl_context := match re content with
                                     | Some m => getContext rt content m
                                     | None => ""
                                     end |} ]
              | None => []
              end
          end
     else [])).
  { intros all. destruct (existsb _ all); [|reflexivity].
    destruct (vault_read app file); [|destruct (link_regexp rt _); reflexivity].
    reflexivity. }
  destruct (links cache) as [ls|], (embeds cache) as [es|];
    [apply Hgen | apply Hgen | apply Hgen | reflexivity].
Qed.

Lemma backlinks_filter targetFile targetPath re files :
  link_regexp rt (basename targetFile) = Some re ->
  map bl_info (flat_map (backlink_entry rt app targetFile targetPath) files) =
  map (fun f => fileToNoteInfo app f (getFileCache app f))
      (List.filter (refers app targetPath) files).
Proof.
  intros Hre. induction files as [|f files IH]; [reflexivity|].
  cbn [flat_map List.filter]. rewrite map_app, IH, backlink_entry_cases, Hre.
  destruct (refers app targetPath f) eqn:E; [|reflexivity].
  unfold refers, readable in E. apply andb_true_iff in E as [_ E].
  destruct (vault_read app f); [reflexivity | discriminate].
Qed.

Lemma backlinks_no_pattern targetFile targetPath files :
  link_regexp rt (basename targetFile) = None ->
  flat_map (backlink_entry rt app targetFile targetPath) files = [].
Proof.
  intros Hre. induction files as [|f files IH]; [reflexivity|].
  cbn [flat_map]. rewrite IH, backlink_entry_cases, Hre.
  destruct (refers app targetPath f); reflexivity.
Qed.

(** *** Outgoing links *)

Lemma link_loop sourcePath content srcs ls : forall st,
  (forall l, In l ls -> In l srcs) ->
  reported app sourcePath st ->
  (forall e, In e (fst st) -> li_exists e = false -> missing_from app sourcePath srcs e) ->
  let st' := fold_left (outlink_of_link rt app sourcePath content) ls st in
  reported app sourcePath st' /\
  (forall e, In e (fst st') -> li_exists e = false -> missing_from app sourcePath srcs e) /\
  (forall t, t ∈ snd st -> t ∈ snd st') /\
  (forall l, In l ls -> link l ∈ snd st').
Proof.
  induction ls as [|l ls IH]; intros st Hsrc Hrep Hprov; cbn [fold_left].
  - split; [exact Hrep|]. split; [exact Hprov|]. split; [auto | intros ? []].
  - assert (Hstep : reported app sourcePath (outlink_of_link rt app sourcePath content st l) /\
                    (forall e, In e (fst (outlink_of_link rt app sourcePath content st l)) ->
                               li_exists e = false -> missing_from app sourcePath srcs e) /\
                    (forall t, t ∈ snd st ->
                               t ∈ snd (outlink_of_link rt app sourcePath content st l)) /\
                    link l ∈ snd (outlink_of_link rt app sourcePath content st l)).
    { destruct st as [outs seen]. unfold outlink_of_link.
      destruct (bool_decide_reflect (link l ∈ seen)) as [Hin|Hnew];
        [split; [exact Hrep|]; split; [exact Hprov|]; split; [auto | exact Hin]|].
      cbn [fst snd]. split; [|split; [|split]].
      - intros t Ht Hnone. cbn [fst snd] in *.
        apply elem_of_union in Ht as [Ht|Ht].
        + apply elem_of_singleton in Ht. subst t. rewrite Hnone.
          eexists. split; [apply in_or_app; right; left; reflexivity|].
          repeat split.
        + destruct (Hrep t Ht Hnone) as (e & He & Hm).
          exists e. split; [apply in_or_app; left; exact He | exact Hm].
      - intros e He Hex. apply in_app_or in He as [He|[<-|[]]]; [apply Hprov; assumption|].
        cbn [li_exists] in Hex.
        destruct (getFirstLinkpathDest app (link l) sourcePath) eqn:Er; [discriminate|].
        exists l. split; [apply Hsrc; left; reflexivity|]. split; [exact Er|].
        repeat split.
      - intros t Ht. apply elem_of_union. right. exact Ht.
      - apply elem_of_union. left. apply elem_of_singleton. reflexivity. }
    destruct Hstep as (H1 & H2 & H3 & H4).
    destruct (IH (outlink_of_link rt app sourcePath content st l)
                 (fun x Hx => Hsrc x (or_intror Hx)) H1 H2) as (I1 & I2 & I3 & I4).
    split; [exact I1|]. split; [exact I2|]. split; [auto|].
    intros l' [<-|Hl']; [apply I3, H4 | apply I4, Hl'].
Qed.

Lemma embed_loop sourcePath content es : forall st,
  exists more,
    fst (fold_left (outlink_of_embed rt app sourcePath content) es st) = fst st ++ more /\
    forall e, In e more -> li_exists e = true.
Proof.
  induction es as [|x es IH]; intros st; cbn [fold_left].
  - exists []. rewrite app_nil_r. split; [reflexivity | intros ? []].
  - destruct (IH (outlink_of_embed rt app sourcePath content st x)) as (more & E & Hm).
    assert (Hstep : exists one,
               fst (outlink_of_embed rt app sourcePath content st x) = fst st ++ one /\
               forall e, In e one -> li_exists e = true).
    { destruct st as [outs seen]. unfold outlink_of_embed.
      destruct (bool_decide _);
        [exists []; rewrite app_nil_r; split; [reflexivity | intros ? []]|].
      destruct (getFirstLinkpathDest app (link x) sourcePath) as [r|];
        [|exists []; rewrite app_nil_r; split; [reflexivity | intros ? []]].
      destruct (String.eqb (extension r) "md");
        [|exists []; rewrite app_nil_r; split; [reflexivity | intros ? []]].
      eexists. split; [reflexivity|]. intros e [<-|[]]. reflexivity. }
    destruct Hstep as (one & E1 & H1).
    exists (one ++ more). rewrite E, E1, <- List.app_assoc. split; [reflexivity|].
    intros e He. apply in_app_or in He as [He|He]; auto.
Qed.

End Facts.
(** X18. The backlinks of a note are exactly the other notes of the
    vault that have a link or an embed resolving to it and that can be
    read, one entry each, in vault order; the note itself is never
    among them.  That holds when the pattern built from the note's name
    is a valid regular expression; when it is not -- the name is put
    into the pattern unescaped -- the list is empty, whatever links to
    the note.  A path that is not a file is answered with 404. *)
Theorem backlinks_listing rt app params_path :
  match getAbstractFileByPath app (normalizePath params_path) with
  | Some (AFile targetFile) =>
      exists bs,
        backlinks rt app params_path = ReplyJson bs /\
        match link_regexp rt (basename targetFile) with
        | Some _ =>
            map bl_info bs =
            map (fun f => fileToNoteInfo app f (getFileCache app f))
                (List.filter (refers app (normalizePath params_path))
                             (getMarkdownFiles app))
        | None => bs = []
        end
  | _ =>
      backlinks rt app params_path =
      ReplyError 404 "NOT_FOUND" ("Note not found: " ++ params_path)%string
  end.
Proof.
  unfold backlinks.
  destruct (getAbstractFileByPath app (normalizePath params_path)) as [[targetFile|]|];
    [|reflexivity|reflexivity].
  eexists. split; [reflexivity|].
  destruct (link_regexp rt (basename targetFile)) as [re|] eqn:Hre.
  - apply (backlinks_filter rt app targetFile _ re), Hre.
  - apply backlinks_no_pattern, Hre.
Qed.

(** X19. Links to notes that do not exist are reported, embeds of them
    are not: for a note that can be read, every link whose text does
    not resolve has an entry marked as missing, with the link text as
    its path and title, and every entry marked as missing stems from
    such a link; all other entries show a file that a link or embed
    resolves to. *)
Theorem outlinks_missing_links rt app params_path sourceFile content :
  getAbstractFileByPath app (normalizePath params_path) = Some (AFile sourceFile) ->
  vault_read app sourceFile = Some content ->
  exists es,
    outlinks rt app params_path = ReplyJson es /\
    (forall l, In l (links_of (getFileCache app sourceFile)) ->
       getFirstLinkpathDest app (link l) (normalizePath params_path) = None ->
       exists e, In e es /\ missing (link l) e) /\
    (forall e, In e es ->
       if li_exists e
       then from_resolved app (normalizePath params_path)
                          (all_links (getFileCache app sourceFile)) e
       else missing_from app (normalizePath params_path)
                         (links_of (getFileCache app sourceFile)) e).
Proof.
  intros HX Hread.
  assert (Hres : forall es e, outlinks rt app params_path = ReplyJson es -> In e es ->
                   li_exists e = true ->
                   from_resolved app (normalizePath params_path)
                                 (all_links (getFileCache app sourceFile)) e).
  { intros es e Ho He Hex.
    apply (LinksProofs.outlinks_resolved rt app params_path sourceFile es e HX Ho He Hex). }
  revert Hres. unfold outlinks. rewrite HX, Hread.
  set (sp := normalizePath params_path).
  set (srcs := links_of (getFileCache app sourceFile)).
  set (st1 := match getFileCache app sourceFile with
              | Some c => match links c with
                          | Some ls => fold_left (outlink_of_link rt app sp content) ls ([], ∅)
                          | None => ([], ∅)
                          end
              | None => ([], ∅)
              end).
  set (st2 := match getFileCache app sourceFile with
              | Some c => match embeds c with
                          | Some es => fold_left (outlink_of_embed rt app sp content) es st1
                          | None => st1
                          end
              | None => st1
              end).
  intros Hres. exists (fst st2). split; [reflexivity|].
  assert (H1 : (forall l, In l srcs -> getFirstLinkpathDest app (link l) sp = None ->
                          exists e, In e (fst st1) /\ missing (link l) e) /\
               (forall e, In e (fst st1) -> li_exists e = false ->
                          missing_from app sp srcs e)).
  { assert (H0 : reported app sp ([], ∅)) by (intros t Ht; set_solver).
    subst st1 srcs. unfold links_of.
    destruct (getFileCache app sourceFile) as [c|]; [|split; [intros ? [] | intros ? []]].
    destruct (links c) as [ls|]; [|split; [intros ? [] | intros ? []]].
    destruct (link_loop rt app sp content ls ls ([], ∅)) as (I1 & I2 & _ & I4);
      [auto | exact H0 | intros ? [] |].
    split; [|exact I2]. intros l Hl Hnone. apply (I1 (link l)); [apply I4, Hl | exact Hnone]. }
  destruct H1 as [Hall Hprov].
  assert (H2 : exists more, fst st2 = fst st1 ++ more /\
                            forall e, In e more -> li_exists e = true).
  { subst st2. destruct (getFileCache app sourceFile) as [c|];
      [|exists []; rewrite app_nil_r; split; [reflexivity | intros ? []]].
    destruct (embeds c) as [es|];
      [apply embed_loop | exists []; rewrite app_nil_r; split; [reflexivity | intros ? []]]. }
  destruct H2 as (more & E & Hmore).
  split.
  - intros l Hl Hnone. destruct (Hall l Hl Hnone) as (e & He & Hm).
    exists e. split; [rewrite E; apply in_or_app; left; exact He | exact Hm].
  - intros e He. destruct (li_exists e) eqn:Hex.
    + apply (Hres (fst st2) e eq_refl He Hex).
    + rewrite E in He. apply in_app_or in He as [He|He]; [apply Hprov; assumption|].
      rewrite (Hmore e He) in Hex. discriminate.
Qed.

Lemma outlinks_missing_links_witness :
  exists es,
    outlinks Fixtures.plain_runtime Fixtures.cycle_vault "A" = ReplyJson es /\
    forall e, In e es ->
      if li_exists e
      then from_resolved Fixtures.cycle_vault "A.md"
             (all_links (getFileCache Fixtures.cycle_vault (Fixtures.note "A"))) e
      else missing_from Fixtures.cycle_vault "A.md"
             (links_of (getFileCache Fixtures.cycle_vault (Fixtures.note "A"))) e.
Proof.
  destruct (outlinks_missing_links Fixtures.plain_runtime Fixtures.cycle_vault "A"
              (Fixtures.note "A") "[[B]]" eq_refl eq_refl) as (es & E & _ & H).
  exists es. split; [exact E | exact H].
Defined.

End LinkListings.

(** ** Bulk scans over a vault with a note that cannot be read *)

Module IsolationProofs.
Import Js Obsidian Platform Utils Routes LinksFacts SearchFacts UtilsFacts TagNotes Fixtures.

Section Isolation.
Variable rt : Runtime.
Variable app : App.

Lemma run_batch_readers {R St : Type} (f : TFile -> R)
    (processor : TFile -> St -> St * Outcome (option R)) :
  (forall x s', processor x s' =
                (s', match vault_read app x with
                     | Some _ => Ok (Some (f x))
                     | None => Throw "read failed"
                     end)) ->
  forall files s,
    run_batch processor files s =
    (map (fun x => if readable app x then Some (f x) else None) files, s).
Proof.
  intros Hp. induction files as [|x files IH]; intros s; [reflexivity|].
  cbn [run_batch map]. rewrite Hp, IH. unfold readable.
  destruct (vault_read app x); reflexivity.
Qed.

Lemma non_null_readers {R : Type} (f : TFile -> R) files :
  non_null (map (fun x => if readable app x then Some (f x) else None) files) =
  map f (List.filter (readable app) files).
Proof.
  unfold non_null. induction files as [|x files IH]; [reflexivity|].
  cbn [map flat_map List.filter]. rewrite IH. destruct (readable app x); reflexivity.
Qed.

(** C9. Let reading one of the vault's notes fail.  [processBatch], with
    the width the routes use, returns: with a processor that throws on
    that note it returns what it returns without the note, and with a
    processor that reads each note and computes a result from it, it
    returns the results of the other notes that can be read, in their
    order.  A search with a query replies with the results of the other
    notes -- one for each note in scope that can be read and has a
    match, up to the limit, sorted -- exactly as if the failing note
    were not in the vault; every result in the reply is computed from a
    note whose read succeeded, and when the limit leaves room for them
    all, every other note that can be read and has a match has its
    result in the reply.  The backlinks of a note are listed as if the
    failing note were not in the vault, and every other note that refers
    to the target and can be read has its entry.  The tag listing reads
    no note: its reply does not depend on what the reads do, and every
    tag of every note is listed with a count of at least one.  No reply
    to a request whose body can be destructured is a thrown error. *)
Theorem bulk_scans_isolate_failures before bad after :
  getMarkdownFiles app = before ++ bad :: after ->
  vault_read app bad = None ->
  let rest := with_files app (before ++ after) in
  (forall (R St : Type) (processor : TFile -> St -> St * Outcome (option R)) (s : St),
      (forall s', exists msg, processor bad s' = (s', Throw msg)) ->
      exists out,
        processBatch processor (getMarkdownFiles app) 50 s = Some out /\
        processBatch processor (getMarkdownFiles rest) 50 s = Some out) /\
  (forall (R St : Type) (f : TFile -> R)
          (processor : TFile -> St -> St * Outcome (option R)) (s : St),
      (forall x s', processor x s' =
                    (s', match vault_read app x with
                         | Some _ => Ok (Some (f x))
                         | None => Throw "read failed"
                         end)) ->
      processBatch processor (getMarkdownFiles app) 50 s =
      Some (map f (List.filter (readable app) (before ++ after)), s)) /\
  (forall body,
      (forall c q, Search.query body = Some (String c q) ->
         let results :=
           slice_upto (stable_sort Search.more_matches
                         (take_cap (limit_of body) (found rt app body (before ++ after))))
                      (limit_of body) in
         Search.handle_search rt app (Some body) = Some (ReplyJson results) /\
         Search.handle_search rt rest (Some body) = Some (ReplyJson results) /\
         (forall r, In r results -> Search.from_readable rt app body r) /\
         (fits (length (found rt app body (before ++ after))) (limit_of body) ->
          forall file content,
            In file (before ++ after) -> in_scope body file = true ->
            vault_read app file = Some content ->
            Search.note_matches rt (sensitive body) (needle rt body) content
                                (getFileCache app file) <> [] ->
            In {| Search.note := fileToNoteInfo app file (getFileCache app file);
                  Search.matches :=
                    Search.note_matches rt (sensitive body) (needle rt body) content
                                        (getFileCache app file) |}
               results)) /\
      exists reply,
        Search.handle_search rt app (Some body) = Some reply /\
        Search.handle_search rt rest (Some body) = Some reply /\
        forall msg, reply <> ReplyThrow msg) /\
  (forall p,
      Links.backlinks rt app p = Links.backlinks rt rest p /\
      (forall msg, Links.backlinks rt app p <> ReplyThrow msg) /\
      (forall bs, Links.backlinks rt app p = ReplyJson bs ->
         forall b, In b bs -> Links.backlink_from_readable app b) /\
      (forall targetFile re,
         getAbstractFileByPath app (normalizePath p) = Some (AFile targetFile) ->
         link_regexp rt (basename targetFile) = Some re ->
         exists bs,
           Links.backlinks rt app p = ReplyJson bs /\
           forall file content,
             In file (before ++ after) ->
             refers app (normalizePath p) file = true ->
             vault_read app file = Some content ->
             In {| Links.bl_info := fileToNoteInfo app file (getFileCache app file);
                   Links.bl_context := match re content with
                                       | Some m => getContext rt content m
                                       | None => ""
                                       end |} bs)) /\
  (forall read, Tags.list_tags (with_read app read) = Tags.list_tags app) /\
  (exists counts,
      Tags.list_tags app = ReplyJson counts /\
      forall file cache t,
        In file (before ++ after) ->
        getFileCache app file = Some cache ->
        In t (declared_tags (Some cache) ++ inline_tags (Some cache)) ->
        exists n, In {| Tags.tc_tag := t; Tags.tc_count := n |} counts /\ 1 <= n).
Proof.
  intros Hfiles Hbad rest.
  assert (Hr : readable app bad = false) by (unfold readable; rewrite Hbad; reflexivity).
  assert (Hf : List.filter (readable app) (getMarkdownFiles app) =
               List.filter (readable app) (before ++ after)).
  { rewrite Hfiles. apply BatchProofs.filter_drop_unreadable, Hr. }
  assert (Hin : forall x, In x (before ++ after) -> In x (getMarkdownFiles app)).
  { intros x. rewrite Hfiles, !in_app_iff. simpl. tauto. }
  assert (Hsearch : forall body c q,
    Search.query body = Some (String c q) ->
    Search.search rt app body =
    Some (ReplyJson
            (slice_upto (stable_sort Search.more_matches
                           (take_cap (limit_of body) (found rt app body (before ++ after))))
                        (limit_of body))) /\
    Search.search rt rest body = Search.search rt app body).
  { intros body c q Hq.
    rewrite (SearchProofs.search_exact rt app body c q Hq),
            (SearchProofs.search_exact rt rest body c q Hq).
    change (found rt rest body (getMarkdownFiles rest))
      with (found rt app body (before ++ after)).
    rewrite Hfiles, (SearchProofs.found_skips_unreadable rt app body _ _ _ Hbad).
    split; reflexivity. }
  split; [|split; [|split; [|split; [|split]]]].
  - intros R St processor s Hthrow. eexists.
    rewrite !BatchProofs.processBatch_spec by lia. split; [reflexivity|].
    subst rest. cbn [getMarkdownFiles with_files]. rewrite Hfiles.
    destruct (BatchProofs.run_batch_skip processor before after bad s Hthrow) as [-> ->].
    reflexivity.
  - intros R St f processor s Hp.
    rewrite BatchProofs.processBatch_spec by lia.
    rewrite (run_batch_readers f processor Hp). cbn [fst snd].
    rewrite non_null_readers, Hf. reflexivity.
  - intros body.
    change (Search.handle_search rt app (Some body)) with (Search.search rt app body).
    change (Search.handle_search rt rest (Some body)) with (Search.search rt rest body).
    split.
    + intros c q Hq results. destruct (Hsearch body c q Hq) as [Happ Hrest].
      split; [exact Happ|]. split; [rewrite Hrest; exact Happ|]. split.
      * intros r Hr'. subst results. apply SearchProofs.In_slice_upto in Hr'.
        apply (Permutation_in _ (SortProofs.stable_sort_perm _ _)) in Hr'.
        apply SearchProofs.In_take_cap, SearchProofs.In_found in Hr'.
        destruct Hr' as (_ & file & content & Hfile & _ & Hread & Hnote & Hm).
        exists file, content, (String c q). split; [apply Hin, Hfile|].
        split; [exact Hread|]. split; [exact Hq|].
        unfold needle, sensitive in Hm. rewrite Hq in Hm. auto.
      * intros Hfits file content Hfile Hscope Hread Hm. subst results.
        destruct (SearchProofs.fits_keeps_all _ _ Hfits) as [_ Htake]. rewrite Htake.
        pose proof (SortProofs.stable_sort_perm Search.more_matches
                      (found rt app body (before ++ after))) as Hperm.
        destruct (SearchProofs.fits_keeps_all (limit_of body)
                    (stable_sort Search.more_matches (found rt app body (before ++ after))))
          as [Hslice Htake'].
        { rewrite (Permutation_length Hperm). exact Hfits. }
        rewrite Htake' in Hslice. rewrite Hslice.
        apply (Permutation_in _ (Permutation_sym Hperm)).
        apply SearchProofs.found_In; assumption.
    + destruct (Search.query body) as [[|c q]|] eqn:Hq.
      * eexists. split; [|split].
        -- apply SearchProofs.search_without_query. rewrite Hq. discriminate.
        -- apply SearchProofs.search_without_query.
           rewrite Hq. discriminate.
        -- discriminate.
      * destruct (Hsearch body c q Hq) as [Happ Hrest].
        eexists. split; [exact Happ|]. split; [rewrite Hrest; exact Happ | discriminate].
      * eexists. split; [|split].
        -- apply SearchProofs.search_without_query. rewrite Hq. discriminate.
        -- apply SearchProofs.search_without_query.
           rewrite Hq. discriminate.
        -- discriminate.
  - intros p. split; [apply BatchProofs.backlinks_with_files, Hf|].
    split; [|split; [apply BatchProofs.backlinks_from_readable|]].
    + intros msg. unfold Links.backlinks.
      destruct (getAbstractFileByPath app (normalizePath p)) as [[Y|?]|]; discriminate.
    + intros targetFile re Ht Hre. unfold Links.backlinks. rewrite Ht.
      eexists. split; [reflexivity|]. intros file content Hfile Hrefers Hread.
      apply in_flat_map. exists file. split; [apply Hin, Hfile|].
      rewrite LinkListings.backlink_entry_cases, Hrefers, Hre, Hread.
      left. reflexivity.
  - intros read. reflexivity.
  - destruct (TagsProofs.list_tags_covers app) as (counts & Hl & Hcov).
    exists counts. split; [exact Hl|]. intros file cache t Hfile Hc Ht.
    apply Hcov. unfold tag_mentions. apply in_flat_map. exists file.
    split; [apply Hin, Hfile|]. rewrite Hc. exact Ht.
Qed.

End Isolation.

Lemma bulk_scans_isolate_failures_witness :
  processBatch (fun (x : TFile) (s : unit) =>
                  (s, match vault_read patchy_vault x with
                      | Some _ => Ok (Some (path x))
                      | None => Throw "read failed"
                      end))
               (getMarkdownFiles patchy_vault) 50 tt
  = Some (["A.md"], tt) /\
  Search.handle_search plain_runtime patchy_vault
    (Some {| Search.query := Some "[["; Search.folder := None;
             Search.limit := None; Search.caseSensitive := None |})
  = Some (ReplyJson
            [ {| Search.note := {| ni_path := "A"; ni_title := "A";
                                   ni_tags := ["work"; "home"];
                                   ni_created := None; ni_modified := None |};
                 Search.matches := [ {| Search.line := 1;
                                        Search.text := "[[B]] #work #home" |} ] |} ]) /\
  (exists bs,
     Links.backlinks plain_runtime patchy_vault "B" = ReplyJson bs /\
     In {| Links.bl_info := {| ni_path := "A"; ni_title := "A";
                               ni_tags := ["work"; "home"];
                               ni_created := None; ni_modified := None |};
           Links.bl_context := "" |} bs) /\
  Links.backlinks plain_runtime patchy_vault "A"
  = Links.backlinks plain_runtime (with_files patchy_vault [note "A"]) "A" /\
  (exists counts n,
     Tags.list_tags patchy_vault = ReplyJson counts /\
     In {| Tags.tc_tag := "home"; Tags.tc_count := n |} counts /\ 1 <= n).
Proof.
  destruct (bulk_scans_isolate_failures plain_runtime patchy_vault
              [note "A"] (note "B") [] eq_refl eq_refl)
    as (_ & Hbatch & Hsearch & Hback & _ & Htags).
  split; [|split; [|split; [|split]]].
  - exact (Hbatch string unit path _ tt (fun x s' => eq_refl)).
  - destruct (Hsearch {| Search.query := Some "[["; Search.folder := None;
                         Search.limit := None; Search.caseSensitive := None |})
      as [H _].
    destruct (H "["%char "[" eq_refl) as [E _]. exact E.
  - destruct (Hback "B") as (_ & _ & _ & H).
    destruct (H (note "B") (fun _ => None) eq_refl eq_refl) as (bs & E & Hall).
    exists bs. split; [exact E|].
    exact (Hall (note "A") "[[B]] #work #home" (or_introl eq_refl) eq_refl eq_refl).
  - destruct (Hback "A") as (H & _). exact H.
  - destruct Htags as (counts & E & Hall).
    destruct (Hall (note "A")
                   {| links := Some [wikilink "B"]; embeds := None;
                      tags := Some [ {| tag := "#work" |}; {| tag := "#home" |} ];
                      frontmatter := None |}
                   "home" (or_introl eq_refl) eq_refl
                   (or_intror (or_introl eq_refl)))
      as (n & Hn & Hpos).
    exists counts, n. auto.
Defined.

End IsolationProofs.

(** ** Notes and their frontmatter *)

Module NotesProofs.
Import Js Obsidian Platform Utils Routes Notes.

(** *** Strings *)

Lemma append_cons c s t : (String c s ++ t)%string = String c (s ++ t)%string.
Proof. reflexivity. Qed.

Lemma append_nil_l t : ("" ++ t)%string = t.
Proof. reflexivity. Qed.

Lemma append_assoc s t u : ((s ++ t) ++ u)%string = (s ++ (t ++ u))%string.
Proof.
  induction s as [|c s IH]; [reflexivity|].
  rewrite !append_cons, IH. reflexivity.
Qed.

Lemma chars_append s t :
  list_ascii_of_string (s ++ t)%string = list_ascii_of_string s ++ list_ascii_of_string t.
Proof.
  induction s as [|c s IH]; [reflexivity|].
  rewrite append_cons. simpl. rewrite IH. reflexivity.
Qed.

Lemma no_newline_append s t : no_newline (s ++ t)%string <-> no_newline s /\ no_newline t.
Proof. unfold no_newline. rewrite chars_append, in_app_iff. tauto. Qed.

Lemma chars_substring c n m s :
  In c (list_ascii_of_string (substring n m s)) -> In c (list_ascii_of_string s).
Proof.
  revert n m. induction s as [|d s IH]; intros [|n] [|m]; simpl; try tauto.
  - intros [H|H]; [left; exact H | right; apply (IH 0%nat m), H].
  - intros H. right. apply (IH n 0%nat), H.
  - intros H. right. apply (IH n (S m)), H.
Qed.

Lemma no_newline_substring n m s : no_newline s -> no_newline (substring n m s).
Proof. unfold no_newline. intros H Hin. apply H. eapply chars_substring, Hin. Qed.

Lemma split_aux_chars sep c s : forall cur p,
  In p (split_aux sep s cur) -> In c (list_ascii_of_string p) ->
  In c (list_ascii_of_string cur) \/ In c (list_ascii_of_string s).
Proof.
  induction s as [|d s IH]; intros cur p; simpl.
  - intros [<-|[]] H. left. exact H.
  - destruct (Ascii.eqb d sep).
    + intros [<-|Hp] H; [left; exact H|].
      destruct (IH "" p Hp H) as [[]|H']. right. right. exact H'.
    + intros Hp H. destruct (IH _ p Hp H) as [H'|H'].
      * rewrite chars_append in H'. apply in_app_or in H' as [H'|[<-|[]]]; auto.
      * right. right. exact H'.
Qed.

Lemma no_newline_split sep s p : no_newline s -> In p (split sep s) -> no_newline p.
Proof.
  unfold no_newline, split. intros H Hp Hin.
  destruct (split_aux_chars sep newline s "" p Hp Hin) as [[]|H']. exact (H H').
Qed.

Lemma no_newline_concat sep l :
  no_newline sep -> (forall x, In x l -> no_newline x) -> no_newline (String.concat sep l).
Proof.
  intros Hsep. induction l as [|x l IH]; intros Hl; [intros []|].
  destruct l as [|y l]; [apply Hl; left; reflexivity|].
  change (String.concat sep (x :: y :: l)) with (x ++ sep ++ String.concat sep (y :: l))%string.
  rewrite !no_newline_append. split; [apply Hl; left; reflexivity|]. split; [exact Hsep|].
  apply IH. intros z Hz. apply Hl. right. exact Hz.
Qed.

(** *** Finding the end of the frontmatter *)

Lemma index_step p c s :
  String.index 0 p (String c s) =
  if String.prefix p (String c s) then Some 0%nat
  else option_map S (String.index 0 p s).
Proof. simpl. destruct (String.prefix p (String c s)); [reflexivity|].
  destruct (String.index 0 p s); reflexivity. Qed.

Lemma prefix_cons a p b s :
  String.prefix (String a p) (String b s) = if ascii_dec a b then String.prefix p s else false.
Proof. reflexivity. Qed.

Lemma index_skip_line l t :
  no_newline l ->
  String.index 0 fm_close (l ++ t)%string =
  option_map (Nat.add (String.length l)) (String.index 0 fm_close t).
Proof.
  induction l as [|c l IH]; intros Hl.
  - rewrite append_nil_l. destruct (String.index 0 fm_close t); reflexivity.
  - rewrite append_cons, index_step. unfold fm_close at 1. rewrite prefix_cons.
    destruct (ascii_dec newline c) as [<-|_]; [exfalso; apply Hl; left; reflexivity|].
    rewrite IH by (intros H; apply Hl; right; exact H).
    destruct (String.index 0 fm_close t); reflexivity.
Qed.

Lemma fence_not_entry l t :
  entry_line l -> String.prefix Search.frontmatter_fence (l ++ t)%string = false.
Proof.
  intros [Hn Hc]. unfold Search.frontmatter_fence.
  destruct l as [|c1 l]; [destruct Hc|]. rewrite append_cons, prefix_cons.
  destruct (ascii_dec "-" c1) as [<-|_]; [|reflexivity].
  destruct Hc as [Hc|Hc]; [discriminate|].
  destruct l as [|c2 l]; [destruct Hc|]. rewrite append_cons, prefix_cons.
  destruct (ascii_dec "-" c2) as [<-|_]; [|reflexivity].
  destruct Hc as [Hc|Hc]; [discriminate|].
  destruct l as [|c3 l]; [destruct Hc|]. rewrite append_cons, prefix_cons.
  destruct (ascii_dec "-" c3) as [<-|_]; [|reflexivity].
  destruct Hc as [Hc|Hc]; [discriminate|].
  destruct l as [|c4 l]; [destruct Hc|]. rewrite append_cons, prefix_cons.
  destruct (ascii_dec newline c4) as [<-|_]; [|reflexivity].
  exfalso. apply Hn. simpl. auto.
Qed.

Lemma index_close lines content :
  (forall l, In l lines -> entry_line l) ->
  String.index 0 fm_close
    (String.concat (String newline "") lines ++ fm_close ++ content)%string =
  Some (String.length (String.concat (String newline "") lines)).
Proof.
  assert (Hhere : forall t, String.index 0 fm_close (fm_close ++ t)%string = Some 0%nat).
  { intros t. unfold fm_close at 2. rewrite append_cons, index_step.
    change (String newline (Search.frontmatter_fence ++ t)%string)
      with (fm_close ++ t)%string.
    rewrite DispatchProofs.prefix_append. reflexivity. }
  induction lines as [|l lines IH]; intros Hl.
  - simpl String.concat. rewrite append_nil_l. apply Hhere.
  - destruct lines as [|l2 lines].
    + simpl String.concat. rewrite index_skip_line by (apply Hl; left; reflexivity).
      rewrite Hhere. simpl. rewrite Nat.add_0_r. reflexivity.
    + change (String.concat (String newline "") (l :: l2 :: lines))
        with (l ++ String newline "" ++ String.concat (String newline "") (l2 :: lines))%string.
      rewrite !append_assoc.
      rewrite index_skip_line by (apply Hl; left; reflexivity).
      rewrite append_cons, append_nil_l, index_step.
      unfold fm_close at 1. rewrite prefix_cons.
      destruct (ascii_dec newline newline) as [_|]; [|congruence].
      assert (Hl2 : entry_line l2) by (apply Hl; right; left; reflexivity).
      destruct lines as [|l3 lines].
      * simpl String.concat. simpl String.concat in IH.
        rewrite (fence_not_entry l2 _ Hl2).
        rewrite IH by (intros x Hx; apply Hl; right; exact Hx).
        simpl. rewrite !LinksProofs.length_append. simpl. f_equal; lia.
      * change (String.concat (String newline "") (l2 :: l3 :: lines))
          with (l2 ++ String newline "" ++ String.concat (String newline "") (l3 :: lines))%string
          in *.
        rewrite !append_assoc. rewrite (fence_not_entry l2 _ Hl2).
        rewrite !append_assoc in IH.
        rewrite IH by (intros x Hx; apply Hl; right; exact Hx).
        simpl. rewrite !LinksProofs.length_append. simpl. f_equal; lia.
Qed.

Lemma substring_append_l s t : substring 0 (String.length s) (s ++ t)%string = s.
Proof.
  induction s as [|c s IH]; [destruct t; reflexivity|].
  rewrite append_cons. simpl. rewrite IH. reflexivity.
Qed.

Lemma slice_from_append s t : slice_from (String.length s) (s ++ t)%string = t.
Proof.
  unfold slice_from. rewrite LinksProofs.length_append.
  replace (String.length s + String.length t - String.length s)%nat
    with (String.length t) by lia.
  apply LinksProofs.substring_append_r.
Qed.

Lemma yaml_line_entry e :
  no_newline (fst e) -> plain_value (snd e) -> entry_line (yaml_line e).
Proof.
  intros Hk Hv. unfold yaml_line, entry_line.
  assert (Hsep : forall s, no_newline s ->
                   no_newline (fst e ++ ": " ++ s)%string /\
                   In ":"%char (list_ascii_of_string (fst e ++ ": " ++ s)%string)).
  { intros s Hs. split.
    - rewrite !no_newline_append. split; [exact Hk|]. split; [|exact Hs].
      unfold no_newline, newline. simpl. intros [H|[H|[]]]; discriminate.
    - rewrite chars_append. apply in_or_app. right. left. reflexivity. }
  destruct (snd e) as [s|items]; simpl in Hv.
  - apply Hsep, Hv.
  - assert (Hitems : no_newline ("[" ++ String.concat ", " items ++ "]")%string).
    { rewrite !no_newline_append. split; [|split].
      - unfold no_newline, newline. simpl. intros [H|[]]; discriminate.
      - apply no_newline_concat; [|exact Hv].
        unfold no_newline, newline. simpl. intros [H|[H|[]]]; discriminate.
      - unfold no_newline, newline. simpl. intros [H|[]]; discriminate. }
    destruct (Hsep _ Hitems) as [H1 H2].
    change (fst e ++ ": [" ++ String.concat ", " items ++ "]")%string
      with (fst e ++ ": " ++ "[" ++ String.concat ", " items ++ "]")%string.
    split; assumption.
Qed.

Section Parsing.
Variable rt : Runtime.

(** What is written is read back: the text rendered from a frontmatter
    without line breaks and a body parses into the lines of that
    frontmatter and that very body. *)
Lemma parse_render fm content :
  plain fm ->
  parseFrontmatter rt (render fm content) =
  (fold_left (parse_line rt)
             (split newline (String.concat (String newline "") (map yaml_line fm))) [],
   content).
Proof.
  intros Hfm. unfold parseFrontmatter, render, startsWith.
  rewrite DispatchProofs.prefix_append.
  assert (Hrest : forall X, slice_from 4 (Search.frontmatter_fence ++ X)%string = X)
    by (intros X; apply (slice_from_append Search.frontmatter_fence)).
  rewrite Hrest, index_close.
  2:{ intros l Hl. apply in_map_iff in Hl as ([k v] & <- & He).
      destruct (Hfm k v He). apply yaml_line_entry; assumption. }
  set (J := String.concat (String newline "") (map yaml_line fm)).
  rewrite substring_append_l. f_equal.
  rewrite <- append_assoc.
  replace (String.length J + 5)%nat with (String.length (J ++ fm_close)%string)
    by (rewrite LinksProofs.length_append; reflexivity).
  apply slice_from_append.
Qed.

(** *** What parsing yields *)

Hypothesis trim_plain : forall s, no_newline s -> no_newline (trim rt s).

Lemma fm_set_plain k v fm :
  no_newline k -> plain_value v -> plain fm -> plain (fm_set k v fm).
Proof.
  intros Hk Hv. induction fm as [|[k' v'] fm IH]; intros Hfm; simpl.
  - intros a b [E|[]]. injection E as <- <-. auto.
  - destruct (String.eqb_spec k' k) as [->|_].
    + intros a b [E|H]; [injection E as <- <-; auto | apply Hfm; right; exact H].
    + intros a b [E|H]; [apply Hfm; left; exact E|].
      apply IH; [|exact H]. intros x y Hxy. apply Hfm. right. exact Hxy.
Qed.

Lemma spread_plain extra : forall base, plain base -> plain extra -> plain (spread base extra).
Proof.
  unfold spread. induction extra as [|[k v] extra IH]; intros base Hb He; simpl; [exact Hb|].
  apply IH; [|intros a b H; apply He; right; exact H].
  destruct (He k v (or_introl eq_refl)). apply fm_set_plain; assumption.
Qed.

Lemma parse_line_plain fm line :
  no_newline line -> plain fm -> plain (parse_line rt fm line).
Proof.
  intros Hl Hfm. unfold parse_line.
  destruct (String.index 0 ":" line) as [colonIdx|]; [|exact Hfm].
  assert (Hkey : no_newline (trim rt (substring 0 colonIdx line)))
    by (apply trim_plain, no_newline_substring, Hl).
  assert (Hval : no_newline (trim rt (slice_from (colonIdx + 1) line)))
    by (apply trim_plain, no_newline_substring, Hl).
  destruct (startsWith _ "[" && endsWith _ "]").
  - apply fm_set_plain; [exact Hkey | | exact Hfm]. simpl. intros i Hi.
    apply in_map_iff in Hi as (p & <- & Hp). apply trim_plain.
    eapply no_newline_split; [|exact Hp]. apply no_newline_substring, Hval.
  - destruct (trim rt (slice_from (colonIdx + 1) line)) as [|c v] eqn:E; [exact Hfm|].
    apply fm_set_plain; [exact Hkey | exact Hval | exact Hfm].
Qed.

Lemma parseFrontmatter_plain content : plain (fst (parseFrontmatter rt content)).
Proof.
  unfold parseFrontmatter. destruct (startsWith content _); [|intros ? ? []].
  destruct (String.index 0 fm_close _) as [k|]; [|intros ? ? []]. cbn [fst].
  set (yaml := substring 0 k (slice_from 4 content)).
  assert (Hlines : forall l, In l (split newline yaml) -> no_newline l).
  { intros l Hl. unfold split in Hl.
    apply DispatchProofs.split_aux_no_sep in Hl; [exact Hl | intros []]. }
  revert Hlines. generalize (split newline yaml) as lines.
  assert (H0 : plain []) by (intros ? ? []). revert H0. generalize ([] : Fm) as fm.
  intros fm Hfm lines. revert fm Hfm.
  induction lines as [|l lines IH]; intros fm Hfm Hl; simpl; [exact Hfm|].
  apply IH; [|intros x Hx; apply Hl; right; exact Hx].
  apply parse_line_plain; [apply Hl; left; reflexivity | exact Hfm].
Qed.

End Parsing.

(** X20. A note is created with the body that was posted: when neither
    the timestamp nor a key or value of the posted frontmatter contains
    a line break, the file that [POST /notes] writes -- at the
    normalised path, which ends in [.md] -- reads back, through
    [fileToNote], with exactly the posted content as its content (the
    empty text when none was posted), whatever that content is, even if
    it contains frontmatter fences of its own. *)
Theorem created_note_reads_back rt app now body target text :
  create_note app now body = WriteFile target text ->
  no_newline now ->
  plain (match cb_frontmatter body with Some f => f | None => [] end) ->
  endsWith target ".md" = true /\
  getAbstractFileByPath app target = None /\
  forall file,
    n_content (fileToNote rt file text) =
    match cb_content body with Some s => s | None => "" end /\
    n_raw (fileToNote rt file text) = text.
Proof.
  unfold create_note. intros H Hnow Hfm.
  destruct (cb_path body) as [[|c p]|]; try discriminate.
  destruct (getAbstractFileByPath app (normalizePath (String c p))) eqn:Ex; [discriminate|].
  injection H as <- <-. split; [apply LinksProofs.normalizePath_md|]. split; [exact Ex|].
  intros file. unfold fileToNote. cbn [n_content n_raw]. rewrite parse_render.
  - split; reflexivity.
  - apply spread_plain; [|exact Hfm].
    intros k v [E|[]]. injection E as <- <-. split; [|exact Hnow].
    unfold no_newline, newline. simpl. intuition discriminate.
Qed.

Lemma created_note_reads_back_witness :
  n_content (fileToNote Fixtures.plain_runtime (Fixtures.note "C")
               (render [("created", FmStr "2026-01-15T00:00:00.000Z");
                        ("tags", FmList ["a"; "b"])]
                       "body")) = "body".
Proof.
  refine (proj1 (proj2 (proj2 (created_note_reads_back Fixtures.plain_runtime
            Fixtures.cycle_vault "2026-01-15T00:00:00.000Z"
            {| cb_path := Some "C"; cb_content := Some "body";
               cb_frontmatter := Some [("tags", FmList ["a"; "b"])] |}
            "C.md" _ eq_refl _ _)) (Fixtures.note "C"))).
  - unfold no_newline, newline. simpl. intuition discriminate.
  - simpl. intros k v [E|[]]. injection E as <- <-. split.
    + unfold no_newline, newline. simpl. intuition discriminate.
    + simpl. intros i [<-|[<-|[]]]; unfold no_newline, newline; simpl;
        intuition discriminate.
Defined.

(** X21. An update never damages the body.  Provided trimming does not
    introduce line breaks and neither the timestamp nor the posted
    frontmatter contains one, the file that [PUT /notes/:path] writes
    reads back with the posted content, or with the old body, a line
    break and the appended text, or -- when only the frontmatter is
    updated -- with the old body unchanged, where the old body is what
    [fileToNote] read from the file before. *)
Theorem update_preserves_body rt app now params_path body target text :
  update_note rt app now params_path body = WriteFile target text ->
  (forall s, no_newline s -> no_newline (trim rt s)) ->
  no_newline now ->
  plain (match ub_frontmatter body with Some f => f | None => [] end) ->
  exists file existing,
    getAbstractFileByPath app (normalizePath params_path) = Some (AFile file) /\
    vault_read app file = Some existing /\
    target = path file /\
    n_content (fileToNote rt file text) =
    updated_body body (n_content (fileToNote rt file existing)).
Proof.
  unfold update_note. intros H Htrim Hnow Hfm.
  destruct (getAbstractFileByPath app (normalizePath params_path)) as [[file|]|] eqn:Ef;
    try discriminate.
  destruct (vault_read app file) as [existing|] eqn:Er; [|discriminate].
  injection H as <- <-. exists file, existing.
  split; [reflexivity|]. split; [exact Er|]. split; [reflexivity|].
  unfold fileToNote. cbn [n_content]. rewrite parse_render; [reflexivity|].
  apply fm_set_plain; [|exact Hnow|].
  - unfold no_newline, newline. simpl. intuition discriminate.
  - apply spread_plain; [|exact Hfm]. apply parseFrontmatter_plain, Htrim.
Qed.

Lemma update_preserves_body_witness :
  exists file existing text,
    update_note Fixtures.plain_runtime Fixtures.cycle_vault "2026-01-15T00:00:00.000Z" "A"
      {| ub_content := None; ub_append := Some "more"; ub_frontmatter := None |}
    = WriteFile "A.md" text /\
    vault_read Fixtures.cycle_vault file = Some existing /\
    n_content (fileToNote Fixtures.plain_runtime file text) =
    (n_content (fileToNote Fixtures.plain_runtime file existing)
       ++ String newline "" ++ "more")%string.
Proof.
  destruct (update_preserves_body Fixtures.plain_runtime Fixtures.cycle_vault
              "2026-01-15T00:00:00.000Z" "A"
              {| ub_content := None; ub_append := Some "more"; ub_frontmatter := None |}
              _ _ eq_refl)
    as (file & existing & _ & Er & _ & E).
  - intros s Hs. exact Hs.
  - unfold no_newline, newline. simpl. intuition discriminate.
  - intros k v [].
  - exists file, existing. eexists. split; [reflexivity|]. split; [exact Er | exact E].
Defined.

(** *** Listing notes *)

Section Listing.
Variable app : App.

Lemma list_loop_spec limit tag files : forall notes,
  list_loop app limit tag files notes =
  notes ++
  match limit with
  | Some l => firstn (Z.to_nat l - length notes)
  | None => fun x => x
  end (List.filter (has_tag tag) (map (TagNotes.info_of app) files)).
Proof.
  assert (Hinfo : forall file, fileToNoteInfo app file None = TagNotes.info_of app file).
  { intros file. unfold TagNotes.info_of, fileToNoteInfo.
    destruct (getFileCache app file); reflexivity. }
  induction files as [|file files IH]; intros notes; cbn [list_loop].
  - simpl. destruct limit; [rewrite firstn_nil|]; rewrite app_nil_r; reflexivity.
  - rewrite Hinfo. cbn [map List.filter].
    assert (Hkeep : forall keep : bool,
      (if match limit with Some l => Z.of_nat (length notes) >=? l | None => false end
       then notes
       else if keep
            then list_loop app limit tag files (notes ++ [TagNotes.info_of app file])
            else list_loop app limit tag files notes) =
      notes ++
      match limit with
      | Some l => firstn (Z.to_nat l - length notes)
      | None => fun x => x
      end (if keep
           then TagNotes.info_of app file
                  :: List.filter (has_tag tag) (map (TagNotes.info_of app) files)
           else List.filter (has_tag tag) (map (TagNotes.info_of app) files))).
    { intros keep. destruct limit as [l|].
      - destruct (Z.geb_spec (Z.of_nat (length notes)) l) as [Hge|Hlt].
        + replace (Z.to_nat l - length notes)%nat with 0%nat by lia.
          simpl. rewrite app_nil_r. reflexivity.
        + destruct keep; [|apply IH]. rewrite IH, length_app. simpl.
          replace (Z.to_nat l - length notes)%nat
            with (S (Z.to_nat l - (length notes + 1))) by lia.
          cbn [firstn]. rewrite <- List.app_assoc. reflexivity.
      - destruct keep; [|apply IH]. rewrite IH, <- List.app_assoc. reflexivity. }
    destruct tag as [[|c t]|].
    + apply (Hkeep true).
    + change (has_tag (Some (String c t)) (TagNotes.info_of app file))
        with (string_in (String c t) (ni_tags (TagNotes.info_of app file))).
      destruct (string_in (String c t) (ni_tags (TagNotes.info_of app file)));
        [apply (Hkeep true) | apply (Hkeep false)].
    + apply (Hkeep true).
Qed.

End Listing.

(** X22. The note listing is the list of the vault's notes, as
    [fileToNoteInfo] reports them and in vault order, restricted to the
    folder prefix and to the notes that carry the tag (compared exactly,
    case included), and cut after the first [limit] of them; an empty
    or absent folder or tag does not restrict, and a limit of 0 or less
    gives the empty list. *)
Theorem note_listing app folder limit tag :
  list_notes app folder limit tag =
  ReplyJson (TagNotes.capped limit
               (List.filter (has_tag tag)
                  (map (TagNotes.info_of app)
                       (List.filter (in_folder folder) (getMarkdownFiles app))))).
Proof.
  unfold list_notes. rewrite list_loop_spec. unfold TagNotes.capped.
  assert (Hall : forall l : list TFile, List.filter (fun _ => true) l = l).
  { induction l as [|x l IH]; simpl; [reflexivity | rewrite IH; reflexivity]. }
  assert (Hf : match folder with
               | Some (String c f) =>
                   List.filter (fun file => startsWith (path file) (String c f))
                               (getMarkdownFiles app)
               | _ => getMarkdownFiles app
               end = List.filter (in_folder folder) (getMarkdownFiles app)).
  { unfold in_folder. destruct folder as [[|c f]|]; [rewrite Hall| |rewrite Hall]; reflexivity. }
  rewrite Hf. destruct limit; simpl; [rewrite Nat.sub_0_r|]; reflexivity.
Qed.

End NotesProofs.

(** ** Tokens *)

Module SettingsProofs.
Import Js Server Settings.

Lemma split_aux_plain s : forall cur,
  ~ In " "%char (list_ascii_of_string s) ->
  split_aux " "%char s cur = [(cur ++ s)%string].
Proof.
  induction s as [|c s IH]; intros cur Hs; simpl.
  - f_equal. induction cur as [|d cur IHc]; [reflexivity|].
    rewrite NotesProofs.append_cons, <- IHc. reflexivity.
  - destruct (Ascii.eqb_spec c " "%char) as [->|_]; [exfalso; apply Hs; left; reflexivity|].
    rewrite IH by (intros H; apply Hs; right; exact H).
    rewrite NotesProofs.append_assoc. reflexivity.
Qed.

Lemma split_bearer token :
  ~ In " "%char (list_ascii_of_string token) ->
  split " "%char (bearer token) = ["Bearer"; token].
Proof.
  intros H. unfold bearer, split.
  change (split_aux " " ("Bearer " ++ token)%string "")
    with ("Bearer" :: split_aux " " token "").
  rewrite split_aux_plain by exact H. reflexivity.
Qed.

Lemma bytes_eqb_refl l : bytes_eqb l l = true.
Proof. apply ServerProofs.bytes_eqb_eq. reflexivity. Qed.

Lemma safe_no_space token :
  forallb safe_char (list_ascii_of_string token) = true ->
  ~ In " "%char (list_ascii_of_string token).
Proof.
  intros H Hin. rewrite forallb_forall in H. specialize (H _ Hin). discriminate.
Qed.

Lemma safe_token_accepted token :
  token <> "" ->
  forallb safe_char (list_ascii_of_string token) = true ->
  checkAuth (Some token) (Some (bearer token)) = true.
Proof.
  intros Hne Hchars. unfold checkAuth.
  rewrite ServerProofs.checkAuthWith_configured by exact Hne.
  unfold presented_token, auth_scheme.
  rewrite split_bearer by (apply safe_no_space, Hchars). cbn [nth_error hd].
  assert (He : String.eqb token "" = false).
  { destruct token; [congruence | reflexivity]. }
  rewrite He. unfold timingSafeEqual. rewrite !Nat.eqb_refl, bytes_eqb_refl.
  reflexivity.
Qed.

Lemma substring_length n m s :
  (n + m <= String.length s)%nat -> String.length (substring n m s) = m.
Proof.
  revert n m. induction s as [|c s IH]; intros [|n] [|m] Hs;
    simpl in *; try lia; try reflexivity.
  - rewrite (IH 0%nat m); [reflexivity | simpl; lia].
  - apply (IH n 0%nat). lia.
  - apply (IH n (S m)). lia.
Qed.

(** X23. A token that the settings tab reports as valid works: it has
    at least 20 characters, all of them letters, digits, [_] or [-],
    and the server configured with it accepts the header [Bearer]
    followed by it.  Its masked form has 11 characters, so it never
    shows the token in full. *)
Theorem valid_token_authenticates show token :
  valid (validateTokenFormat show token) = true ->
  (20 <= String.length token)%nat /\
  forallb safe_char (list_ascii_of_string token) = true /\
  checkAuth (Some token) (Some (bearer token)) = true /\
  String.length (maskToken token) = 11%nat.
Proof.
  unfold validateTokenFormat. intros H.
  destruct (Nat.ltb_spec (String.length token) 20) as [|Hlen]; [discriminate|].
  destruct (safeChars token) eqn:Hsafe; [|discriminate].
  assert (Hchars : forallb safe_char (list_ascii_of_string token) = true).
  { unfold safeChars in Hsafe. destruct token; [discriminate | exact Hsafe]. }
  split; [exact Hlen|]. split; [exact Hchars|]. split.
  - apply safe_token_accepted; [|exact Hchars]. intros ->. simpl in Hlen. lia.
  - unfold maskToken, slice_last.
    destruct (Nat.leb_spec (String.length token) 8) as [|_]; [lia|].
    rewrite !LinksProofs.length_append, !substring_length by lia. reflexivity.
Qed.

Lemma valid_token_authenticates_witness :
  checkAuth (Some "abcdefghij-KLMNOPQRST_0123") (Some "Bearer abcdefghij-KLMNOPQRST_0123")
  = true.
Proof.
  apply (valid_token_authenticates (fun _ => "") "abcdefghij-KLMNOPQRST_0123").
  reflexivity.
Defined.

(** *** Generated tokens *)

Lemma sextet_safe n k : safe_char (sextet n k) = true.
Proof.
  unfold sextet.
  assert (Hall : forallb safe_char base64url_alphabet = true) by (vm_compute; reflexivity).
  rewrite forallb_forall in Hall.
  destruct (nth_in_or_default (N.to_nat (N.land (N.shiftr n k) 63))
              base64url_alphabet "A"%char) as [H| ->];
    [apply Hall, H | reflexivity].
Qed.

(** The three statements go through the list three bytes at a time. *)
Lemma base64url_facts bytes :
  (forallb safe_char (list_ascii_of_string (base64url bytes)) = true /\
   (length bytes <= String.length (base64url bytes))%nat) /\
  (forall a,
     forallb safe_char (list_ascii_of_string (base64url (a :: bytes))) = true /\
     (S (length bytes) <= String.length (base64url (a :: bytes)))%nat) /\
  (forall a b,
     forallb safe_char (list_ascii_of_string (base64url (a :: b :: bytes))) = true /\
     (S (S (length bytes)) <= String.length (base64url (a :: b :: bytes)))%nat).
Proof.
  induction bytes as [|c bytes (IH0 & IH1 & IH2)].
  - split; [split; [reflexivity | simpl; lia]|]. split.
    + intros a. cbn [base64url list_ascii_of_string forallb String.length length].
      rewrite !sextet_safe. split; [reflexivity | lia].
    + intros a b. cbn [base64url list_ascii_of_string forallb String.length length].
      rewrite !sextet_safe. split; [reflexivity | lia].
  - split; [apply IH1|]. split; [intros a; apply IH2|].
    intros a b. destruct IH0 as [Hs Hl].
    cbn [base64url list_ascii_of_string forallb String.length length].
    rewrite !sextet_safe, Hs. split; [reflexivity | lia].
Qed.

(** X24. A regenerated token is always a valid one: whatever the 32
    random bytes are, their URL-safe base-64 text consists of letters,
    digits, [_] and [-] only and is long enough, so the settings tab
    reports it as valid and the server configured with it accepts it. *)
Theorem regenerated_token_valid show random :
  length random = 32%nat ->
  valid (validateTokenFormat show (regenerateToken random)) = true /\
  checkAuth (Some (regenerateToken random)) (Some (bearer (regenerateToken random))) = true.
Proof.
  intros Hlen. unfold regenerateToken.
  destruct (base64url_facts random) as [[Hsafe Hl] _].
  assert (Hv : valid (validateTokenFormat show (base64url random)) = true).
  { unfold validateTokenFormat.
    destruct (Nat.ltb_spec (String.length (base64url random)) 20) as [|_]; [lia|].
    unfold safeChars. destruct (base64url random) as [|c s] eqn:E; [simpl in Hl; lia|].
    rewrite Hsafe. reflexivity. }
  split; [exact Hv|].
  apply safe_token_accepted; [|exact Hsafe].
  intros E. rewrite E in Hl. simpl in Hl. lia.
Qed.

Lemma regenerated_token_valid_witness :
  valid (validateTokenFormat (fun _ => "") (regenerateToken (repeat x2a 32))) = true /\
  checkAuth (Some (regenerateToken (repeat x2a 32)))
            (Some (bearer (regenerateToken (repeat x2a 32)))) = true.
Proof.
  apply (regenerated_token_valid (fun _ => "") (repeat x2a 32)). reflexivity.
Defined.

End SettingsProofs.

(** ** Route patterns *)

Module RoutingProofs.
Import Js Obsidian Platform Utils Server Routing.

Lemma is_empty_spec s : is_empty s = true <-> s = "".
Proof. destruct s; simpl; split; congruence. Qed.

Lemma append_nil_r s : (s ++ "")%string = s.
Proof.
  induction s as [|c s IH]; [reflexivity|].
  rewrite NotesProofs.append_cons, IH. reflexivity.
Qed.

Lemma append_snoc s d t : ((s ++ String d "") ++ t)%string = (s ++ String d t)%string.
Proof. rewrite NotesProofs.append_assoc. reflexivity. Qed.

Lemma group_sound ts' :
  (forall s gs, matches ts' s = Some gs ->
     s = fill ts' gs /\ Forall segment gs /\ length gs = arity ts') ->
  forall s taken r,
    ~ In "/"%char (list_ascii_of_string taken) ->
    group_loop (matches ts') taken s = Some r ->
    exists g gs, r = g :: gs /\ (taken ++ s)%string = (g ++ fill ts' gs)%string /\
                 segment g /\ Forall segment gs /\ length gs = arity ts'.
Proof.
  intros IH.
  assert (Hstop : forall taken s r,
    ~ In "/"%char (list_ascii_of_string taken) ->
    (if is_empty taken then None else option_map (cons taken) (matches ts' s)) = Some r ->
    exists g gs, r = g :: gs /\ (taken ++ s)%string = (g ++ fill ts' gs)%string /\
                 segment g /\ Forall segment gs /\ length gs = arity ts').
  { intros taken s r Ht H. destruct (is_empty taken) eqn:E; [discriminate|].
    destruct (matches ts' s) as [gs|] eqn:Em; [|discriminate]. injection H as <-.
    destruct (IH s gs Em) as (-> & Hseg & Hlen). exists taken, gs.
    split; [reflexivity|]. split; [reflexivity|]. split; [|auto].
    split; [|exact Ht]. intros ->. discriminate. }
  induction s as [|d s IHs]; intros taken r Ht H; cbn [group_loop] in H.
  - apply Hstop; assumption.
  - destruct (Ascii.eqb_spec d "/"%char) as [->|Hd]; [apply Hstop; assumption|].
    fold (group_loop (matches ts')) in H.
    destruct (group_loop (matches ts') (taken ++ String d "")%string s) as [r'|] eqn:Eg.
    + injection H as <-. rewrite <- append_snoc. apply IHs; [|exact Eg].
      rewrite NotesProofs.chars_append. intros Hin.
      apply in_app_or in Hin as [Hin|[Hin|[]]]; [exact (Ht Hin) | congruence].
    + apply Hstop; assumption.
Qed.

Lemma matches_sound ts : forall s gs,
  matches ts s = Some gs ->
  s = fill ts gs /\ Forall segment gs /\ length gs = arity ts.
Proof.
  induction ts as [|[c|] ts IH]; intros s gs H.
  - cbn [matches] in H. destruct (is_empty s) eqn:E; [|discriminate].
    injection H as <-. apply is_empty_spec in E. subst s.
    split; [reflexivity|]. split; [constructor | reflexivity].
  - cbn [matches] in H. destruct s as [|d s]; [discriminate|].
    destruct (Ascii.eqb_spec c d) as [->|_]; [|discriminate].
    destruct (IH s gs H) as (-> & Hseg & Hlen). auto.
  - cbn [matches] in H.
    destruct (group_sound ts IH s "" gs (fun x => x) H)
      as (g & gs' & -> & E & Hg & Hseg & Hlen).
    rewrite NotesProofs.append_nil_l in E. split; [exact E|].
    split; [constructor; assumption | simpl; rewrite Hlen; reflexivity].
Qed.

Lemma group_complete ts' rest :
  matches ts' rest <> None ->
  forall pre taken,
    ~ In "/"%char (list_ascii_of_string pre) ->
    (taken ++ pre)%string <> "" ->
    group_loop (matches ts') taken (pre ++ rest)%string <> None.
Proof.
  intros Hrest.
  assert (Hstop : forall taken, taken <> "" ->
            (if is_empty taken then None
             else option_map (cons taken) (matches ts' rest)) <> None).
  { intros taken Hne. destruct (is_empty taken) eqn:E;
      [apply is_empty_spec in E; contradiction|].
    destruct (matches ts' rest); [discriminate | contradiction]. }
  induction pre as [|d pre IH]; intros taken Hpre Hne.
  - rewrite NotesProofs.append_nil_l. rewrite append_nil_r in Hne.
    destruct rest as [|d rest']; cbn [group_loop]; [apply Hstop, Hne|].
    destruct (Ascii.eqb d "/"); [apply Hstop, Hne|].
    fold (group_loop (matches ts')).
    destruct (group_loop (matches ts') (taken ++ String d "")%string rest');
      [discriminate | apply Hstop, Hne].
  - rewrite NotesProofs.append_cons. cbn [group_loop]. fold (group_loop (matches ts')).
    destruct (Ascii.eqb_spec d "/"%char) as [->|_];
      [exfalso; apply Hpre; left; reflexivity|].
    assert (Hin : group_loop (matches ts') (taken ++ String d "")%string (pre ++ rest)%string <> None).
    { apply IH; [intros H; apply Hpre; right; exact H|].
      rewrite append_snoc. destruct taken; discriminate. }
    destruct (group_loop (matches ts') (taken ++ String d "")%string (pre ++ rest)%string);
      [discriminate | contradiction].
Qed.

Lemma matches_complete ts : forall gs,
  Forall segment gs -> length gs = arity ts -> matches ts (fill ts gs) <> None.
Proof.
  induction ts as [|[c|] ts IH]; intros gs Hseg Hlen.
  - discriminate.
  - cbn [matches fill]. rewrite Ascii.eqb_refl. apply IH; assumption.
  - destruct gs as [|g gs]; [discriminate|]. cbn [fill matches].
    inversion Hseg as [|? ? [Hne Hg] Hseg']; subst.
    apply group_complete; [|exact Hg|rewrite NotesProofs.append_nil_l; exact Hne].
    apply IH; [exact Hseg'|]. unfold arity in *. simpl in Hlen.
    injection Hlen as Hlen. exact Hlen.
Qed.

Lemma scan_names path : forall cur,
  arity (fst (scan path cur)) =
  length (snd (scan path cur)).
Proof.
  assert (Hflush : forall name, arity (fst (flush name)) = length (snd (flush name))).
  { intros [|c n]; reflexivity. }
  assert (Hemit : forall a b,
            arity (fst a) = length (snd a) -> arity (fst b) = length (snd b) ->
            arity (fst (emit a b)) = length (snd (emit a b))).
  { intros a b Ha Hb. unfold emit, arity in *. cbn [fst snd].
    rewrite List.filter_app, !length_app, Ha, Hb. reflexivity. }
  induction path as [|c rest IH]; intros cur; cbn [scan].
  - destruct cur; [apply Hflush | reflexivity].
  - destruct cur as [name|].
    + destruct (word_char c); [apply IH|].
      destruct (Ascii.eqb c ":"); repeat apply Hemit; auto.
    + destruct (Ascii.eqb c ":"); [apply IH|]. apply Hemit; [reflexivity | apply IH].
Qed.

(** X25. What a registered route matches.  The pattern of a route is
    anchored at both ends: a path is matched exactly when it is the
    route's path with every parameter replaced by a non-empty text
    without a slash.  A match yields one captured value for each
    parameter name, so a path with an extra slash inside a parameter --
    a note in a folder, unless the slash is percent-encoded -- does not
    match the route; the method is stored in upper case. *)
Theorem route_pattern_exact toUpperCase method_ path_ h :
  literal_path path_ ->
  let r := compile toUpperCase method_ path_ h in
  let ts := fst (scan path_ None) in
  method r = toUpperCase method_ /\
  (forall p groups,
     pattern r p = Some groups ->
     p = fill ts groups /\ Forall segment groups /\ length groups = length (paramNames r)) /\
  (forall values,
     Forall segment values -> length values = length (paramNames r) ->
     exists groups, pattern r (fill ts values) = Some groups).
Proof.
  intros _ r ts. split; [reflexivity|]. split.
  - intros p groups H. cbn [pattern compile r] in H.
    destruct (matches_sound _ _ _ H) as (E & Hseg & Hlen).
    split; [exact E|]. split; [exact Hseg|].
    cbn [paramNames compile r]. rewrite <- scan_names. exact Hlen.
  - intros values Hseg Hlen. cbn [pattern paramNames compile r] in *.
    rewrite <- scan_names in Hlen.
    pose proof (matches_complete (fst (scan path_ None)) values Hseg Hlen) as H.
    unfold ts.
    destruct (matches (fst (scan path_ None)) (fill (fst (scan path_ None)) values))
      as [g|]; [eauto | contradiction].
Qed.

Lemma route_pattern_exact_witness :
  "/notes/a%2Fb/backlinks" = fill (fst (scan "/notes/:path/backlinks" None)) ["a%2Fb"] /\
  Forall segment ["a%2Fb"].
Proof.
  assert (Hlit : literal_path "/notes/:path/backlinks").
  { intros c Hc. simpl in Hc.
    repeat (destruct Hc as [Hc|Hc]; [inversion Hc; reflexivity|]). destruct Hc. }
  destruct (route_pattern_exact (fun m => m) "GET" "/notes/:path/backlinks"
              Fixtures.quick Hlit) as (_ & Hsound & _).
  destruct (Hsound "/notes/a%2Fb/backlinks" ["a%2Fb"] eq_refl) as (E & Hseg & _).
  split; [exact E | exact Hseg].
Defined.

End RoutingProofs.
